(** * Gamma-family kernels of the MPS backend (aten/src/ATen/native/mps/operations/Gamma.mm)

    A shallow embedding of the Metal kernels [Gamma], [LogGamma],
    [calc_digamma_positive_domain], [calc_zeta], [calc_trigamma] and of the
    [trigamma], [polygamma], [digamma] and [lgamma] entry kernels, followed by
    the host side: the two process-wide caches ([compileGammaOpsLibrary],
    [getCPLState]) and the three structured operators.

    Arithmetic model.  Metal has no double type, so every [float] expression
    of the kernel source is evaluated in IEEE-754 binary32 with rounding to
    nearest, ties to even, as specified by [SpecFloat] at precision 24 and
    maximal exponent 128.  Literals are rounded once to binary32.  The
    transcendental functions of the Metal standard library are not part of the
    repository: they are the fields of the interface [MetalMath]. *)

From Stdlib Require Import ZArith Zquot Bool List Lia QArith Qabs SpecFloat.
From stdpp Require Import gmap strings.

Local Open Scope Z_scope.

(** ** Binary32 *)

Module F32.

Definition prec : Z := 24.
Definition emax : Z := 128.

Abbreviation float := spec_float.

Definition add : float -> float -> float := SFadd prec emax.
Definition sub : float -> float -> float := SFsub prec emax.
Definition mul : float -> float -> float := SFmul prec emax.
Definition div : float -> float -> float := SFdiv prec emax.
Definition neg : float -> float := SFopp.
Definition fabs : float -> float := SFabs.

Definition ltb : float -> float -> bool := SFltb.
Definition leb : float -> float -> bool := SFleb.
Definition eqb : float -> float -> bool := SFeqb.
(** C's [!=]: true as soon as one side is a NaN. *)
Definition neqb (x y : float) : bool := negb (SFeqb x y).

Definition INFINITY : float := S754_infinity false.
Definition NAN : float := S754_nan.
Definition pzero : float := S754_zero false.
Definition nzero : float := S754_zero true.

(** Conversion of an integer (an [int] or [int64_t] operand, or an integral
    literal) to binary32. *)
Definition of_Z (n : Z) : float := binary_normalize prec emax n 0 false.

(** The decimal literal [m / 10^k], rounded once.  [SFdiv] computes the
    quotient of the two integers with its rounding location, so the result
    is the binary32 number nearest to the rational. *)
Definition dec (m : Z) (k : nat) : float :=
  match m with
  | Z0 => pzero
  | Zpos p => div (S754_finite false p 0) (S754_finite false (Z.to_pos (10 ^ Z.of_nat k)) 0)
  | Zneg p => div (S754_finite true p 0) (S754_finite false (Z.to_pos (10 ^ Z.of_nat k)) 0)
  end.

(** The sign of a zero, an infinity or a finite number.  [S754_nan] carries
    no sign in this model (it gets [false]); the kernels take the sign of a
    zero only (see [copysign] in [digamma], and [eqb_zero_cases]). *)
Definition sign_bit (x : float) : bool :=
  match x with
  | S754_zero s | S754_infinity s | S754_finite s _ _ => s
  | S754_nan => false
  end.

(** [copysign(x, y)]: the magnitude of [x] with the sign of [y]. *)
Definition copysign (x y : float) : float :=
  if sign_bit y then neg (fabs x) else fabs x.

(** [trunc(x)]: the integral part, rounding toward zero.  A finite number
    [m * 2^e] with [e < 0] keeps the quotient of [m] by [2^(-e)]. *)
Definition trunc (x : float) : float :=
  match x with
  | S754_finite s m e =>
      if 0 <=? e then x
      else match Z.shiftr (Zpos m) (- e) with
           | Z0 => S754_zero s
           | q => binary_normalize prec emax (if s then - q else q) 0 s
           end
  | _ => x
  end.

(** [floor(x)]: the largest integral value not above [x]. *)
Definition floor (x : float) : float :=
  match x with
  | S754_finite s m e =>
      if 0 <=? e then x
      else
        let q := Z.shiftr (Zpos m) (- e) in
        let exact := Zpos m =? Z.shiftl q (- e) in
        let n := if s then (if exact then - q else - q - 1) else q in
        match n with
        | Z0 => S754_zero s
        | _ => binary_normalize prec emax n 0 s
        end
  | _ => x
  end.

(** [static_cast<int>(x)] for a float holding an integral value in the
    range of [int]; the only use in the kernels is on [floor(y)] with
    [1 <= y < 12].  NaN and the infinities are mapped to 0. *)
Definition to_int (x : float) : Z :=
  match x with
  | S754_finite s m e =>
      let q := if 0 <=? e then Z.shiftl (Zpos m) e else Z.shiftr (Zpos m) (- e) in
      if s then - q else q
  | _ => 0
  end.


Definition is_finite (x : float) : bool :=
  match x with
  | S754_finite _ _ _ | S754_zero _ => true
  | _ => false
  end.

End F32.

Import F32.

Declare Scope f32_scope.
Delimit Scope f32_scope with f32.
Bind Scope f32_scope with spec_float.
Infix "+" := add : f32_scope.
Infix "-" := sub : f32_scope.
Infix "*" := mul : f32_scope.
Infix "/" := div : f32_scope.
Notation "- x" := (neg x) : f32_scope.
Infix "<?" := ltb : f32_scope.
Infix "<=?" := leb : f32_scope.
Infix "=?" := eqb : f32_scope.
Infix "!=?" := neqb (at level 70) : f32_scope.

(** 32-bit [int] arithmetic of the kernels, with its wrap-around. *)
Definition wrap32 (n : Z) : Z := (n + 2 ^ 31) mod 2 ^ 32 - 2 ^ 31.

(** ** The Metal standard library functions the kernels call *)

Class MetalMath := {
  exp : float -> float;
  log : float -> float;
  pow : float -> float -> float;
  sin : float -> float;
  tan : float -> float;
  sinpi : float -> float;
  fract : float -> float
}.

(** ** Constants of the kernel template *)

Definition EULER_MASCHERONI : float := dec 577215664901532860606512090 27.
Definition HALF_LOG_TWO_PI : float := dec 91893853320467274178032973640562 32.
Definition LOG_PI : float := dec 114472988584940017414342735135305 32.
Definition PI : float := dec 314159265358979323846264338327 29.
Definition PI_SQUARED : float := dec 986960440108935861883449099987615 32.
Definition MACHEP : float := dec 111022302462515654042 36.
Definition PSI_10 : float := dec 225175258906672110764 20.

Definition DIGAMMA_COEF : list float :=
  [ dec 833333333333333333333 22;
    dec (-210927960927960927961) 22;
    dec 757575757575757575758 23;
    dec (-416666666666666666667) 23;
    dec 396825396825396825397 23;
    dec (-833333333333333333333) 23;
    dec 833333333333333333333 22 ].

Definition ZETA_EXPANSION : list float :=
  [ of_Z 12;
    of_Z (-720);
    of_Z 30240;
    of_Z (-1209600);
    of_Z 47900160;
    dec (-18924375803183791606) 10;
    of_Z 74724249600;
    dec (-2950130727918164224) 6;
    dec 11646782814350067249 5;
    dec (-45979787224074726105) 4;
    dec 18152105401943546773 2;
    dec (-71661652561756670113) 1 ].

Definition GAMMA_NUMERATOR_COEF : list float :=
  [ dec (-171618513886549492533811) 23;
    dec 247656508055759199108314 22;
    dec (-379804256470945635097577) 21;
    dec 629331155312818442661052 21;
    dec 866966202790413211295064 21;
    dec (-314512729688483675254357) 19;
    dec (-361444134186911729807069) 19;
    dec 664561438202405440627855 19 ].

Definition GAMMA_DENOMINATOR_COEF : list float :=
  [ dec (-308402300119738975254353) 22;
    dec 315350626979604161529144 21;
    dec (-101515636749021914166146) 20;
    dec (-310777167157231109440444) 20;
    dec 225381184209801510330112 19;
    dec 475584627752788110767815 20;
    dec (-134659959864969306392456) 18;
    dec (-115132259675553483497211) 18 ].

Definition LGAMMA_EXPANSION_COEF : list float :=
  [ (of_Z 1 / of_Z 12)%f32;
    (- of_Z 1 / of_Z 360)%f32;
    (of_Z 1 / of_Z 1260)%f32;
    (- of_Z 1 / of_Z 1680)%f32;
    (of_Z 1 / of_Z 1188)%f32;
    (- of_Z 691 / of_Z 360360)%f32;
    (of_Z 1 / of_Z 156)%f32;
    (- of_Z 3617 / of_Z 122400)%f32 ].

(** Array subscript on a constant table. *)
Definition at_index (t : list float) (i : nat) : float := nth i t NAN.

(** ** The device functions *)

Section Kernels.
Context {M : MetalMath}.
Local Open Scope f32_scope.

(** The rational approximation of [Gamma] on (1,2): the loop
    [for (i = 0; i < 8; i++)] over the two coefficient tables, on the pair
    [(num, den)]. *)
Fixpoint gamma_poly_loop (z : float) (i : nat) (steps : nat) (nd : float * float)
  : float * float :=
  match steps with
  | O => nd
  | S steps' =>
      let '(num, den) := nd in
      let num := (num + at_index GAMMA_NUMERATOR_COEF i) * z in
      let den := den * z + at_index GAMMA_DENOMINATOR_COEF i in
      gamma_poly_loop z (S i) steps' (num, den)
  end.

(** [for (i = 0; i < n; i++) result *= y++;] on the pair [(result, y)]. *)
Fixpoint gamma_shift_loop (steps : nat) (ry : float * float) : float * float :=
  match steps with
  | O => ry
  | S steps' =>
      let '(result, y) := ry in
      gamma_shift_loop steps' (result * y, y + of_Z 1)
  end.

(** The branch [x < 12.0] of [Gamma]. *)
Definition Gamma_reduce (x : float) : float :=
  let y := x in
  let less_than_one := y <? of_Z 1 in
  let n := if less_than_one then 0%Z else wrap32 (to_int (floor y) - 1) in
  let y := if less_than_one then y + of_Z 1 else y - of_Z n in
  let z := y - of_Z 1 in
  let '(num, den) := gamma_poly_loop z 0 8 (pzero, of_Z 1) in
  let result := num / den + of_Z 1 in
  if less_than_one then result / (y - of_Z 1)
  else fst (gamma_shift_loop (Z.to_nat n) (result, y)).

(** [LogGamma], branch [x >= 12]: the Stirling series, by the loop
    [for (int i = 6; i >= 0; i--)]. *)
Fixpoint lgamma_series_loop (z : float) (steps : nat) (sum : float) : float :=
  match steps with
  | O => sum
  | S i => lgamma_series_loop z i (sum * z + at_index LGAMMA_EXPANSION_COEF i)
  end.

(** [Gamma] and [LogGamma] call each other.  [depth] bounds the nesting of
    calls; [None] means the bound was reached. *)
Fixpoint Gamma_rec (depth : nat) (x : float) : option float :=
  match depth with
  | O => None
  | S d =>
      if x <? dec 1 3 then
        Some (of_Z 1 / (x * (of_Z 1 + EULER_MASCHERONI * x)))
      else if x <? of_Z 12 then
        Some (Gamma_reduce x)
      else
        match LogGamma_rec d x with
        | Some l => Some (exp l)
        | None => None
        end
  end
with LogGamma_rec (depth : nat) (x : float) : option float :=
  match depth with
  | O => None
  | S d =>
      let is_negative := x <? of_Z 0 in
      let x := if is_negative then - x else x in
      if x =? of_Z 0 then Some INFINITY
      else
        let logGamma :=
          if x <? of_Z 12 then
            match Gamma_rec d x with
            | Some g => Some (log (fabs g))
            | None => None
            end
          else
            let z := of_Z 1 / (x * x) in
            let sum := lgamma_series_loop z 7 (at_index LGAMMA_EXPANSION_COEF 7) in
            let series := sum / x in
            Some ((x - dec 5 1) * log x - x + HALF_LOG_TWO_PI + series)
        in
        match logGamma with
        | Some lg =>
            if is_negative then Some (LOG_PI - lg - log (fabs (x * sinpi x)))
            else Some lg
        | None => None
        end
  end.

(** Two nested calls are all the source can make (see [Gamma_rec_total] and
    [LogGamma_rec_total]); the [NAN] default is never taken. *)
Definition Gamma (x : float) : float :=
  match Gamma_rec 2 x with Some v => v | None => NAN end.

Definition LogGamma (x : float) : float :=
  match LogGamma_rec 2 x with Some v => v | None => NAN end.

(** The loop [while (x < 10) { result -= 1 / x; x += 1; }] on the pair
    [(result, x)].  [fuel] bounds the number of iterations; [None] means the
    loop was still running after [fuel] of them. *)
Fixpoint digamma_shift_loop (fuel : nat) (result x : float) : option (float * float) :=
  match fuel with
  | O => if x <? of_Z 10 then None else Some (result, x)
  | S fuel' =>
      if x <? of_Z 10 then digamma_shift_loop fuel' (result - of_Z 1 / x) (x + of_Z 1)
      else Some (result, x)
  end.

(** [for (int i = 0; i <= 6; i++) y += pow(z, i) * DIGAMMA_COEF[i];] *)
Fixpoint digamma_series_loop (z : float) (i : nat) (steps : nat) (y : float) : float :=
  match steps with
  | O => y
  | S steps' =>
      digamma_series_loop z (S i) steps'
        (y + pow z (of_Z (Z.of_nat i)) * at_index DIGAMMA_COEF i)
  end.

Definition calc_digamma_positive_domain (fuel : nat) (x : float) : option float :=
  match digamma_shift_loop fuel pzero x with
  | None => None
  | Some (result, x) =>
      if x =? of_Z 10 then Some (result + PSI_10)
      else
        let y := pzero in
        let y :=
          if x <? of_Z (10 ^ 17) then
            let z := of_Z 1 / (x * x) in
            digamma_series_loop z 0 7 y * z
          else y in
        Some (result + log x - (dec 5 1 / x) - y)
  end.

(** How the direct summation of [calc_zeta] ends: by the [return s] inside
    the loop, or by leaving the loop with the variables [s], [a], [b]. *)
Variant zeta_sum_end :=
  | ZetaReturned (s : float)
  | ZetaLeft (s a b : float).

(** [while ((i < 9) || (a <= 9.0)) { ... }]; [i] is a 32-bit [int]. *)
Fixpoint zeta_sum_loop (fuel : nat) (x : float) (i : Z) (a b s : float)
  : option zeta_sum_end :=
  if (i <? 9)%Z || (a <=? of_Z 9) then
    match fuel with
    | O => None
    | S fuel' =>
        let i := wrap32 (i + 1) in
        let a := a + of_Z 1 in
        let b := pow a (- x) in
        let s := s + b in
        if (- MACHEP * s <? b) && (b <? MACHEP * s) then Some (ZetaReturned s)
        else zeta_sum_loop fuel' x i a b s
    end
  else Some (ZetaLeft s a b).

(** The Euler-Maclaurin correction, [for (int i = 0; i < 12; i++)], with its
    early [return s]. *)
Fixpoint zeta_tail_loop (x w : float) (i : nat) (steps : nat) (a b s k : float) : float :=
  match steps with
  | O => s
  | S steps' =>
      let a := a * (x + k) in
      let b := b / w in
      let t := a * b / at_index ZETA_EXPANSION i in
      let s := s + t in
      let t := fabs (t / s) in
      if t <? MACHEP then s
      else
        let k := k + of_Z 1 in
        let a := a * (x + k) in
        let b := b / w in
        let k := k + of_Z 1 in
        zeta_tail_loop x w (S i) steps' a b s k
  end.

(** [calc_zeta] after its guards: the direct summation and the tail. *)
Definition zeta_series (fuel : nat) (x q : float) : option float :=
  let s := pow q (- x) in
  let a := q in
  match zeta_sum_loop fuel x 0 a pzero s with
  | None => None
  | Some (ZetaReturned s) => Some s
  | Some (ZetaLeft s a b) =>
      let w := a in
      let s := s + b * w / (x - of_Z 1) in
      let s := s - dec 5 1 * b in
      Some (zeta_tail_loop x w 0 12 (of_Z 1) b s pzero)
  end.

Definition calc_zeta (fuel : nat) (x q : float) : option float :=
  if x =? of_Z 1 then Some INFINITY
  else if x <? of_Z 1 then Some NAN
  else if q <=? of_Z 0 then
    if q =? trunc q then Some INFINITY
    else if x !=? trunc x then Some NAN
    else zeta_series fuel x q
  else zeta_series fuel x q.

(** [for (int i = 0; i < 6; ++i) { result += 1 / (x * x); x += 1; }] *)
Fixpoint trigamma_shift_loop (steps : nat) (result x : float) : float * float :=
  match steps with
  | O => (result, x)
  | S steps' => trigamma_shift_loop steps' (result + of_Z 1 / (x * x)) (x + of_Z 1)
  end.

(** The last update of [calc_trigamma].  The operands [1 / 6], [1 / 3] and
    [1 / 42] are quotients of [int] literals: an integer division, whose
    result is then converted to [float]. *)
Definition trigamma_tail (x : float) : float :=
  let ixx := of_Z 1 / (x * x) in
  (of_Z 1 + of_Z 1 / (of_Z 2 * x)
   + ixx * (of_Z (Z.quot 1 6) - ixx * (of_Z (Z.quot 1 3) - ixx * of_Z (Z.quot 1 42)))) / x.

Definition calc_trigamma (x : float) : float :=
  let sign := of_Z 1 in
  let result := pzero in
  let reflect := x <? dec 5 1 in
  let sign := if reflect then of_Z (-1) else sign in
  let result :=
    if reflect then
      let sin_pi_x := sin (PI * x) in
      result - PI_SQUARED / (sin_pi_x * sin_pi_x)
    else result in
  let x := if reflect then of_Z 1 - x else x in
  let '(result, x) := trigamma_shift_loop 6 result x in
  let result := result + trigamma_tail x in
  sign * result.

(** *** The kernels: one element [x = input[id]] to [output[id]] *)

Definition trigamma (x : float) : float := calc_trigamma x.

(** [order] is the [int64_t] bound at buffer 2; [order % 2] is C's
    remainder, whose sign follows the dividend. *)
Definition polygamma_sgn (order : Z) : float :=
  if negb (Z.rem order 2 =? 0)%Z then of_Z 1 else of_Z (-1).

Definition polygamma (fuel : nat) (order : Z) (x : float) : option float :=
  let n := of_Z order in
  let sgn := polygamma_sgn order in
  match calc_zeta fuel (n + of_Z 1) x with
  | Some zeta => Some (sgn * Gamma (n + of_Z 1) * zeta)
  | None => None
  end.

Definition digamma (fuel : nat) (x : float) : option float :=
  if x <? of_Z 0 then
    if x =? trunc x then Some NAN
    else
      let r := fract x in
      match calc_digamma_positive_domain fuel (of_Z 1 - x) with
      | Some d => Some (d - PI / tan (PI * r))
      | None => None
      end
  else if x =? of_Z 0 then Some (copysign INFINITY (- x))
  else calc_digamma_positive_domain fuel x.

Definition lgamma (x : float) : float := LogGamma x.

End Kernels.

(** ** The host side *)

(** The scalar kinds of [c10::ScalarType] a tensor of these operators can
    carry. *)
Variant ScalarType :=
  | Byte | Char | Short | Int | Long | Half | Float | Double | Bool | BFloat16.

Definition ScalarType_eqb (a b : ScalarType) : bool :=
  match a, b with
  | Byte, Byte | Char, Char | Short, Short | Int, Int | Long, Long
  | Half, Half | Float, Float | Double, Double | Bool, Bool
  | BFloat16, BFloat16 => true
  | _, _ => false
  end.

(** Objects the Metal device hands out.  Every object has the handle it was
    created under, so two objects are the same object exactly when they are
    equal. *)
Record MTLLibrary := {
  lib_handle : nat;
  lib_t1 : string;
  lib_t2 : string
}.

Record MTLFunction := {
  fn_handle : nat;
  fn_library : MTLLibrary;
  fn_name : string
}.

Record MTLComputePipelineState := {
  cpl_handle : nat;
  cpl_function : MTLFunction
}.

(** A tensor: its storage, the offset of its first element, and for each
    logical element the position it occupies in the storage (relative to the
    offset). *)
Record Tensor := {
  storage : nat;
  storage_offset : nat;
  positions : list nat;
  scalar_type : ScalarType
}.

Definition numel (t : Tensor) : nat := length (positions t).

Definition is_contiguous (t : Tensor) : bool :=
  bool_decide (positions t = seq 0 (numel t)).

(** One call of [dispatch1DJob], as the command encoder received it. *)
Record Dispatch := {
  job_pipeline : MTLComputePipelineState;
  job_input : nat * nat;
  job_output : nat * nat;
  job_order : option Z;
  job_length : nat
}.

(** The process state the host functions act on: the two function-local
    static maps, the device memory, and three records of what the device was
    asked to do (objects created, compiler runs, dispatches). *)
Record HostState := {
  libMap : gmap string MTLLibrary;
  cplMap : gmap string MTLComputePipelineState;
  memory : gmap nat (list float);
  next_handle : nat;
  compiler_runs : list (string * string);
  dispatched : list Dispatch
}.

Definition initial_state (mem : gmap nat (list float)) : HostState :=
  {| libMap := ∅; cplMap := ∅; memory := mem; next_handle := 0;
     compiler_runs := []; dispatched := [] |}.

(** What a host call does to a state: it returns, it throws a [c10::Error]
    carrying a message, or (a kernel that never finishes) it does not come
    back. *)
Variant outcome (A : Type) :=
  | Returned (a : A) (st : HostState)
  | Raised (msg : string) (st : HostState)
  | Stuck.
Arguments Returned {A} a st.
Arguments Raised {A} msg st.
Arguments Stuck {A}.

Definition host (A : Type) : Type := HostState -> outcome A.

Definition ret {A} (a : A) : host A := fun st => Returned a st.

Definition bind {A B} (c : host A) (k : A -> host B) : host B :=
  fun st =>
    match c st with
    | Returned a st' => k a st'
    | Raised msg st' => Raised msg st'
    | Stuck => Stuck
    end.

Definition raise {A} (msg : string) : host A := fun st => Raised msg st.
Definition get_state : host HostState := fun st => Returned st st.
Definition put_state (st : HostState) : host unit := fun _ => Returned tt st.

#[global] Instance host_ret : MRet host := @ret.
#[global] Instance host_bind : MBind host := fun A B k c => bind c k.

Definition TORCH_CHECK (cond : bool) (msg : string) : host unit :=
  if cond then ret tt else raise msg.

(** The Metal device: whether its compiler accepts the template rendered
    for two type names, and whether it builds a pipeline for a function;
    [Some d] is the [localizedDescription] of the error. *)
Class MTLDevice := {
  compile_error : string -> string -> option string;
  pipeline_error : MTLFunction -> option string
}.

(** The [kernel] functions the template defines. *)
Definition GAMMA_OPS_TEMPLATE_kernels : list string :=
  ["trigamma"; "polygamma"; "digamma"; "lgamma"]%string.

Section Host.
Context {M : MetalMath} {D : MTLDevice}.

(** [scalarToMetalTypeString] belongs to OperationUtils, outside this
    slice: it names the Metal type of a scalar kind, or throws. *)
Variable scalarToMetalTypeString : ScalarType -> string + string.

Definition fresh_handle : host nat :=
  fun st =>
    Returned (next_handle st)
      {| libMap := libMap st; cplMap := cplMap st; memory := memory st;
         next_handle := S (next_handle st);
         compiler_runs := compiler_runs st; dispatched := dispatched st |}.

(** [[device newLibraryWithSource:options:error:]] on the template rendered
    with [t1] and [t2]: [inl] the description of the error, or [inr] the new
    library. *)
Definition newLibraryWithSource (t1 t2 : string) : host (string + MTLLibrary) :=
  fun st =>
    let st :=
      {| libMap := libMap st; cplMap := cplMap st; memory := memory st;
         next_handle := next_handle st;
         compiler_runs := (t1, t2) :: compiler_runs st;
         dispatched := dispatched st |} in
    match compile_error t1 t2 with
    | Some d => Returned (inl d) st
    | None =>
        (h ← fresh_handle;
         ret (inr {| lib_handle := h; lib_t1 := t1; lib_t2 := t2 |})) st
    end.

Definition compileGammaOpsLibrary (t1 t2 : string) : host MTLLibrary :=
  let key := String.append t1 t2 in
  st ← get_state;
  match libMap st !! key with
  | Some lib => ret lib
  | None =>
      rc ← newLibraryWithSource t1 t2;
      match rc with
      | inl d => raise (String.append "Failed to compile library: " d)
      | inr rc =>
          st ← get_state;
          put_state
            {| libMap := <[key := rc]> (libMap st); cplMap := cplMap st;
               memory := memory st; next_handle := next_handle st;
               compiler_runs := compiler_runs st; dispatched := dispatched st |};;
          ret rc
      end
  end.

(** [[library newFunctionWithName:]]: [None] is [nil]. *)
Definition newFunctionWithName (library : MTLLibrary) (fname : string)
  : host (option MTLFunction) :=
  if bool_decide (fname ∈ GAMMA_OPS_TEMPLATE_kernels) then
    h ← fresh_handle;
    ret (Some {| fn_handle := h; fn_library := library; fn_name := fname |})
  else ret None.

Definition newComputePipelineStateWithFunction (func : MTLFunction)
  : host (string + MTLComputePipelineState) :=
  match pipeline_error func with
  | Some d => ret (inl d)
  | None =>
      h ← fresh_handle;
      ret (inr {| cpl_handle := h; cpl_function := func |})
  end.

Definition getCPLState (t1 t2 fname : string) : host MTLComputePipelineState :=
  let key := String.append (String.append t1 t2) fname in
  st ← get_state;
  match cplMap st !! key with
  | Some cpl => ret cpl
  | None =>
      library ← compileGammaOpsLibrary t1 t2;
      func ← newFunctionWithName library fname;
      match func with
      | None => raise (String.append "Can't get function " fname)
      | Some func =>
          rc ← newComputePipelineStateWithFunction func;
          match rc with
          | inl d => raise (String.append "Failed to construct pipeline state: " d)
          | inr rc =>
              st ← get_state;
              put_state
                {| libMap := libMap st; cplMap := <[key := rc]> (cplMap st);
                   memory := memory st; next_handle := next_handle st;
                   compiler_runs := compiler_runs st; dispatched := dispatched st |};;
              ret rc
          end
      end
  end.

(** *** Tensors in device memory *)

Definition set_memory (mem : gmap nat (list float)) : host unit :=
  fun st =>
    Returned tt
      {| libMap := libMap st; cplMap := cplMap st; memory := mem;
         next_handle := next_handle st; compiler_runs := compiler_runs st;
         dispatched := dispatched st |}.

Definition buffer_of (st : HostState) (t : Tensor) : list float :=
  default [] (memory st !! storage t).

(** The elements of a tensor in logical order. *)
Definition elements (st : HostState) (t : Tensor) : list float :=
  (fun p => default NAN (buffer_of st t !! (storage_offset t + p)%nat)) <$> positions t.

(** [t.contiguous()]: [t] itself when it is contiguous, else a new tensor
    over a new storage holding the elements in logical order. *)
Definition contiguous (t : Tensor) : host Tensor :=
  if is_contiguous t then ret t
  else
    st ← get_state;
    let s := fresh (dom (memory st)) in
    set_memory (<[s := elements st t]> (memory st));;
    ret {| storage := s; storage_offset := 0; positions := seq 0 (numel t);
           scalar_type := scalar_type t |}.

(** [dst.copy_(src)]: every logical element of [src] is written to its
    position in [dst]. *)
Definition copy_ (dst src : Tensor) : host unit :=
  st ← get_state;
  let buf :=
    foldl (fun b pv => <[(storage_offset dst + pv.1)%nat := pv.2]> b)
          (buffer_of st dst) (zip (positions dst) (elements st src)) in
  set_memory (<[storage dst := buf]> (memory st)).

(** The device function a pipeline runs on one element; [order] is the
    value bound at buffer 2, if any. *)
Definition kernel_of (fuel : nat) (cpl : MTLComputePipelineState) (order : option Z)
  : option (float -> option float) :=
  let name := fn_name (cpl_function cpl) in
  if bool_decide (name = "lgamma"%string) then Some (fun x => Some (lgamma x))
  else if bool_decide (name = "digamma"%string) then Some (digamma fuel)
  else if bool_decide (name = "trigamma"%string) then Some (fun x => Some (trigamma x))
  else if bool_decide (name = "polygamma"%string) then
    match order with
    | Some order => Some (polygamma fuel order)
    | None => None
    end
  else None.

(** The threads [id = 0 .. length - 1] of one dispatch: thread [id] reads
    [input[id]] and writes [output[id]].  A thread whose index falls outside
    a buffer writes nothing; a thread that never finishes gives [None]. *)
Fixpoint run_threads (f : float -> option float) (ids : list nat)
    (input : list float) (in_off out_off : nat) (output : list float)
  : option (list float) :=
  match ids with
  | [] => Some output
  | id :: ids' =>
      match input !! (in_off + id)%nat with
      | None => run_threads f ids' input in_off out_off output
      | Some x =>
          match f x with
          | None => None
          | Some y => run_threads f ids' input in_off out_off (<[(out_off + id)%nat := y]> output)
          end
      end
  end.

(** Modelled from the spec: [dispatch1DJob] is only declared in Gamma.mm; it
    submits one unit of work per output element.  Here it also stands for the
    encoder calls around it ([setComputePipelineState], the [setBuffer] and
    [setBytes] bindings): the kernel of [cplState] runs on [length] threads
    over the storages of [self] and [output]. *)
Definition dispatch1DJob (fuel : nat) (cplState : MTLComputePipelineState)
    (self output : Tensor) (order : option Z) (length : nat) : host unit :=
  fun st =>
    let st' :=
      {| libMap := libMap st; cplMap := cplMap st; memory := memory st;
         next_handle := next_handle st; compiler_runs := compiler_runs st;
         dispatched :=
           {| job_pipeline := cplState;
              job_input := (storage self, storage_offset self);
              job_output := (storage output, storage_offset output);
              job_order := order; job_length := length |} :: dispatched st |} in
    match kernel_of fuel cplState order with
    | None => Returned tt st'
    | Some f =>
        match run_threads f (seq 0 length) (buffer_of st self)
                (storage_offset self) (storage_offset output) (buffer_of st output) with
        | None => Stuck
        | Some out => set_memory (<[storage output := out]> (memory st')) st'
        end
    end.

(** [uint32_t length = output.numel();] *)
Definition numel32 (t : Tensor) : nat :=
  Z.to_nat (Z.of_nat (numel t) mod 2 ^ 32).

Definition metal_type (t : ScalarType) : host string :=
  match scalarToMetalTypeString t with
  | inl msg => raise msg
  | inr name => ret name
  end.

(** *** The three operators *)

Definition lgamma_out_mps (fuel : nat) (self output_ : Tensor) : host unit :=
  TORCH_CHECK (negb (ScalarType_eqb (scalar_type self) Double))
    "MPS does not support lgamma_out op with scalar type: Double";;
  let output := output_ in
  let length := numel32 output in
  if (length =? 0)%nat then ret tt
  else
    '(output, needs_output_copy) ←
      (if negb (is_contiguous self)
       then output ← contiguous output; ret (output, true)
       else ret (output, false));
    input_type ← metal_type (scalar_type self);
    output_type ← metal_type (scalar_type output);
    cplState ← getCPLState input_type output_type "lgamma";
    dispatch1DJob fuel cplState self output None length;;
    if needs_output_copy : bool then copy_ output_ output else ret tt.

Definition digamma_out_mps (fuel : nat) (self output_ : Tensor) : host unit :=
  TORCH_CHECK (negb (ScalarType_eqb (scalar_type self) Double))
    "MPS does not support digamma_out op with scalar type: Double";;
  let output := output_ in
  let length := numel32 output in
  if (length =? 0)%nat then ret tt
  else
    '(output, needs_output_copy) ←
      (if negb (is_contiguous self)
       then output ← contiguous output; ret (output, true)
       else ret (output, false));
    input_type ← metal_type (scalar_type self);
    output_type ← metal_type (scalar_type output);
    cplState ← getCPLState input_type output_type "digamma";
    dispatch1DJob fuel cplState self output None length;;
    if needs_output_copy : bool then copy_ output_ output else ret tt.

Definition polygamma_out_mps (fuel : nat) (order : Z) (self output_ : Tensor)
  : host unit :=
  TORCH_CHECK (negb (ScalarType_eqb (scalar_type self) Double))
    "MPS does not support polygamma_out op with scalar type: Double";;
  TORCH_CHECK (0 <=? order)%Z
    "Polygamma is implemented only for nonnegative real numbers";;
  let output := output_ in
  let length := numel32 output in
  if (length =? 0)%nat then ret tt
  else
    '(output, needs_output_copy) ←
      (if negb (is_contiguous self)
       then output ← contiguous output; ret (output, true)
       else ret (output, false));
    input_type ← metal_type (scalar_type self);
    output_type ← metal_type (scalar_type output);
    let func_name :=
      if (order =? 0)%Z then "digamma"%string
      else if (order =? 1)%Z then "trigamma"%string
      else "polygamma"%string in
    cplState ← getCPLState input_type output_type func_name;
    dispatch1DJob fuel cplState self output
      (if bool_decide (func_name = "polygamma"%string) then Some order else None)
      length;;
    if needs_output_copy : bool then copy_ output_ output else ret tt.

(** *** The calls a process can make into this file *)

Variant host_call :=
  | CallGetCPLState (t1 t2 fname : string)
  | CallLgamma (self output_ : Tensor)
  | CallDigamma (self output_ : Tensor)
  | CallPolygamma (order : Z) (self output_ : Tensor).

(** The state a call leaves behind when it comes back, by a return or by an
    exception. *)
Definition after {A} (o : outcome A) : option HostState :=
  match o with
  | Returned _ st | Raised _ st => Some st
  | Stuck => None
  end.

Definition run_call (fuel : nat) (c : host_call) (st : HostState) : option HostState :=
  match c with
  | CallGetCPLState t1 t2 fname => after (getCPLState t1 t2 fname st)
  | CallLgamma self output_ => after (lgamma_out_mps fuel self output_ st)
  | CallDigamma self output_ => after (digamma_out_mps fuel self output_ st)
  | CallPolygamma order self output_ => after (polygamma_out_mps fuel order self output_ st)
  end.

Definition host_step (st st' : HostState) : Prop :=
  exists fuel c, run_call fuel c st = Some st'.

(** How often the device compiler was run on the template rendered for
    [t1] and [t2]. *)
Definition runs_of (t1 t2 : string) (st : HostState) : nat :=
  length (filter (fun r => r = (t1, t2)) (compiler_runs st)).

(** *** What the caches keep *)

(** A type pair whose source the compiler accepts has been through the
    compiler at most once, and then its library is in [libMap]. *)
Definition compiled_once (st : HostState) : Prop :=
  forall t1 t2, compile_error t1 t2 = None ->
    runs_of t1 t2 st = 0%nat \/
    (runs_of t1 t2 st = 1%nat /\ is_Some (libMap st !! String.append t1 t2)).

(** What every call maintains: cache entries stay as they are, and
    [compiled_once] is kept. *)
Definition cache_order (st st' : HostState) : Prop :=
  libMap st ⊆ libMap st' /\ cplMap st ⊆ cplMap st' /\
  (compiled_once st -> compiled_once st').

Definition keeps_caches {A} (c : host A) : Prop :=
  forall st,
    match c st with
    | Returned _ st' | Raised _ st' => cache_order st st'
    | Stuck => True
    end.

(** The steps between a miss in [cplMap] and the insertion leave [cplMap]
    alone. *)
Definition keeps_cplMap {A} (c : host A) : Prop :=
  forall st,
    match c st with
    | Returned _ st' | Raised _ st' => cplMap st' = cplMap st
    | Stuck => True
    end.

End Host.

(** ** Instances used to run the model on concrete inputs *)

(** The interface instance under which every transcendental call yields NaN.
    Results that do not go through such a call are the same under every
    instance (see [Gamma_below_12_any_math]). *)
Definition no_math : MetalMath :=
  {| exp := fun _ => NAN; log := fun _ => NAN; pow := fun _ _ => NAN;
     sin := fun _ => NAN; tan := fun _ => NAN; sinpi := fun _ => NAN;
     fract := fun _ => NAN |}.

(** A device whose compiler and pipeline construction always succeed. *)
Definition accepting_device : MTLDevice :=
  {| compile_error := fun _ _ => None; pipeline_error := fun _ => None |}.

(** A device whose compiler rejects every source. *)
Definition rejecting_device : MTLDevice :=
  {| compile_error := fun _ _ => Some "program_source:1:1: error"%string;
     pipeline_error := fun _ => None |}.

Definition metal_type_names (t : ScalarType) : string + string :=
  match t with
  | Float => inr "float"
  | Half => inr "half"
  | Int => inr "int"
  | Long => inr "long"
  | Short => inr "short"
  | Char => inr "char"
  | Byte => inr "uchar"
  | Bool => inr "bool"
  | _ => inl "Undefined type"
  end%string.


(** Tensors and buffers of a small process. *)
Definition double_input : Tensor :=
  {| storage := 0; storage_offset := 0; positions := [0; 1]%nat; scalar_type := Double |}.
Definition float_input : Tensor :=
  {| storage := 0; storage_offset := 0; positions := [0; 1]%nat; scalar_type := Float |}.
Definition float_output : Tensor :=
  {| storage := 1; storage_offset := 0; positions := [0; 1]%nat; scalar_type := Float |}.
Definition two_buffers : gmap nat (list float) :=
  <[0%nat := [of_Z 1; of_Z 2]]> (<[1%nat := [pzero; pzero]]> ∅).

Definition empty_output : Tensor :=
  {| storage := 1; storage_offset := 0; positions := []; scalar_type := Float |}.

(** ** Vocabulary for the properties of the host side *)

(** A state property that a host computation keeps, whether it returns or
    throws. *)
Definition preserves {A} (P : HostState -> Prop) (c : host A) : Prop :=
  forall st, P st ->
    match c st with
    | Returned _ st' | Raised _ st' => P st'
    | Stuck => True
    end.

(** Every cached library sits under the concatenation of the type names it
    was compiled for; every cached pipeline sits under that concatenation
    followed by the name of its function, which is a kernel of the template
    and comes from the library cached for those names. *)
Definition caches_consistent (st : HostState) : Prop :=
  (forall k lib, libMap st !! k = Some lib ->
     k = String.append (lib_t1 lib) (lib_t2 lib)) /\
  (forall k cpl, cplMap st !! k = Some cpl ->
     let func := cpl_function cpl in
     let lib := fn_library func in
     k = String.append (String.append (lib_t1 lib) (lib_t2 lib)) (fn_name func) /\
     fn_name func ∈ GAMMA_OPS_TEMPLATE_kernels /\
     libMap st !! String.append (lib_t1 lib) (lib_t2 lib) = Some lib).

(** Between [st] and [st'] one job was dispatched: the kernel [fname] with
    [order] bound at buffer 2 (or nothing bound there), on as many threads as
    [output_] has elements, reading the storage of [self] as it is. *)
Definition dispatched_job (st st' : HostState) (fname : string) (order : option Z)
    (self output_ : Tensor) : Prop :=
  exists job,
    dispatched st' = job :: dispatched st /\
    fn_name (cpl_function (job_pipeline job)) = fname /\
    job_order job = order /\
    job_length job = numel32 output_ /\
    job_input job = (storage self, storage_offset self) /\
    (is_contiguous self = true ->
     job_output job = (storage output_, storage_offset output_)).

(** Between [st] and [st'] no job was dispatched and every storage that
    existed kept its contents. *)
Definition nothing_executed (st st' : HostState) : Prop :=
  dispatched st' = dispatched st /\ memory st ⊆ memory st'.

(** Between [st] and [st'] no library, function or pipeline was created,
    nothing was compiled and nothing was added to a cache. *)
Definition creates_nothing (st st' : HostState) : Prop :=
  libMap st' = libMap st /\ cplMap st' = cplMap st /\
  compiler_runs st' = compiler_runs st /\ next_handle st' = next_handle st.

(** A call that cannot throw and creates nothing. *)
Definition reuses_caches (c : host unit) (st : HostState) : Prop :=
  match c st with
  | Returned _ st' => creates_nothing st st'
  | Raised _ _ => False
  | Stuck => True
  end.

(** ** Vocabulary for the properties of binary32 arithmetic *)

(** A [shr_record] lost a non-zero bit. *)
Definition inexact (mrs : shr_record) : bool := shr_r mrs || shr_s mrs.

(** The number [binary_round_aux] builds from its last mantissa and
    exponent. *)
Definition mk_float (s : bool) (m e : Z) : float :=
  match m with
  | Z0 => S754_zero s
  | Zpos p => if e <=? emax - prec then S754_finite s p e else S754_infinity s
  | Zneg _ => S754_nan
  end.

(** The value of a number in units of [2^-149], the least positive
    binary32 number.  The infinities get the magnitude [2^300], above every
    finite value. *)
Definition xval (x : float) : Z :=
  match x with
  | S754_zero _ | S754_nan => 0
  | S754_infinity s => cond_Zopp s (2 ^ 300)
  | S754_finite s m e => cond_Zopp s (Zpos m * 2 ^ (e + 149))
  end.

(** Well-formed representations: the mantissa of a finite number is
    canonical and its exponent in range.  Every binary32 datum is one. *)
Definition valid (x : float) : bool := valid_binary prec emax x.

Definition not_nan (x : float) : bool :=
  match x with S754_nan => false | _ => true end.

(** [c] is a valid number that is finite (zero included). *)
Definition finite_valid (c : float) : Prop := valid c = true /\ is_finite c = true.

(** [r] is the value [N] (in units of [2^-149]) rounded by an operation:
    a valid non-NaN number that no representable number separates from
    [N]. *)
Definition rounds (N : Z) (r : float) : Prop :=
  valid r = true /\ not_nan r = true /\
  forall c, finite_valid c ->
    (xval c <= N -> xval c <= xval r) /\ (N <= xval c -> xval r <= xval c).

(** Not a NaN, and the sign bit is clear. *)
Definition sign_clear (r : float) : Prop :=
  r = S754_zero false \/ r = S754_infinity false \/ exists m e, r = S754_finite false m e.

(** What the running term [a] of [calc_zeta] satisfies after [k] iterations
    started at least at [- B]: it is a NaN, or it is at least
    [min 10 (k - B)]. *)
Definition zeta_progress (B k : Z) (a : float) : Prop :=
  a = S754_nan \/ (valid a = true /\ SFleb (of_Z (Z.min 10 (k - B))) a = true).

(** What reaches the shift loop of [calc_trigamma]: a NaN, or a valid
    number that is at least [K]. *)
Definition trigamma_reaches (K : Z) (x : float) : Prop :=
  x = S754_nan \/ (valid x = true /\ SFleb (of_Z K) x = true).

(** A NaN, or a number that is not negative. *)
Definition never_negative (r : float) : Prop := r = S754_nan \/ sign_clear r.

(** The spacing of the binary32 numbers around a value [N] given in units
    of [2^-149]; it is never below the unit. *)
Definition ulp (N : Z) : Z := 2 ^ Z.max (Zdigits2 (Z.abs N) - 24) 0.





(** ** Vocabulary for the rational approximation of [Gamma] *)

(** [result] of [Gamma_reduce] before its correction, as a function of
    [z = y - 1]: the quotient of the two polynomials, plus 1. *)
Definition gamma_poly (z : float) : float :=
  let '(num, den) := gamma_poly_loop z 0 8 (pzero, of_Z 1) in (num / den + of_Z 1)%f32.








(** * Properties of binary32 arithmetic *)

(** ** Constants *)

Lemma of_Z_0 : of_Z 0 = pzero.
Proof. reflexivity. Qed.

Lemma of_Z_1 : of_Z 1 = S754_finite false 8388608 (-23).
Proof. reflexivity. Qed.

(** Only minus infinity and the negative finite numbers are below zero. *)
Lemma ltb_zero_negative (x : float) :
  (x <? of_Z 0)%f32 = true ->
  x = S754_infinity true \/ exists m e, x = S754_finite true m e.
Proof.
  rewrite of_Z_0.
  destruct x as [[]|[]| |[] m e]; cbn; try discriminate; eauto.
Qed.

Lemma ltb_zero_ltb_twelve (x : float) :
  (x <? of_Z 0)%f32 = true -> (x <? of_Z 12)%f32 = true.
Proof. intros [->|(m & e & ->)]%ltb_zero_negative; reflexivity. Qed.

(** Only the two zeros are equal to zero: the [copysign] of [digamma], which
    is under [x == 0], takes the sign of a zero. *)
Lemma eqb_zero_cases (x : float) :
  (x =? of_Z 0)%f32 = true -> x = pzero \/ x = nzero.
Proof.
  rewrite of_Z_0.
  destruct x as [[]|[]| |[] m e]; cbn; try discriminate; auto.
Qed.

Lemma half_value :
  dec 5 1 = S754_finite false 8388608 (-24).
Proof. reflexivity. Qed.

(** ** Number of binary digits *)

Lemma digits2_pos_bounds (p : positive) :
  2 ^ (Zpos (digits2_pos p) - 1) <= Zpos p < 2 ^ Zpos (digits2_pos p).
Proof.
  induction p as [p IH|p IH|]; cbn [digits2_pos].
  - rewrite Pos2Z.inj_succ, Z.pow_succ_r by lia.
    replace (Z.succ (Zpos (digits2_pos p)) - 1) with (Z.succ (Zpos (digits2_pos p) - 1)) by lia.
    rewrite Z.pow_succ_r by lia. lia.
  - rewrite Pos2Z.inj_succ, Z.pow_succ_r by lia.
    replace (Z.succ (Zpos (digits2_pos p)) - 1) with (Z.succ (Zpos (digits2_pos p) - 1)) by lia.
    rewrite Z.pow_succ_r by lia. lia.
  - cbn. lia.
Qed.

Lemma Zdigits2_bounds (m : Z) :
  0 < m -> 2 ^ (Zdigits2 m - 1) <= m < 2 ^ Zdigits2 m.
Proof. destruct m as [|p|p]; try lia. intros _. apply digits2_pos_bounds. Qed.

Lemma Zdigits2_pos (m : Z) : 0 < m -> 0 < Zdigits2 m.
Proof. destruct m; cbn; lia. Qed.

Lemma Zdigits2_unique (m k : Z) :
  2 ^ (k - 1) <= m < 2 ^ k -> 0 < m -> Zdigits2 m = k.
Proof.
  intros [Hlo Hhi] Hm.
  pose proof (Zdigits2_bounds m Hm) as [Dlo Dhi].
  pose proof (Zdigits2_pos m Hm) as Dpos.
  assert (0 < k).
  { destruct (Z_lt_le_dec 0 k) as [|Hk]; [assumption|].
    assert (2 ^ k <= 1); [|lia].
    destruct (Z.eq_dec k 0) as [->|]; [cbn; lia|].
    rewrite Z.pow_neg_r by lia. lia. }
  assert (Zdigits2 m - 1 < k) by (apply (Z.pow_lt_mono_r_iff 2); lia).
  assert (k - 1 < Zdigits2 m) by (apply (Z.pow_lt_mono_r_iff 2); lia).
  lia.
Qed.

Lemma Zdigits2_le_pow (m k : Z) : 0 <= k -> 0 <= m < 2 ^ k -> Zdigits2 m <= k.
Proof.
  intros Hk [Hm Hlt]. destruct (Z.eq_dec m 0) as [->|]; [cbn; lia|].
  pose proof (Zdigits2_bounds m ltac:(lia)) as [Dlo _].
  assert (Zdigits2 m - 1 < k); [|lia].
  apply (Z.pow_lt_mono_r_iff 2); lia.
Qed.

Lemma Zdigits2_ge_pow (m k : Z) : 0 <= k -> 2 ^ k <= m -> k + 1 <= Zdigits2 m.
Proof.
  intros Hk Hle.
  assert (0 < m) by (pose proof (Z.pow_pos_nonneg 2 k); lia).
  pose proof (Zdigits2_bounds m ltac:(lia)) as [_ Dhi].
  pose proof (Zdigits2_pos m ltac:(lia)).
  assert (k < Zdigits2 m); [|lia].
  apply (Z.pow_lt_mono_r_iff 2); lia.
Qed.

(** ** Right shifts *)

Lemma iter_pos_invariant {A} (f : A -> A) (Inv : Z -> A -> Prop) :
  (forall k x, 0 <= k -> Inv k x -> Inv (k + 1) (f x)) ->
  forall n k x, 0 <= k -> Inv k x -> Inv (k + Zpos n) (SpecFloat.iter_pos f n x).
Proof.
  intros Hstep. induction n as [n IH|n IH|]; intros k x Hk Hx; cbn [SpecFloat.iter_pos].
  - replace (k + Zpos n~1) with (k + 1 + Zpos n + Zpos n) by lia.
    apply IH; [lia|]. apply IH; [lia|]. now apply Hstep.
  - replace (k + Zpos n~0) with (k + Zpos n + Zpos n) by lia.
    apply IH; [lia|]. now apply IH.
  - now apply Hstep.
Qed.

Lemma shr_1_spec (mrs : shr_record) :
  0 <= shr_m mrs ->
  shr_m (shr_1 mrs) = shr_m mrs / 2 /\
  inexact (shr_1 mrs) = inexact mrs || Z.odd (shr_m mrs).
Proof.
  destruct mrs as [m r s]. cbn [shr_m]. intros Hm.
  destruct m as [|[p|p|]|p]; try lia; cbn [shr_1 shr_m shr_r shr_s inexact].
  - split; [reflexivity|]. cbn. now rewrite !orb_false_r.
  - split; [|cbn; destruct r, s; reflexivity].
    rewrite Pos2Z.inj_xI. apply (Z.div_unique _ _ _ 1); lia.
  - split; [|cbn; destruct r, s; reflexivity].
    rewrite Pos2Z.inj_xO. apply (Z.div_unique _ _ _ 0); lia.
  - split; [reflexivity|]. cbn; destruct r, s; reflexivity.
Qed.

Lemma mod_pow2_succ (m k : Z) :
  0 <= k -> 0 <= m ->
  (m mod 2 ^ (k + 1) =? 0) = (m mod 2 ^ k =? 0) && Z.even (m / 2 ^ k).
Proof.
  intros Hk Hm.
  assert (Hp : 0 < 2 ^ k) by (apply Z.pow_pos_nonneg; lia).
  rewrite Z.pow_add_r, Z.pow_1_r by lia.
  rewrite Z.rem_mul_r by lia.
  pose proof (Z.mod_pos_bound m (2 ^ k) Hp).
  pose proof (Z.mod_pos_bound (m / 2 ^ k) 2 ltac:(lia)).
  rewrite (Zeven_mod (m / 2 ^ k)).
  destruct (Z.eqb_spec (m mod 2 ^ k) 0), (Z.eqb_spec ((m / 2 ^ k) mod 2) 0);
    cbn; apply Z.eqb_neq || apply Z.eqb_eq; nia.
Qed.

Lemma shr_iter_spec (m : Z) (n : positive) :
  0 <= m ->
  let mrs := SpecFloat.iter_pos shr_1 n {| shr_m := m; shr_r := false; shr_s := false |} in
  shr_m mrs = m / 2 ^ Zpos n /\
  inexact mrs = negb (m mod 2 ^ Zpos n =? 0).
Proof.
  intros Hm.
  pose (Inv := fun (k : Z) (x : shr_record) =>
                 shr_m x = m / 2 ^ k /\ inexact x = negb (m mod 2 ^ k =? 0)).
  assert (Hstep : forall k x, 0 <= k -> Inv k x -> Inv (k + 1) (shr_1 x)).
  { intros k x Hk [Hx Hi].
    assert (Hp : 0 < 2 ^ k) by (apply Z.pow_pos_nonneg; lia).
    assert (0 <= shr_m x) by (rewrite Hx; apply Z.div_pos; lia).
    destruct (shr_1_spec x ltac:(assumption)) as [H1 H2]. split.
    - rewrite H1, Hx, Z.div_div by lia.
      rewrite Z.pow_add_r, Z.pow_1_r by lia. reflexivity.
    - rewrite H2, Hi, Hx, mod_pow2_succ by lia.
      rewrite negb_andb, <- Z.negb_even. reflexivity. }
  pose proof (iter_pos_invariant shr_1 Inv Hstep n 0
                {| shr_m := m; shr_r := false; shr_s := false |} ltac:(lia)) as H.
  cbn [Z.add] in H. apply H. split; cbn.
  - now rewrite Z.div_1_r.
  - now rewrite Z.mod_1_r.
Qed.

Lemma fexp_spec (z : Z) : fexp prec emax z = Z.max (z - 24) (-149).
Proof. reflexivity. Qed.

Lemma binary_round_aux_unfold (s : bool) (m e : Z) (l : location) :
  binary_round_aux prec emax s m e l =
    let '(mrs', e') := shr_fexp prec emax m e l in
    let '(mrs'', e'') :=
      shr_fexp prec emax
        (round_nearest_even (shr_m mrs') (loc_of_shr_record mrs')) e' loc_Exact in
    mk_float s (shr_m mrs'') e''.
Proof. reflexivity. Qed.

Lemma shr_fexp_noshift (m e : Z) (l : location) :
  fexp prec emax (Zdigits2 m + e) <= e ->
  shr_fexp prec emax m e l = (shr_record_of_loc m l, e).
Proof.
  intros H. unfold shr_fexp, shr.
  destruct (fexp prec emax (Zdigits2 m + e) - e) eqn:E; try reflexivity. lia.
Qed.

Lemma shr_fexp_shift (m e : Z) :
  0 <= m -> e < fexp prec emax (Zdigits2 m + e) ->
  exists mrs,
    shr_fexp prec emax m e loc_Exact = (mrs, fexp prec emax (Zdigits2 m + e)) /\
    shr_m mrs = m / 2 ^ (fexp prec emax (Zdigits2 m + e) - e) /\
    inexact mrs = negb (m mod 2 ^ (fexp prec emax (Zdigits2 m + e) - e) =? 0).
Proof.
  intros Hm Hlt. unfold shr_fexp, shr. set (t := fexp prec emax (Zdigits2 m + e)) in *.
  destruct (t - e) as [|n|n] eqn:E; try lia.
  eexists. split; [f_equal; lia|].
  cbn [shr_record_of_loc]. now apply shr_iter_spec.
Qed.

Lemma round_nearest_even_spec (mrs : shr_record) :
  let m1 := round_nearest_even (shr_m mrs) (loc_of_shr_record mrs) in
  (m1 = shr_m mrs \/ m1 = shr_m mrs + 1) /\
  (inexact mrs = false -> m1 = shr_m mrs).
Proof.
  destruct mrs as [m [] []]; cbn; try destruct (Z.even m); split; auto; discriminate.
Qed.

(** The second alignment of [binary_round_aux] acts only on a mantissa that
    rounding carried to [2^24]. *)
Lemma shr_fexp_renormalize (m1 e : Z) :
  -149 <= e -> 0 <= m1 <= 2 ^ 24 ->
  shr_fexp prec emax m1 e loc_Exact =
    if m1 =? 2 ^ 24
    then ({| shr_m := 2 ^ 23; shr_r := false; shr_s := false |}, e + 1)
    else ({| shr_m := m1; shr_r := false; shr_s := false |}, e).
Proof.
  intros He [H0 H24]. destruct (Z.eqb_spec m1 (2 ^ 24)) as [->|Hne].
  - unfold shr_fexp. change (Zdigits2 (2 ^ 24)) with 25. rewrite fexp_spec.
    replace (Z.max (25 + e - 24) (-149) - e) with 1 by lia. reflexivity.
  - apply shr_fexp_noshift. rewrite fexp_spec.
    pose proof (Zdigits2_le_pow m1 24 ltac:(lia) ltac:(lia)). lia.
Qed.

(** [binary_round_aux] on an exact positive input. *)
Lemma binary_round_aux_exact (s : bool) (m : positive) (e : Z) :
  let t := fexp prec emax (Zpos (digits2_pos m) + e) in
  (t <= e -> binary_round_aux prec emax s (Zpos m) e loc_Exact = mk_float s (Zpos m) e) /\
  (e < t ->
   exists m1,
     Zpos m / 2 ^ (t - e) <= m1 <= Zpos m / 2 ^ (t - e) + 1 /\
     (Zpos m mod 2 ^ (t - e) = 0 -> m1 = Zpos m / 2 ^ (t - e)) /\
     binary_round_aux prec emax s (Zpos m) e loc_Exact =
       if m1 =? 2 ^ 24 then mk_float s (2 ^ 23) (t + 1) else mk_float s m1 t).
Proof.
  intros t. split; intros Ht; rewrite binary_round_aux_unfold.
  - rewrite shr_fexp_noshift by exact Ht. cbn [shr_record_of_loc shr_m loc_of_shr_record round_nearest_even].
    rewrite shr_fexp_noshift by exact Ht. reflexivity.
  - destruct (shr_fexp_shift (Zpos m) e ltac:(lia) Ht) as (mrs & -> & Hq & Hi).
    change (fexp prec emax (Zdigits2 (Z.pos m) + e)) with t in *.
    destruct (round_nearest_even_spec mrs) as [Hm1 Hexact].
    set (m1 := round_nearest_even (shr_m mrs) (loc_of_shr_record mrs)) in *.
    assert (Hp : 0 < 2 ^ (t - e)) by (apply Z.pow_pos_nonneg; lia).
    assert (Hq0 : 0 <= Zpos m / 2 ^ (t - e)) by (apply Z.div_pos; lia).
    assert (Hq24 : Zpos m / 2 ^ (t - e) < 2 ^ 24).
    { apply Z.div_lt_upper_bound; [lia|].
      rewrite <- Z.pow_add_r by lia.
      pose proof (digits2_pos_bounds m) as [_ Hd].
      eapply Z.lt_le_trans; [exact Hd|].
      apply Z.pow_le_mono_r; [lia|]. subst t. rewrite fexp_spec in *. lia. }
    exists m1. split; [lia|]. split.
    { intros Hrem. rewrite <- Hq. apply Hexact. rewrite Hi, Hrem. reflexivity. }
    assert (Ht149 : -149 <= t) by (subst t; rewrite fexp_spec; lia).
    rewrite shr_fexp_renormalize by lia.
    now destruct (m1 =? 2 ^ 24).
Qed.

(** ** Values and comparisons *)

Lemma bounded_spec (m : positive) (e : Z) :
  bounded prec emax m e = true <->
  Z.max (Zpos (digits2_pos m) + e - 24) (-149) = e /\ e <= 104.
Proof.
  unfold bounded, canonical_mantissa. rewrite andb_true_iff, Z.eqb_eq, Z.leb_le.
  rewrite fexp_spec. reflexivity.
Qed.

Lemma bounded_range (m : positive) (e : Z) :
  bounded prec emax m e = true ->
  -149 <= e <= 104 /\ Zpos m < 2 ^ 24 /\ (-149 < e -> 2 ^ 23 <= Zpos m).
Proof.
  rewrite bounded_spec. intros [Hc He].
  pose proof (digits2_pos_bounds m) as [Dlo Dhi].
  assert (Hd : Zpos (digits2_pos m) <= 24) by lia.
  split; [lia|]. split.
  - eapply Z.lt_le_trans; [exact Dhi|]. apply Z.pow_le_mono_r; lia.
  - intros Hn. assert (Zpos (digits2_pos m) = 24) as E by lia.
    rewrite E in Dlo. exact Dlo.
Qed.

Lemma pow2_pos (k : Z) : 0 <= k -> 0 < 2 ^ k.
Proof. intros. apply Z.pow_pos_nonneg; lia. Qed.

Lemma bounded_value (m : positive) (e : Z) :
  bounded prec emax m e = true -> 0 < Zpos m * 2 ^ (e + 149) < 2 ^ 277.
Proof.
  intros (He & Hm & _)%bounded_range.
  pose proof (pow2_pos (e + 149) ltac:(lia)).
  split; [lia|].
  apply Z.lt_le_trans with (2 ^ 24 * 2 ^ (e + 149)); [nia|].
  rewrite <- Z.pow_add_r by lia. apply Z.pow_le_mono_r; lia.
Qed.

(** On canonical representations, the order of exponents then mantissas is
    the order of values. *)
Lemma compare_canonical (m1 : positive) (e1 : Z) (m2 : positive) (e2 : Z) :
  bounded prec emax m1 e1 = true -> bounded prec emax m2 e2 = true ->
  match e1 ?= e2 with
  | Lt => Lt
  | Gt => Gt
  | Eq => Pos.compare_cont Eq m1 m2
  end = (Zpos m1 * 2 ^ (e1 + 149) ?= Zpos m2 * 2 ^ (e2 + 149)).
Proof.
  intros (He1 & Hm1 & Hn1)%bounded_range (He2 & Hm2 & Hn2)%bounded_range.
  symmetry. destruct (Z.compare_spec e1 e2) as [->|Hlt|Hgt].
  - change (Pos.compare_cont Eq m1 m2) with (Zpos m1 ?= Zpos m2).
    pose proof (pow2_pos (e2 + 149) ltac:(lia)).
    destruct (Z.compare_spec (Zpos m1) (Zpos m2)) as [->|H1|H1].
    + apply Z.compare_refl.
    + apply Z.compare_lt_iff. nia.
    + apply Z.compare_gt_iff. nia.
  - apply Z.compare_lt_iff.
    specialize (Hn2 ltac:(lia)).
    pose proof (pow2_pos (e1 + 149) ltac:(lia)).
    apply Z.lt_le_trans with (2 ^ 24 * 2 ^ (e1 + 149)); [nia|].
    apply Z.le_trans with (2 ^ 23 * 2 ^ (e2 + 149));
      [|pose proof (pow2_pos (e2 + 149) ltac:(lia)); nia].
    rewrite <- !Z.pow_add_r by lia. apply Z.pow_le_mono_r; lia.
  - apply Z.compare_gt_iff.
    specialize (Hn1 ltac:(lia)).
    pose proof (pow2_pos (e2 + 149) ltac:(lia)).
    apply Z.lt_le_trans with (2 ^ 24 * 2 ^ (e2 + 149)); [nia|].
    apply Z.le_trans with (2 ^ 23 * 2 ^ (e1 + 149));
      [|pose proof (pow2_pos (e1 + 149) ltac:(lia)); nia].
    rewrite <- !Z.pow_add_r by lia. apply Z.pow_le_mono_r; lia.
Qed.

Lemma SFcompare_correct (x y : float) :
  valid x = true -> valid y = true -> not_nan x = true -> not_nan y = true ->
  SFcompare x y = Some (xval x ?= xval y).
Proof.
  assert (Hbig : 2 ^ 277 < 2 ^ 300) by (apply Z.pow_lt_mono_r; lia).
  assert (Hpos : 0 < 2 ^ 277) by (apply Z.pow_pos_nonneg; lia).
  destruct x as [sx|sx| |sx mx ex], y as [sy|sy| |sy my ey];
    cbn [valid valid_binary not_nan]; try discriminate; intros Vx Vy _ _;
    try (pose proof (bounded_value _ _ Vx)); try (pose proof (bounded_value _ _ Vy));
    cbn [SFcompare xval]; f_equal; symmetry.
  all: try solve [ set (P := 2 ^ 300) in *; clearbody P;
    try destruct sx; try destruct sy; cbn [cond_Zopp];
    first [ apply Z.compare_eq_iff; lia
          | apply Z.compare_lt_iff; lia
          | apply Z.compare_gt_iff; lia ] ].
  destruct sx, sy; cbn [cond_Zopp].
  - rewrite Z.compare_opp.
    rewrite <- (compare_canonical my ey mx ex Vy Vx).
    rewrite (Z.compare_antisym ex ey).
    destruct (ex ?= ey); cbn [CompOpp]; try reflexivity.
    change (Pos.compare_cont Eq my mx) with (Pos.compare my mx).
    change (Pos.compare_cont Eq mx my) with (Pos.compare mx my).
    apply Pos.compare_antisym.
  - apply Z.compare_lt_iff. lia.
  - apply Z.compare_gt_iff. lia.
  - symmetry. now apply compare_canonical.
Qed.

Lemma SFleb_correct (x y : float) :
  valid x = true -> valid y = true -> not_nan x = true -> not_nan y = true ->
  SFleb x y = (xval x <=? xval y).
Proof.
  intros. unfold SFleb. rewrite SFcompare_correct by assumption.
  unfold Z.leb. now destruct (xval x ?= xval y).
Qed.

Lemma SFltb_correct (x y : float) :
  valid x = true -> valid y = true -> not_nan x = true -> not_nan y = true ->
  SFltb x y = (xval x <? xval y).
Proof.
  intros. unfold SFltb. rewrite SFcompare_correct by assumption.
  unfold Z.ltb. now destruct (xval x ?= xval y).
Qed.

Lemma Zdigits2_shift (m k : Z) : 0 < m -> 0 <= k -> Zdigits2 (m * 2 ^ k) = Zdigits2 m + k.
Proof.
  intros Hm Hk.
  pose proof (Zdigits2_bounds m Hm) as [Dlo Dhi].
  pose proof (Zdigits2_pos m Hm).
  pose proof (pow2_pos k Hk).
  apply Zdigits2_unique; [|nia].
  replace (Zdigits2 m + k - 1) with ((Zdigits2 m - 1) + k) by lia.
  rewrite !Z.pow_add_r by lia. nia.
Qed.

Lemma shl_align_spec (mx : positive) (ex ex' : Z) :
  snd (shl_align mx ex ex') = Z.min ex ex' /\
  Zpos (fst (shl_align mx ex ex')) = Zpos mx * 2 ^ (ex - Z.min ex ex').
Proof.
  unfold shl_align. destruct (ex' - ex) as [|d|d] eqn:E; cbn [fst snd].
  - replace (Z.min ex ex') with ex by lia. rewrite Z.sub_diag. cbn. lia.
  - replace (Z.min ex ex') with ex by lia. rewrite Z.sub_diag. cbn. lia.
  - replace (Z.min ex ex') with ex' by lia. split; [reflexivity|].
    replace (ex - ex') with (Zpos d) by lia.
    change (Pos.iter xO mx d) with (shift_pos d mx).
    rewrite shift_pos_correct, Z.pow_pos_fold. lia.
Qed.

(** *** Rounding keeps a number between its representable neighbours *)

Lemma quotient_bounds (m Q P q rem C : Z) :
  0 < Q -> 0 < P -> m = Q * q + rem -> 0 <= rem < Q ->
  (C * (Q * P) <= m * P -> C <= q) /\
  (m * P <= C * (Q * P) -> q <= C /\ (rem <> 0 -> q + 1 <= C)).
Proof.
  intros HQ HP -> Hrem. split.
  - intros H. assert (C * Q <= Q * q + rem) by nia. nia.
  - intros H. assert (Q * q + rem <= C * Q) by nia. split; [nia|]. intros. nia.
Qed.

Lemma pow2_split (a b : Z) : 0 <= a -> 0 <= b -> 2 ^ (a + b) = 2 ^ a * 2 ^ b.
Proof. intros. now apply Z.pow_add_r. Qed.

Lemma truncation_ge_pow23 (m : positive) (n : Z) :
  0 < n -> n = Zpos (digits2_pos m) - 24 -> 2 ^ 23 <= Zpos m / 2 ^ n.
Proof.
  intros Hn Hd. pose proof (digits2_pos_bounds m) as [Dlo _].
  apply Z.div_le_lower_bound; [apply pow2_pos; lia|].
  rewrite <- Z.pow_add_r by lia.
  eapply Z.le_trans; [|exact Dlo]. apply Z.pow_le_mono_r; lia.
Qed.

(** Truncation of [m * 2^e] to the exponent [t] does not go below a
    canonical number that is at most [m * 2^e]. *)
Lemma truncation_above (m : positive) (e t : Z) (mc : positive) (ec : Z) :
  -149 <= e -> e < t -> t = Zpos (digits2_pos m) + e - 24 ->
  bounded prec emax mc ec = true ->
  Zpos mc * 2 ^ (ec + 149) <= Zpos m * 2 ^ (e + 149) ->
  Zpos mc * 2 ^ (ec + 149) <= Zpos m / 2 ^ (t - e) * 2 ^ (t + 149).
Proof.
  intros He Ht Htd (Hec & Hmc & Hnc)%bounded_range Hle.
  pose proof (truncation_ge_pow23 m (t - e) ltac:(lia) ltac:(lia)) as Hq23.
  pose proof (pow2_pos (t - e) ltac:(lia)) as HQ.
  pose proof (pow2_pos (e + 149) ltac:(lia)) as HP.
  pose proof (Z.div_mod (Zpos m) (2 ^ (t - e)) ltac:(lia)) as Hdm.
  pose proof (Z.mod_pos_bound (Zpos m) (2 ^ (t - e)) HQ) as Hrem.
  assert (Et : 2 ^ (t + 149) = 2 ^ (t - e) * 2 ^ (e + 149))
    by (rewrite <- pow2_split by lia; f_equal; lia).
  rewrite Et.
  destruct (Z_le_gt_dec t ec) as [Hge|Hlt].
  - assert (Ec : 2 ^ (ec + 149) = 2 ^ (ec - t) * (2 ^ (t - e) * 2 ^ (e + 149)))
      by (rewrite <- !pow2_split by lia; f_equal; lia).
    rewrite Ec in *. rewrite Z.mul_assoc in *.
    pose proof (pow2_pos (ec - t) ltac:(lia)) as HR.
    destruct (quotient_bounds _ _ _ _ _ (Zpos mc * 2 ^ (ec - t)) HQ HP Hdm Hrem) as [Hlo _].
    specialize (Hlo Hle). nia.
  - apply Z.le_trans with (2 ^ 24 * 2 ^ (ec + 149));
      [pose proof (pow2_pos (ec + 149) ltac:(lia)); nia|].
    apply Z.le_trans with (2 ^ 23 * (2 ^ (t - e) * 2 ^ (e + 149))); [|nia].
    rewrite <- !pow2_split by lia. apply Z.pow_le_mono_r; lia.
Qed.

(** A mantissa between the truncation and its successor, equal to the
    truncation when nothing was cut, does not exceed a canonical number that
    is at least [m * 2^e]; and it stays in range. *)
Lemma rounding_below (m : positive) (e t m1 : Z) (mc : positive) (ec : Z) :
  -149 <= e -> e < t -> t = Zpos (digits2_pos m) + e - 24 ->
  Zpos m / 2 ^ (t - e) <= m1 <= Zpos m / 2 ^ (t - e) + 1 ->
  (Zpos m mod 2 ^ (t - e) = 0 -> m1 = Zpos m / 2 ^ (t - e)) ->
  bounded prec emax mc ec = true ->
  Zpos m * 2 ^ (e + 149) <= Zpos mc * 2 ^ (ec + 149) ->
  m1 * 2 ^ (t + 149) <= Zpos mc * 2 ^ (ec + 149) /\
  t <= 104 /\ (m1 = 2 ^ 24 -> t + 1 <= 104).
Proof.
  intros He Ht Htd Hm1 Hex (Hec & Hmc & Hnc)%bounded_range Hle.
  pose proof (truncation_ge_pow23 m (t - e) ltac:(lia) ltac:(lia)) as Hq23.
  pose proof (pow2_pos (t - e) ltac:(lia)) as HQ.
  pose proof (pow2_pos (e + 149) ltac:(lia)) as HP.
  pose proof (Z.div_mod (Zpos m) (2 ^ (t - e)) ltac:(lia)) as Hdm.
  pose proof (Z.mod_pos_bound (Zpos m) (2 ^ (t - e)) HQ) as Hrem.
  assert (Et : 2 ^ (t + 149) = 2 ^ (t - e) * 2 ^ (e + 149))
    by (rewrite <- pow2_split by lia; f_equal; lia).
  rewrite Et.
  destruct (Z_le_gt_dec t ec) as [Hge|Hlt].
  - assert (Ec : 2 ^ (ec + 149) = 2 ^ (ec - t) * (2 ^ (t - e) * 2 ^ (e + 149)))
      by (rewrite <- !pow2_split by lia; f_equal; lia).
    rewrite Ec in *. rewrite Z.mul_assoc in *.
    pose proof (pow2_pos (ec - t) ltac:(lia)) as HR.
    destruct (quotient_bounds _ _ _ _ _ (Zpos mc * 2 ^ (ec - t)) HQ HP Hdm Hrem) as [_ Hhi].
    destruct (Hhi Hle) as [HqC HqC1].
    assert (Hm1C : m1 <= Zpos mc * 2 ^ (ec - t)).
    { destruct (Z.eq_dec (Zpos m mod 2 ^ (t - e)) 0) as [E|NE];
        [rewrite (Hex E); exact HqC|specialize (HqC1 NE); lia]. }
    split; [nia|]. split; [lia|].
    intros E24. subst m1.
    destruct (Z.eq_dec ec t) as [Eect|]; [|lia].
    exfalso. rewrite Eect, Z.sub_diag in Hm1C. cbn in Hm1C. lia.
  - exfalso.
    assert (Zpos mc * 2 ^ (ec + 149) < 2 ^ 23 * (2 ^ (t - e) * 2 ^ (e + 149))); [|nia].
    apply Z.lt_le_trans with (2 ^ 24 * 2 ^ (ec + 149));
      [pose proof (pow2_pos (ec + 149) ltac:(lia)); nia|].
    rewrite <- !pow2_split by lia. apply Z.pow_le_mono_r; lia.
Qed.

Lemma bounded_intro (m : positive) (e : Z) :
  -149 <= e <= 104 -> Zpos m < 2 ^ 24 -> (-149 < e -> 2 ^ 23 <= Zpos m) ->
  bounded prec emax m e = true.
Proof.
  intros He Hm Hn. apply bounded_spec. split; [|lia].
  pose proof (Zdigits2_le_pow (Zpos m) 24 ltac:(lia) ltac:(lia)) as Hd.
  cbn [Zdigits2] in Hd.
  destruct (Z.eq_dec e (-149)) as [->|Hne]; [lia|].
  pose proof (Zdigits2_ge_pow (Zpos m) 23 ltac:(lia) (Hn ltac:(lia))) as Hd'.
  cbn [Zdigits2] in Hd'. lia.
Qed.

Lemma value_ge_pow277 (m : positive) (e : Z) :
  -149 <= e -> 129 <= Zpos (digits2_pos m) + e -> 2 ^ 277 <= Zpos m * 2 ^ (e + 149).
Proof.
  intros He Hd. pose proof (digits2_pos_bounds m) as [Dlo _].
  pose proof (pow2_pos (e + 149) ltac:(lia)).
  apply Z.le_trans with (2 ^ (Zpos (digits2_pos m) - 1) * 2 ^ (e + 149)); [|nia].
  rewrite <- pow2_split by lia. apply Z.pow_le_mono_r; lia.
Qed.

Lemma binary_round_between (s : bool) (m : positive) (e : Z) :
  -149 <= e ->
  let r := binary_round prec emax s m e in
  valid r = true /\ not_nan r = true /\
  exists A,
    xval r = cond_Zopp s A /\ 0 < A /\
    (forall mc ec, bounded prec emax mc ec = true ->
       Zpos mc * 2 ^ (ec + 149) <= Zpos m * 2 ^ (e + 149) ->
       Zpos mc * 2 ^ (ec + 149) <= A) /\
    (forall mc ec, bounded prec emax mc ec = true ->
       Zpos m * 2 ^ (e + 149) <= Zpos mc * 2 ^ (ec + 149) ->
       A <= Zpos mc * 2 ^ (ec + 149)).
Proof.
  intros He r. subst r. unfold binary_round.
  set (t := fexp prec emax (Zpos (digits2_pos m) + e)).
  assert (Ht : t = Z.max (Zpos (digits2_pos m) + e - 24) (-149)) by reflexivity.
  clearbody t.
  destruct (shl_align_spec m e t) as [Hez Hmz].
  destruct (shl_align m e t) as [mz ez]. cbn [fst snd] in Hez, Hmz.
  assert (Hdz : Zpos (digits2_pos mz) + ez = Zpos (digits2_pos m) + e).
  { change (Zpos (digits2_pos mz)) with (Zdigits2 (Zpos mz)).
    rewrite Hmz, Zdigits2_shift by lia. cbn [Zdigits2]. lia. }
  assert (Hbig : 2 ^ 277 < 2 ^ 300) by (apply Z.pow_lt_mono_r; lia).
  pose proof (binary_round_aux_exact s mz ez) as [Hexact Hshift].
  cbv zeta in Hexact, Hshift. rewrite Hdz, fexp_spec, <- Ht in Hexact, Hshift.
  destruct (Z_le_gt_dec t e) as [Hle|Hgt].
  - (* the number is representable at its own exponent *)
    subst ez. rewrite (Z.min_r e t) in * by lia. rewrite Hexact by lia. clear Hexact Hshift.
    assert (HN : Zpos mz * 2 ^ (t + 149) = Zpos m * 2 ^ (e + 149)).
    { rewrite Hmz, <- Z.mul_assoc, <- pow2_split by lia. do 2 f_equal. lia. }
    unfold mk_float. destruct (Z.leb_spec t (emax - prec)) as [Hfit|Hover].
    + change (emax - prec) with 104 in Hfit.
      split; [apply bounded_spec; split; [lia|exact Hfit]|]. split; [reflexivity|].
      exists (Zpos mz * 2 ^ (t + 149)). split; [reflexivity|].
      split; [pose proof (pow2_pos (t + 149) ltac:(lia)); lia|].
      rewrite HN. split; intros mc ec _ H; exact H.
    + change (emax - prec) with 104 in Hover.
      split; [reflexivity|]. split; [reflexivity|].
      exists (2 ^ 300). split; [reflexivity|]. split; [lia|].
      split; intros mc ec Hb H; pose proof (bounded_value mc ec Hb); [lia|].
      pose proof (value_ge_pow277 m e He ltac:(lia)). lia.
  - (* low bits are cut *)
    subst ez. rewrite (Z.min_l e t) in * by lia.
    assert (mz = m).
    { rewrite Z.sub_diag in Hmz. cbn in Hmz. lia. }
    subst mz. clear Hexact Hmz Hdz.
    destruct (Hshift ltac:(lia)) as (m1 & Hm1 & Hex & ->). clear Hshift.
    assert (Htd : t = Zpos (digits2_pos m) + e - 24) by lia.
    pose proof (truncation_ge_pow23 m (t - e) ltac:(lia) ltac:(lia)) as Hq23.
    assert (Hq24 : Zpos m / 2 ^ (t - e) < 2 ^ 24).
    { apply Z.div_lt_upper_bound; [apply pow2_pos; lia|].
      rewrite <- pow2_split by lia.
      pose proof (digits2_pos_bounds m) as [_ Hd].
      eapply Z.lt_le_trans; [exact Hd|]. apply Z.pow_le_mono_r; lia. }
    pose proof (pow2_pos (t + 149) ltac:(lia)) as HT.
    assert (HA : forall r : float,
      (t <= 104 -> (m1 = 2 ^ 24 -> t + 1 <= 104) ->
         valid r = true /\ not_nan r = true /\ xval r = cond_Zopp s (m1 * 2 ^ (t + 149))) ->
      ((104 < t \/ (m1 = 2 ^ 24 /\ 104 < t + 1)) -> r = S754_infinity s) ->
      valid r = true /\ not_nan r = true /\
      exists A, xval r = cond_Zopp s A /\ 0 < A /\
        (forall mc ec, bounded prec emax mc ec = true ->
           Zpos mc * 2 ^ (ec + 149) <= Zpos m * 2 ^ (e + 149) ->
           Zpos mc * 2 ^ (ec + 149) <= A) /\
        (forall mc ec, bounded prec emax mc ec = true ->
           Zpos m * 2 ^ (e + 149) <= Zpos mc * 2 ^ (ec + 149) ->
           A <= Zpos mc * 2 ^ (ec + 149))).
    { intros r Hfin Hinf.
      destruct (Z_le_gt_dec t 104) as [H104|H104];
        [destruct (Z.eq_dec m1 (2 ^ 24)) as [E24|N24];
           [destruct (Z_le_gt_dec (t + 1) 104) as [H105|H105]|]|].
      2,4: (rewrite Hinf by lia; split; [reflexivity|]; split; [reflexivity|];
            exists (2 ^ 300); split; [reflexivity|]; split; [lia|];
            split; intros mc ec Hb H; pose proof (bounded_value mc ec Hb); [lia|];
            destruct (rounding_below m e t m1 mc ec He ltac:(lia) Htd Hm1 Hex Hb H)
              as (_ & ? & ?); lia).
      all: destruct Hfin as (Hv & Hn & Hx); [lia..|];
        split; [exact Hv|]; split; [exact Hn|];
        exists (m1 * 2 ^ (t + 149)); split; [exact Hx|]; split; [nia|]; split;
        intros mc ec Hb H;
        [ pose proof (truncation_above m e t mc ec He ltac:(lia) Htd Hb H); nia
        | now destruct (rounding_below m e t m1 mc ec He ltac:(lia) Htd Hm1 Hex Hb H) ]. }
    destruct (Z.eqb_spec m1 (2 ^ 24)) as [E24|N24].
    + apply HA.
      * intros _ H105. specialize (H105 E24). unfold mk_float.
        change (2 ^ 23) with (Zpos 8388608).
        destruct (Z.leb_spec (t + 1) (emax - prec)) as [_|Hc];
          [|change (emax - prec) with 104 in Hc; lia].
        split; [apply bounded_intro; cbn; lia|]. split; [reflexivity|].
        cbn [xval]. f_equal. rewrite E24.
        replace (t + 1 + 149) with (1 + (t + 149)) by lia.
        rewrite pow2_split by lia. cbn. lia.
      * intros [H|[_ H]]; unfold mk_float; change (2 ^ 23) with (Zpos 8388608);
          destruct (Z.leb_spec (t + 1) (emax - prec)) as [Hc|_]; try reflexivity;
          change (emax - prec) with 104 in Hc; lia.
    + destruct m1 as [|p|p]; try lia. apply HA.
      * intros H104 _. unfold mk_float.
        destruct (Z.leb_spec t (emax - prec)) as [_|Hc];
          [|change (emax - prec) with 104 in Hc; lia].
        split; [apply bounded_intro; lia|]. split; reflexivity.
      * intros [H|[H _]]; [|lia]. unfold mk_float.
        destruct (Z.leb_spec t (emax - prec)) as [Hc|_]; try reflexivity.
        change (emax - prec) with 104 in Hc; lia.
Qed.

(** ** Sums and differences round the exact result *)

Lemma xval_finite_cases (c : float) :
  finite_valid c ->
  (xval c = 0) \/
  (exists mc ec, bounded prec emax mc ec = true /\
     (xval c = Zpos mc * 2 ^ (ec + 149) \/ xval c = - (Zpos mc * 2 ^ (ec + 149)))).
Proof.
  intros [Hv Hf]. destruct c as [s|s| |s m e]; try discriminate; [now left|].
  right. exists m, e. split; [exact Hv|]. destruct s; cbn; auto.
Qed.

Lemma binary_normalize_rounds (M e : Z) :
  -149 <= e -> rounds (M * 2 ^ (e + 149)) (binary_normalize prec emax M e false).
Proof.
  intros He. pose proof (pow2_pos (e + 149) ltac:(lia)) as HP.
  destruct M as [|m|m]; cbn [binary_normalize].
  - split; [reflexivity|]. split; [reflexivity|]. intros c _. cbn. lia.
  - destruct (binary_round_between false m e He) as (Hv & Hn & A & HA & HA0 & Hlo & Hhi).
    split; [exact Hv|]. split; [exact Hn|]. intros c Hc. rewrite HA. cbn [cond_Zopp].
    destruct (xval_finite_cases c Hc) as [->|(mc & ec & Hb & [->| ->])].
    + lia.
    + specialize (Hlo mc ec Hb). specialize (Hhi mc ec Hb). lia.
    + pose proof (bounded_value mc ec Hb). lia.
  - destruct (binary_round_between true m e He) as (Hv & Hn & A & HA & HA0 & Hlo & Hhi).
    split; [exact Hv|]. split; [exact Hn|]. intros c Hc. rewrite HA. cbn [cond_Zopp].
    change (Z.neg m) with (- Zpos m).
    destruct (xval_finite_cases c Hc) as [->|(mc & ec & Hb & [->| ->])].
    + lia.
    + pose proof (bounded_value mc ec Hb). lia.
    + specialize (Hlo mc ec Hb). specialize (Hhi mc ec Hb). lia.
Qed.

Lemma rounds_exact (N : Z) (r c : float) :
  rounds N r -> finite_valid c -> xval c = N -> xval r = N.
Proof. intros (_ & _ & H) Hc E. destruct (H c Hc). lia. Qed.

(** [SFadd] and [SFsub] on valid finite operands round the exact sum and
    difference. *)
Lemma aligned_value (s : bool) (m : positive) (e ez : Z) :
  ez <= e -> -149 <= ez ->
  cond_Zopp s (Zpos (fst (shl_align m e ez))) * 2 ^ (ez + 149)
  = cond_Zopp s (Zpos m * 2 ^ (e + 149)).
Proof.
  intros Hle He. destruct (shl_align_spec m e ez) as [_ ->].
  rewrite Z.min_r by lia.
  replace (e + 149) with ((e - ez) + (ez + 149)) by lia.
  rewrite (pow2_split (e - ez) (ez + 149)) by lia. destruct s; cbn [cond_Zopp]; ring.
Qed.

Lemma SFadd_rounds (x y : float) :
  finite_valid x -> finite_valid y -> rounds (xval x + xval y) (x + y)%f32.
Proof.
  intros [Vx Fx] [Vy Fy].
  assert (Hself : forall z, valid z = true -> is_finite z = true -> rounds (xval z) z).
  { intros z Vz Fz. split; [exact Vz|]. split; [now destruct z|]. intros c _. lia. }
  destruct x as [sx|sx| |sx mx ex], y as [sy|sy| |sy my ey]; try discriminate;
    unfold add; cbn [SFadd].
  - destruct sx, sy; apply (Hself (S754_zero _)); reflexivity.
  - apply (Hself (S754_finite sy my ey)); assumption.
  - rewrite Z.add_0_r. apply (Hself (S754_finite sx mx ex)); assumption.
  - pose proof (bounded_range _ _ Vx) as (Hex & _). pose proof (bounded_range _ _ Vy) as (Hey & _).
    cbn [xval].
    rewrite <- (aligned_value sx mx ex (Z.min ex ey)) by lia.
    rewrite <- (aligned_value sy my ey (Z.min ex ey)) by lia.
    rewrite <- Z.mul_add_distr_r.
    apply binary_normalize_rounds. lia.
Qed.

Lemma SFsub_rounds (x y : float) :
  finite_valid x -> finite_valid y -> rounds (xval x - xval y) (x - y)%f32.
Proof.
  intros [Vx Fx] [Vy Fy].
  assert (Hself : forall z N, valid z = true -> is_finite z = true -> N = xval z -> rounds N z).
  { intros z N Vz Fz ->. split; [exact Vz|]. split; [now destruct z|]. intros c _. lia. }
  destruct x as [sx|sx| |sx mx ex], y as [sy|sy| |sy my ey]; try discriminate;
    unfold sub; cbn [SFsub].
  - destruct sx, sy; apply (Hself (S754_zero _)); reflexivity.
  - apply (Hself (S754_finite (negb sy) my ey)); [assumption|reflexivity|].
    destruct sy; cbn; lia.
  - apply (Hself (S754_finite sx mx ex)); [assumption|reflexivity|]. cbn. lia.
  - pose proof (bounded_range _ _ Vx) as (Hex & _). pose proof (bounded_range _ _ Vy) as (Hey & _).
    cbn [xval].
    rewrite <- (aligned_value sx mx ex (Z.min ex ey)) by lia.
    rewrite <- (aligned_value sy my ey (Z.min ex ey)) by lia.
    rewrite <- Z.mul_sub_distr_r.
    apply binary_normalize_rounds. lia.
Qed.

(** *** Small integers are representable *)

Lemma canonical_exists (K : Z) :
  0 < K <= 2 ^ 24 ->
  exists mc ec, bounded prec emax mc ec = true /\
                Zpos mc * 2 ^ (ec + 149) = K * 2 ^ 149.
Proof.
  intros [H0 H24]. destruct (Z.eq_dec K (2 ^ 24)) as [->|Hne].
  - exists 8388608%positive, 1. split; reflexivity.
  - pose proof (Zdigits2_bounds K H0) as [Dlo Dhi].
    pose proof (Zdigits2_pos K H0) as Dpos.
    pose proof (Zdigits2_le_pow K 24 ltac:(lia) ltac:(lia)) as D24.
    set (d := Zdigits2 K) in *.
    pose proof (pow2_pos (24 - d) ltac:(lia)) as HS.
    assert (Hm : 2 ^ 23 <= K * 2 ^ (24 - d) < 2 ^ 24).
    { assert (E1 : 2 ^ 23 = 2 ^ (d - 1) * 2 ^ (24 - d))
        by (rewrite <- pow2_split by lia; f_equal; lia).
      assert (E2 : 2 ^ 24 = 2 ^ d * 2 ^ (24 - d))
        by (rewrite <- pow2_split by lia; f_equal; lia).
      rewrite E1, E2. nia. }
    exists (Z.to_pos (K * 2 ^ (24 - d))), (d - 24).
    rewrite Z2Pos.id by lia. split.
    + apply bounded_intro; rewrite ?Z2Pos.id by lia; lia.
    + rewrite <- Z.mul_assoc, <- pow2_split by lia. do 2 f_equal. lia.
Qed.

Lemma of_Z_small (K : Z) :
  - 2 ^ 24 <= K <= 2 ^ 24 ->
  finite_valid (of_Z K) /\ not_nan (of_Z K) = true /\ xval (of_Z K) = K * 2 ^ 149.
Proof.
  intros HK.
  pose proof (binary_normalize_rounds K 0 ltac:(lia)) as Hr.
  change (binary_normalize prec emax K 0 false) with (of_Z K) in Hr.
  change (0 + 149) with 149 in Hr.
  assert (Hx : xval (of_Z K) = K * 2 ^ 149).
  { destruct (Z.eq_dec K 0) as [->|Hne]; [reflexivity|].
    destruct (canonical_exists (Z.abs K) ltac:(lia)) as (mc & ec & Hb & Hv).
    apply (rounds_exact _ _ (S754_finite (K <? 0) mc ec) Hr);
      [split; [exact Hb|reflexivity]|].
    cbn [xval]. rewrite Hv. destruct (Z.ltb_spec K 0); cbn [cond_Zopp]; lia. }
  destruct Hr as (Hv & Hn & _). split; [|split]; [|exact Hn|exact Hx].
  split; [exact Hv|].
  destruct (of_Z K) as [s|s| |s m e]; try reflexivity; try discriminate.
  exfalso. cbn [xval] in Hx.
  assert (2 ^ 24 * 2 ^ 149 < 2 ^ 300) by (rewrite <- pow2_split by lia; apply Z.pow_lt_mono_r; lia).
  pose proof (pow2_pos 149 ltac:(lia)).
  destruct s; cbn [cond_Zopp] in Hx; nia.
Qed.

(** *** Adding one *)

Lemma SFleb_true_not_nan (c x : float) : SFleb c x = true -> not_nan x = true.
Proof. destruct c, x; cbn; congruence. Qed.

Lemma valid_not_nan_cases (x : float) :
  valid x = true -> not_nan x = true ->
  x = S754_infinity true \/ x = S754_infinity false \/ finite_valid x.
Proof.
  intros Hv Hn. destruct x as [s|[]| |s m e]; try discriminate; auto;
    right; right; split; auto.
Qed.

(** From [K <= x] to [K + 1 <= x + 1], in binary32. *)
Lemma add_one_ge (x : float) (K : Z) :
  valid x = true -> - 2 ^ 24 <= K < 2 ^ 24 ->
  SFleb (of_Z K) x = true ->
  valid (x + of_Z 1)%f32 = true /\ SFleb (of_Z (K + 1)) (x + of_Z 1)%f32 = true.
Proof.
  intros Vx HK Hle.
  pose proof (SFleb_true_not_nan _ _ Hle) as Nx.
  destruct (of_Z_small K ltac:(lia)) as ((VK & FK) & NK & XK).
  destruct (of_Z_small (K + 1) ltac:(lia)) as ((VK1 & FK1) & NK1 & XK1).
  destruct (of_Z_small 1 ltac:(lia)) as (F1 & N1 & X1).
  rewrite SFleb_correct in Hle by assumption. apply Z.leb_le in Hle.
  assert (Hbig : 2 ^ 24 * 2 ^ 149 < 2 ^ 300)
    by (rewrite <- pow2_split by lia; apply Z.pow_lt_mono_r; lia).
  pose proof (pow2_pos 149 ltac:(lia)) as HU.
  destruct (valid_not_nan_cases x Vx Nx) as [->|[->|Fx]].
  - exfalso. cbn [xval cond_Zopp] in Hle. nia.
  - change (S754_infinity false + of_Z 1)%f32 with (S754_infinity false).
    split; [reflexivity|].
    rewrite SFleb_correct by (assumption || reflexivity).
    apply Z.leb_le. cbn [xval cond_Zopp]. nia.
  - destruct (SFadd_rounds x (of_Z 1) Fx F1) as (Vr & Nr & Hr).
    split; [exact Vr|].
    rewrite SFleb_correct by assumption. apply Z.leb_le.
    apply (Hr (of_Z (K + 1))); [split; assumption|]. lia.
Qed.

Lemma leb_of_Z_not_ltb (x : float) (K L : Z) :
  valid x = true -> - 2 ^ 24 <= K <= 2 ^ 24 -> - 2 ^ 24 <= L <= 2 ^ 24 -> L <= K ->
  SFleb (of_Z K) x = true -> SFltb x (of_Z L) = false.
Proof.
  intros Vx HK HL HLK Hle.
  pose proof (SFleb_true_not_nan _ _ Hle) as Nx.
  destruct (of_Z_small K HK) as ((VK & _) & NK & XK).
  destruct (of_Z_small L HL) as ((VL & _) & NL & XL).
  rewrite SFleb_correct in Hle by assumption. apply Z.leb_le in Hle.
  rewrite SFltb_correct by assumption. apply Z.ltb_ge.
  pose proof (pow2_pos 149 ltac:(lia)). nia.
Qed.

Lemma leb_of_Z_not_leb (x : float) (K L : Z) :
  valid x = true -> - 2 ^ 24 <= K <= 2 ^ 24 -> - 2 ^ 24 <= L <= 2 ^ 24 -> L < K ->
  SFleb (of_Z K) x = true -> SFleb x (of_Z L) = false.
Proof.
  intros Vx HK HL HLK Hle.
  pose proof (SFleb_true_not_nan _ _ Hle) as Nx.
  destruct (of_Z_small K HK) as ((VK & _) & NK & XK).
  destruct (of_Z_small L HL) as ((VL & _) & NL & XL).
  rewrite SFleb_correct in Hle by assumption. apply Z.leb_le in Hle.
  rewrite SFleb_correct by assumption. apply Z.leb_gt.
  pose proof (pow2_pos 149 ltac:(lia)). nia.
Qed.

Lemma canonical_unique (m1 : positive) (e1 : Z) (m2 : positive) (e2 : Z) :
  bounded prec emax m1 e1 = true -> bounded prec emax m2 e2 = true ->
  Zpos m1 * 2 ^ (e1 + 149) = Zpos m2 * 2 ^ (e2 + 149) ->
  m1 = m2 /\ e1 = e2.
Proof.
  intros H1 H2 Hv. pose proof (compare_canonical m1 e1 m2 e2 H1 H2) as Hc.
  rewrite Hv, Z.compare_refl in Hc.
  destruct (Z.compare_spec e1 e2) as [->| |]; try discriminate.
  split; [|reflexivity]. now apply Pos.compare_eq.
Qed.

(** The valid numbers in [1, 2]. *)
Lemma between_one_and_two (y : float) :
  valid y = true -> not_nan y = true ->
  2 ^ 149 <= xval y <= 2 * 2 ^ 149 ->
  y = of_Z 2 \/ exists m, y = S754_finite false m (-23) /\ 2 ^ 23 <= Zpos m < 2 ^ 24.
Proof.
  intros Vy Ny [Hlo Hhi].
  pose proof (pow2_pos 149 ltac:(lia)) as HU.
  assert (Hbig : 2 * 2 ^ 149 < 2 ^ 300) by (apply (Z.pow_lt_mono_r 2 150 300); lia).
  destruct y as [s|[]| |[] m e]; try discriminate; cbn [xval cond_Zopp] in *; try lia.
  destruct (Z.eq_dec (Zpos m * 2 ^ (e + 149)) (2 * 2 ^ 149)) as [E|NE].
  - left. destruct (canonical_unique m e 8388608 (-22) Vy eq_refl) as [-> ->];
      [rewrite E; reflexivity|reflexivity].
  - right. pose proof (bounded_range m e Vy) as (He & Hm & Hn).
    pose proof (pow2_pos (e + 149) ltac:(lia)) as HP.
    assert (e = -23).
    { destruct (Z_lt_le_dec e (-23)) as [Hl|Hg].
      - exfalso. assert (2 ^ (e + 149) <= 2 ^ 125) by (apply Z.pow_le_mono_r; lia).
        assert (2 ^ 24 * 2 ^ 125 = 2 ^ 149) by reflexivity. nia.
      - destruct (Z.eq_dec e (-23)); [assumption|exfalso].
        specialize (Hn ltac:(lia)).
        assert (2 ^ 127 <= 2 ^ (e + 149)) by (apply Z.pow_le_mono_r; lia).
        assert (2 ^ 23 * 2 ^ 127 = 2 * 2 ^ 149) by reflexivity. nia. }
    subst e. exists m. split; [reflexivity|]. split; [apply Hn; lia|exact Hm].
Qed.


Lemma wrap32_small (n : Z) : - 2 ^ 31 <= n < 2 ^ 31 -> wrap32 n = n.
Proof. intros H. unfold wrap32. rewrite Z.mod_small; lia. Qed.

Lemma SFcompare_refl_finite (s : bool) (m : positive) (e : Z) :
  SFeqb (S754_finite s m e) (S754_finite s m e) = true.
Proof.
  unfold SFeqb. cbn [SFcompare]. rewrite Z.compare_refl.
  change (Pos.compare_cont Eq m m) with (Pos.compare m m). rewrite Pos.compare_refl.
  now destruct s.
Qed.

(** ** Coarse facts on [binary_round_aux] with any rounding location *)

Lemma shr_iter_m (mrs : shr_record) (n : positive) :
  0 <= shr_m mrs ->
  shr_m (SpecFloat.iter_pos shr_1 n mrs) = shr_m mrs / 2 ^ Zpos n.
Proof.
  intros Hm.
  pose (Inv := fun (k : Z) (x : shr_record) => shr_m x = shr_m mrs / 2 ^ k).
  assert (Hstep : forall k x, 0 <= k -> Inv k x -> Inv (k + 1) (shr_1 x)).
  { intros k x Hk Hx. unfold Inv in *.
    assert (0 <= shr_m x) by (rewrite Hx; apply Z.div_pos; [lia|apply pow2_pos; lia]).
    destruct (shr_1_spec x ltac:(assumption)) as [H1 _].
    rewrite H1, Hx, Z.div_div by (try apply pow2_pos; lia).
    rewrite (pow2_split k 1) by lia. reflexivity. }
  pose proof (iter_pos_invariant shr_1 Inv Hstep n 0 mrs ltac:(lia)) as H.
  cbn [Z.add] in H. apply H. unfold Inv. now rewrite Z.div_1_r.
Qed.

Lemma shr_record_of_loc_m (m : Z) (l : location) : shr_m (shr_record_of_loc m l) = m.
Proof. now destruct l as [|[]]. Qed.

Lemma shr_fexp_m (m e : Z) (l : location) :
  0 <= m ->
  let t := fexp prec emax (Zdigits2 m + e) in
  snd (shr_fexp prec emax m e l) = Z.max e t /\
  shr_m (fst (shr_fexp prec emax m e l)) = m / 2 ^ (Z.max e t - e).
Proof.
  intros Hm t. unfold shr_fexp, shr. fold t.
  destruct (t - e) as [|n|n] eqn:E; cbn [fst snd].
  - rewrite Z.max_l by lia. rewrite Z.sub_diag, shr_record_of_loc_m, Z.div_1_r. auto.
  - rewrite Z.max_r by lia. split; [lia|].
    rewrite shr_iter_m by (rewrite shr_record_of_loc_m; lia).
    rewrite shr_record_of_loc_m. do 2 f_equal. lia.
  - rewrite Z.max_l by lia. rewrite Z.sub_diag, shr_record_of_loc_m, Z.div_1_r. auto.
Qed.

Lemma round_nearest_even_cases (m : Z) (l : location) :
  round_nearest_even m l = m \/ round_nearest_even m l = m + 1.
Proof. destruct l as [|[]]; cbn; try destruct (Z.even m); auto. Qed.

Lemma binary_round_aux_general (s : bool) (m e : Z) (l : location) :
  0 <= m ->
  exists m1 m2,
    let e1 := Z.max e (fexp prec emax (Zdigits2 m + e)) in
    let e2 := Z.max e1 (fexp prec emax (Zdigits2 m1 + e1)) in
    (m1 = m / 2 ^ (e1 - e) \/ m1 = m / 2 ^ (e1 - e) + 1) /\
    m2 = m1 / 2 ^ (e2 - e1) /\
    binary_round_aux prec emax s m e l = mk_float s m2 e2.
Proof.
  intros Hm. rewrite binary_round_aux_unfold.
  destruct (shr_fexp_m m e l Hm) as [He1 Hm1].
  destruct (shr_fexp prec emax m e l) as [mrs1 e1]. cbn [fst snd] in He1, Hm1.
  set (m1 := round_nearest_even (shr_m mrs1) (loc_of_shr_record mrs1)).
  assert (H1 : m1 = shr_m mrs1 \/ m1 = shr_m mrs1 + 1) by apply round_nearest_even_cases.
  assert (H0 : 0 <= shr_m mrs1).
  { rewrite Hm1. apply Z.div_pos; [lia|apply pow2_pos; lia]. }
  destruct (shr_fexp_m m1 e1 loc_Exact ltac:(lia)) as [He2 Hm2].
  destruct (shr_fexp prec emax m1 e1 loc_Exact) as [mrs2 e2]. cbn [fst snd] in He2, Hm2.
  cbv zeta in He1, Hm1, He2, Hm2. rewrite <- He1 in Hm1. rewrite <- He2 in Hm2.
  exists m1, (shr_m mrs2). cbv zeta. rewrite <- He1, <- He2, <- Hm1. auto.
Qed.

Lemma mk_float_nonneg (m e : Z) : 0 <= m -> sign_clear (mk_float false m e).
Proof.
  intros Hm. unfold mk_float, sign_clear. destruct m as [|p|p]; [auto| |lia].
  destruct (e <=? emax - prec); eauto.
Qed.

Lemma binary_round_aux_sign_clear (m e : Z) (l : location) :
  0 <= m -> sign_clear (binary_round_aux prec emax false m e l).
Proof.
  intros Hm. destruct (binary_round_aux_general false m e l Hm) as (m1 & m2 & H1 & H2 & ->).
  apply mk_float_nonneg. subst m2.
  assert (0 <= m / 2 ^ (Z.max e (fexp prec emax (Zdigits2 m + e)) - e))
    by (apply Z.div_pos; [lia|apply pow2_pos; lia]).
  apply Z.div_pos; [lia|apply pow2_pos; lia].
Qed.

Lemma Zdigits2_div_pow2 (m n : Z) :
  0 <= m -> 0 <= n -> Zdigits2 (m / 2 ^ n) + n <= Z.max (Zdigits2 m) n.
Proof.
  intros Hm Hn. pose proof (pow2_pos n Hn) as HP.
  assert (Hq : 0 <= m / 2 ^ n) by (apply Z.div_pos; lia).
  destruct (Z.eq_dec (m / 2 ^ n) 0) as [->|Hne]; [cbn; lia|].
  pose proof (Zdigits2_bounds (m / 2 ^ n) ltac:(lia)) as [Dlo _].
  pose proof (Zdigits2_pos (m / 2 ^ n) ltac:(lia)).
  assert (0 < m).
  { destruct (Z.eq_dec m 0) as [->|]; [|lia]. rewrite Z.div_0_l in Hne; lia. }
  pose proof (Zdigits2_bounds m ltac:(lia)) as [_ Dhi].
  pose proof (Z.mul_div_le m (2 ^ n) HP).
  pose proof (Zdigits2_pos m ltac:(lia)).
  assert (Hpow : 2 ^ (Zdigits2 (m / 2 ^ n) - 1 + n) < 2 ^ Zdigits2 m).
  { rewrite pow2_split by lia. nia. }
  assert (Zdigits2 (m / 2 ^ n) - 1 + n < Zdigits2 m)
    by (apply (Z.pow_lt_mono_r_iff 2); [lia|lia|exact Hpow]).
  lia.
Qed.

Lemma Zdigits2_succ (m : Z) : 0 <= m -> Zdigits2 (m + 1) <= Zdigits2 m + 1.
Proof.
  intros Hm. destruct (Z.eq_dec m 0) as [->|]; [vm_compute; discriminate|].
  pose proof (Zdigits2_bounds m ltac:(lia)) as [_ Dhi].
  pose proof (Zdigits2_pos m ltac:(lia)).
  apply Zdigits2_le_pow; [lia|]. rewrite (pow2_split _ 1) by lia.
  change (2 ^ 1) with 2. lia.
Qed.

Lemma Zdigits2_mono (a b : Z) : 0 <= a <= b -> Zdigits2 a <= Zdigits2 b.
Proof.
  intros [Ha Hab]. destruct (Z.eq_dec b 0) as [->|]; [replace a with 0 by lia; lia|].
  pose proof (Zdigits2_bounds b ltac:(lia)) as [_ Dhi].
  pose proof (Zdigits2_pos b ltac:(lia)).
  apply Zdigits2_le_pow; lia.
Qed.

(** No overflow when the magnitude of the input leaves room. *)
Lemma binary_round_aux_no_overflow (m e : Z) (l : location) :
  0 <= m -> e <= 104 -> Zdigits2 m + e <= 127 ->
  binary_round_aux prec emax false m e l = S754_zero false \/
  exists m' e', binary_round_aux prec emax false m e l = S754_finite false m' e'.
Proof.
  intros Hm He HD.
  destruct (binary_round_aux_general false m e l Hm) as (m1 & m2 & H1 & H2 & ->).
  cbv zeta in *. rewrite !fexp_spec in *.
  set (e1 := Z.max e (Z.max (Zdigits2 m + e - 24) (-149))) in *.
  assert (He1 : e <= e1 <= 104) by lia.
  pose proof (Zdigits2_div_pow2 m (e1 - e) Hm ltac:(lia)) as Hd.
  assert (Hq : 0 <= m / 2 ^ (e1 - e)) by (apply Z.div_pos; [lia|apply pow2_pos; lia]).
  pose proof (Zdigits2_succ (m / 2 ^ (e1 - e)) Hq) as Hs.
  assert (Hm1 : 0 <= m1) by lia.
  assert (Hd1 : Zdigits2 m1 + e1 <= 128) by (destruct H1 as [-> | ->]; lia).
  assert (Hm2 : 0 <= m2) by (subst m2; apply Z.div_pos; [lia|apply pow2_pos; lia]).
  unfold mk_float. destruct m2 as [|p|p]; [now left|right|lia].
  destruct (Z.leb_spec (Z.max e1 (Z.max (Zdigits2 m1 + e1 - 24) (-149))) (emax - prec)) as [_|Hc];
    [eauto|]. change (emax - prec) with 104 in Hc. lia.
Qed.

(** ** Products, quotients and sums on the way to the tail of
    [calc_trigamma] *)

Lemma binary_round_noalign (s : bool) (p : positive) (e : Z) :
  e <= fexp prec emax (Zpos (digits2_pos p) + e) ->
  binary_round prec emax s p e = binary_round_aux prec emax s (Zpos p) e loc_Exact.
Proof.
  intros H. unfold binary_round, shl_align.
  destruct (fexp prec emax (Zpos (digits2_pos p) + e) - e) eqn:E; try reflexivity. lia.
Qed.

Lemma binary_round_sign_clear (p : positive) (e : Z) :
  sign_clear (binary_round prec emax false p e).
Proof.
  unfold binary_round. destruct (shl_align p e _) as [mz ez].
  apply binary_round_aux_sign_clear. lia.
Qed.

(** A valid number that is at least 1: plus infinity, or a positive
    normal number. *)
Lemma ge_one_cases (x : float) :
  valid x = true -> SFleb (of_Z 1) x = true ->
  x = S754_infinity false \/
  exists m e, x = S754_finite false m e /\ bounded prec emax m e = true /\
              2 ^ 149 <= Zpos m * 2 ^ (e + 149).
Proof.
  intros Vx Hle. pose proof (SFleb_true_not_nan _ _ Hle) as Nx.
  destruct (of_Z_small 1 ltac:(lia)) as ((V1 & _) & N1 & X1).
  rewrite SFleb_correct in Hle by assumption. apply Z.leb_le in Hle. rewrite X1 in Hle.
  pose proof (pow2_pos 149 ltac:(lia)). pose proof (pow2_pos 300 ltac:(lia)).
  destruct x as [s|[]| |[] m e]; try discriminate; cbn [xval cond_Zopp] in Hle; try lia.
  - now left.
  - right. exists m, e. split; [reflexivity|]. split; [exact Vx|]. lia.
Qed.

Lemma ge_one_exponent (m : positive) (e : Z) :
  bounded prec emax m e = true -> 2 ^ 149 <= Zpos m * 2 ^ (e + 149) ->
  -23 <= e /\ 2 ^ 23 <= Zpos m.
Proof.
  intros Hb Hv. pose proof (bounded_range m e Hb) as (He & Hm & Hn).
  assert (-23 <= e).
  { destruct (Z_le_gt_dec (-23) e) as [|Hlt]; [assumption|exfalso].
    pose proof (pow2_pos (e + 149) ltac:(lia)).
    assert (2 ^ (e + 149) <= 2 ^ 125) by (apply Z.pow_le_mono_r; lia).
    assert (2 ^ 24 * 2 ^ 125 = 2 ^ 149) by reflexivity. nia. }
  split; [assumption|]. apply Hn. lia.
Qed.

Lemma mul_self_ge_one (x : float) :
  valid x = true -> SFleb (of_Z 1) x = true ->
  (x * x)%f32 = S754_infinity false \/
  exists m e, (x * x)%f32 = S754_finite false m e /\ bounded prec emax m e = true /\
              2 ^ 149 <= Zpos m * 2 ^ (e + 149).
Proof.
  intros Vx Hle.
  destruct (ge_one_cases x Vx Hle) as [->|(m & e & -> & Hb & Hv)]; [now left|].
  destruct (ge_one_exponent m e Hb Hv) as [He Hm].
  unfold mul. cbn [SFmul xorb].
  assert (Hd : 47 <= Zpos (digits2_pos (m * m))).
  { change (Zpos (digits2_pos (m * m))) with (Zdigits2 (Zpos (m * m))).
    apply (Zdigits2_ge_pow _ 46); [lia|]. rewrite Pos2Z.inj_mul.
    change (2 ^ 46) with (2 ^ 23 * 2 ^ 23). nia. }
  rewrite <- binary_round_noalign by (rewrite fexp_spec; lia).
  destruct (binary_round_between false (m * m) (e + e) ltac:(lia))
    as (Vr & Nr & A & HA & HA0 & Hlo & _).
  assert (HU : 2 ^ 149 <= A).
  { apply (Hlo 8388608%positive (-23)); [reflexivity|].
    change (Zpos 8388608 * 2 ^ (-23 + 149)) with (2 ^ 149).
    pose proof (pow2_pos (e + 149) ltac:(lia)) as HP.
    assert (E : 2 ^ (e + e + 149) * 2 ^ 149 = 2 ^ (e + 149) * 2 ^ (e + 149)).
    { rewrite <- !pow2_split by lia. f_equal. lia. }
    pose proof (pow2_pos (e + e + 149) ltac:(lia)).
    pose proof (pow2_pos 149 ltac:(lia)).
    rewrite Pos2Z.inj_mul. nia. }
  cbn [cond_Zopp] in HA.
  pose proof (pow2_pos 149 ltac:(lia)).
  destruct (binary_round prec emax false (m * m) (e + e)) as [s|[]| |[] m' e'];
    try discriminate; cbn [xval cond_Zopp] in HA; try lia.
  - now left.
  - right. exists m', e'. split; [reflexivity|]. split; [exact Vr|]. lia.
Qed.

Lemma div_eucl_fst (a b : Z) : fst (Z.div_eucl a b) = a / b.
Proof. reflexivity. Qed.

(** The quotient of 1 by a number that is at least 1 does not overflow. *)
Lemma div_one_by_ge_one (m : positive) (e : Z) :
  bounded prec emax m e = true -> 2 ^ 149 <= Zpos m * 2 ^ (e + 149) ->
  (of_Z 1 / S754_finite false m e)%f32 = S754_zero false \/
  exists m' e', (of_Z 1 / S754_finite false m e)%f32 = S754_finite false m' e'.
Proof.
  intros Hb Hv. destruct (ge_one_exponent m e Hb Hv) as [He Hm].
  pose proof (bounded_range m e Hb) as (He104 & Hm24 & _).
  rewrite of_Z_1. unfold div. cbn [SFdiv xorb]. unfold SFdiv_core_binary.
  change (Zdigits2 (Zpos 8388608)) with 24.
  assert (Hd : Zdigits2 (Zpos m) = 24).
  { apply Zdigits2_unique; lia. }
  rewrite Hd, fexp_spec.
  set (e' := Z.min (Z.max (24 + -23 - (24 + e) - 24) (-149)) (-23 - e)).
  assert (He' : -47 - e <= e' <= -23 - e - 22) by (subst e'; lia).
  set (sh := -23 - e - e') in *.
  assert (Hsh : 22 <= sh <= 24) by (subst sh; lia).
  assert (Hm' : match sh with
                | Zpos _ => Z.shiftl (Zpos 8388608) sh
                | Z0 => Zpos 8388608
                | Zneg _ => 0
                end = 2 ^ 23 * 2 ^ sh).
  { destruct sh as [|p|p]; try lia. now rewrite Z.shiftl_mul_pow2 by lia. }
  rewrite Hm'. clear Hm'.
  pose proof (pow2_pos sh ltac:(lia)) as HS.
  pose proof (div_eucl_fst (2 ^ 23 * 2 ^ sh) (Zpos m)) as Hq.
  destruct (Z.div_eucl (2 ^ 23 * 2 ^ sh) (Zpos m)) as [q r]. cbn [fst] in Hq. subst q.
  assert (Hq0 : 0 <= 2 ^ 23 * 2 ^ sh / Zpos m) by (apply Z.div_pos; lia).
  assert (Hqs : 2 ^ 23 * 2 ^ sh / Zpos m < 2 ^ (sh + 1)).
  { apply Z.div_lt_upper_bound; [lia|]. rewrite (pow2_split sh 1) by lia.
    change (2 ^ 1) with 2. nia. }
  apply binary_round_aux_no_overflow; [exact Hq0|lia|].
  pose proof (Zdigits2_le_pow _ (sh + 1) ltac:(lia) (conj Hq0 Hqs)). lia.
Qed.

Lemma div_one_sign_clear (v : float) :
  sign_clear v -> sign_clear (of_Z 1 / v)%f32.
Proof.
  rewrite of_Z_1. intros [->|[->|(m & e & ->)]]; unfold div; cbn [SFdiv xorb].
  - right; now left.
  - now left.
  - unfold SFdiv_core_binary.
    match goal with
    | |- context [Z.div_eucl ?a ?b] =>
        pose proof (div_eucl_fst a b) as Hq;
        assert (Ha : 0 <= a);
        [|destruct (Z.div_eucl a b) as [q r]; cbn [fst] in Hq; subst q;
          apply binary_round_aux_sign_clear; apply Z.div_pos; lia]
    end.
    destruct (_ - _ - _) as [|p|p]; [lia| |lia].
    rewrite Z.shiftl_mul_pow2 by lia. pose proof (pow2_pos (Zpos p) ltac:(lia)). lia.
Qed.

Lemma mul_two_sign_clear (x : float) :
  x = S754_infinity false \/ (exists m e, x = S754_finite false m e) ->
  sign_clear (of_Z 2 * x)%f32.
Proof.
  change (of_Z 2) with (S754_finite false 8388608 (-22)).
  intros [->|(m & e & ->)]; unfold mul; cbn [SFmul xorb].
  - right; now left.
  - apply binary_round_aux_sign_clear. lia.
Qed.

Lemma one_plus_sign_clear (w : float) :
  sign_clear w -> sign_clear (of_Z 1 + w)%f32.
Proof.
  rewrite of_Z_1. intros [->|[->|(m & e & ->)]]; unfold add; cbn [SFadd].
  - right; right; eauto.
  - right; now left.
  - cbn [cond_Zopp]. rewrite <- Pos2Z.inj_add. cbn [binary_normalize].
    apply binary_round_sign_clear.
Qed.

Lemma add_pzero_sign_clear (u : float) : sign_clear u -> (u + pzero)%f32 = u.
Proof. intros [->|[->|(m & e & ->)]]; reflexivity. Qed.

Lemma mul_pzero (i : float) :
  i = S754_zero false \/ (exists m e, i = S754_finite false m e) ->
  (i * pzero)%f32 = pzero.
Proof. intros [->|(m & e & ->)]; reflexivity. Qed.

(** The tail of [calc_trigamma] on a number that is at least 1. *)
Lemma trigamma_tail_ge_one (x : float) :
  valid x = true -> SFleb (of_Z 1) x = true ->
  trigamma_tail x = ((of_Z 1 + of_Z 1 / (of_Z 2 * x)) / x)%f32.
Proof.
  intros Vx Hle. unfold trigamma_tail.
  change (of_Z (Z.quot 1 6)) with pzero.
  change (of_Z (Z.quot 1 3)) with pzero.
  change (of_Z (Z.quot 1 42)) with pzero.
  assert (Hixx : (of_Z 1 / (x * x))%f32 = S754_zero false \/
                 exists m e, (of_Z 1 / (x * x))%f32 = S754_finite false m e).
  { destruct (mul_self_ge_one x Vx Hle) as [->|(m & e & -> & Hb & Hv)].
    - left. rewrite of_Z_1. reflexivity.
    - now apply div_one_by_ge_one. }
  set (ixx := (of_Z 1 / (x * x))%f32) in *.
  rewrite (mul_pzero ixx Hixx).
  change (pzero - pzero)%f32 with pzero.
  rewrite (mul_pzero ixx Hixx).
  change (pzero - pzero)%f32 with pzero.
  rewrite (mul_pzero ixx Hixx).
  rewrite add_pzero_sign_clear; [reflexivity|].
  apply one_plus_sign_clear, div_one_sign_clear, mul_two_sign_clear.
  destruct (ge_one_cases x Vx Hle) as [->|(m & e & -> & _)]; eauto.
Qed.

Lemma trigamma_tail_nan :
  trigamma_tail S754_nan = ((of_Z 1 + of_Z 1 / (of_Z 2 * S754_nan)) / S754_nan)%f32.
Proof. reflexivity. Qed.

(** ** Signs that sums, products and quotients keep *)

Lemma sub_nan_r (x : float) : (x - S754_nan)%f32 = S754_nan.
Proof. now destruct x. Qed.

(** A valid number that is not below zero is at least zero, unless it is a
    NaN. *)
Lemma not_ltb_zero_leb (x : float) :
  valid x = true -> not_nan x = true -> (x <? of_Z 0)%f32 = false ->
  SFleb (of_Z 0) x = true.
Proof.
  intros Vx Nx H.
  destruct (of_Z_small 0 ltac:(lia)) as ((V0 & _) & N0 & X0).
  unfold ltb in H. rewrite SFltb_correct in H by assumption.
  rewrite SFleb_correct by assumption. apply Z.ltb_ge in H. apply Z.leb_le. lia.
Qed.

Lemma never_negative_add (a b : float) :
  never_negative a -> never_negative b -> never_negative (a + b)%f32.
Proof.
  intros [->|Ha]; [now left|]. intros [->|Hb]; [left; now destruct a|].
  right. destruct Ha as [->|[->|(m & e & ->)]], Hb as [->|[->|(m' & e' & ->)]];
    unfold add; cbn [SFadd]; try (unfold sign_clear; now eauto 6).
  cbn [cond_Zopp]. rewrite <- Pos2Z.inj_add. cbn [binary_normalize].
  apply binary_round_sign_clear.
Qed.

Lemma never_negative_mul (a b : float) :
  never_negative a -> never_negative b -> never_negative (a * b)%f32.
Proof.
  intros [->|Ha]; [now left|]. intros [->|Hb]; [left; now destruct a|].
  destruct Ha as [->|[->|(m & e & ->)]], Hb as [->|[->|(m' & e' & ->)]];
    unfold mul; cbn [SFmul xorb]; try (now left); try (right; unfold sign_clear; now eauto 6).
  right. apply binary_round_aux_sign_clear. lia.
Qed.

Lemma never_negative_div (a b : float) :
  never_negative a -> never_negative b -> never_negative (a / b)%f32.
Proof.
  intros [->|Ha]; [now left|]. intros [->|Hb]; [left; now destruct a|].
  destruct Ha as [->|[->|(m & e & ->)]], Hb as [->|[->|(m' & e' & ->)]];
    unfold div; cbn [SFdiv xorb]; try (now left); try (right; unfold sign_clear; now eauto 6).
  right. unfold SFdiv_core_binary.
  match goal with
  | |- context [Z.div_eucl ?a ?b] =>
      pose proof (div_eucl_fst a b) as Hq;
      assert (Ha : 0 <= a);
      [|destruct (Z.div_eucl a b) as [q r]; cbn [fst] in Hq; subst q;
        apply binary_round_aux_sign_clear; apply Z.div_pos; lia]
  end.
  destruct (_ - _ - _) as [|p|p]; [lia| |lia].
  rewrite Z.shiftl_mul_pow2 by lia. pose proof (pow2_pos (Zpos p) ltac:(lia)). nia.
Qed.

Lemma never_negative_of_Z (n : Z) : 0 <= n -> never_negative (of_Z n).
Proof.
  intros Hn. right. unfold of_Z. destruct n as [|p|p]; [now left| |lia].
  cbn [binary_normalize]. apply binary_round_sign_clear.
Qed.

Lemma never_negative_ltb (r : float) :
  never_negative r -> (r <? of_Z 0)%f32 = false.
Proof. intros [->|[->|[->|(m & e & ->)]]]; reflexivity. Qed.

Lemma sign_clear_add (a b : float) :
  sign_clear a -> sign_clear b -> sign_clear (a + b)%f32.
Proof.
  intros Ha Hb.
  destruct Ha as [->|[->|(m & e & ->)]], Hb as [->|[->|(m' & e' & ->)]];
    unfold add; cbn [SFadd]; try (unfold sign_clear; now eauto 6).
  cbn [cond_Zopp]. rewrite <- Pos2Z.inj_add. cbn [binary_normalize].
  apply binary_round_sign_clear.
Qed.

Lemma sign_clear_square (x : float) : sign_clear x -> sign_clear (x * x)%f32.
Proof.
  intros [->|[->|(m & e & ->)]]; unfold mul; cbn [SFmul xorb];
    try (unfold sign_clear; now eauto 6).
  apply binary_round_aux_sign_clear. lia.
Qed.

Lemma sign_clear_one_mul (r : float) : sign_clear r -> sign_clear (of_Z 1 * r)%f32.
Proof.
  rewrite of_Z_1.
  intros [->|[->|(m & e & ->)]]; unfold mul; cbn [SFmul xorb];
    try (unfold sign_clear; now eauto 6).
  apply binary_round_aux_sign_clear. lia.
Qed.

(** The quotient by a positive number that is not infinite. *)
Lemma sign_clear_div_finite (a : float) (m : positive) (e : Z) :
  sign_clear a -> sign_clear (a / S754_finite false m e)%f32.
Proof.
  intros Ha.
  destruct (never_negative_div a (S754_finite false m e) (or_intror Ha)) as [E|H];
    [right; right; eauto| |exact H].
  exfalso. revert E.
  destruct Ha as [->|[->|(m' & e' & ->)]]; unfold div; cbn [SFdiv xorb]; try discriminate.
  unfold SFdiv_core_binary.
  match goal with
  | |- context [Z.div_eucl ?a ?b] =>
      pose proof (div_eucl_fst a b) as Hq;
      assert (Ha : 0 <= a);
      [|destruct (Z.div_eucl a b) as [q r]; cbn [fst] in Hq; subst q]
  end.
  { destruct (_ - _ - _) as [|p|p]; [lia| |lia].
    rewrite Z.shiftl_mul_pow2 by lia. pose proof (pow2_pos (Zpos p) ltac:(lia)). nia. }
  match goal with
  | |- binary_round_aux _ _ false ?q ?e ?l = _ -> _ =>
      destruct (binary_round_aux_sign_clear q e l) as [->|[->|(m2 & e2 & ->)]];
        [apply Z.div_pos; lia|discriminate..]
  end.
Qed.

(** ** The integral part of a number in [1, 12) *)

(** [static_cast<int>(floor(x)) - 1] on a number in [1, 12). *)
Lemma floor_below_twelve (m : positive) (e : Z) :
  bounded prec emax m e = true ->
  2 ^ 149 <= Zpos m * 2 ^ (e + 149) < 12 * 2 ^ 149 ->
  exists n,
    0 <= n <= 10 /\ -23 <= e <= -20 /\
    wrap32 (to_int (floor (S754_finite false m e)) - 1) = n /\
    (n + 1) * 2 ^ (- e) <= Zpos m < (n + 2) * 2 ^ (- e).
Proof.
  intros Hb [Hlo Hhi]. destruct (ge_one_exponent m e Hb Hlo) as [He Hm].
  pose proof (bounded_range m e Hb) as (_ & Hm24 & _).
  assert (He' : e <= -20).
  { destruct (Z_le_gt_dec e (-20)) as [|Hgt]; [assumption|exfalso].
    assert (2 ^ 130 <= 2 ^ (e + 149)) by (apply Z.pow_le_mono_r; lia).
    assert (2 ^ 23 * 2 ^ 130 = 16 * 2 ^ 149) by reflexivity.
    pose proof (pow2_pos 149 ltac:(lia)). nia. }
  assert (Hsplit : 2 ^ 149 = 2 ^ (- e) * 2 ^ (e + 149)).
  { rewrite <- pow2_split by lia. f_equal. lia. }
  pose proof (pow2_pos (e + 149) ltac:(lia)) as HP.
  pose proof (pow2_pos (- e) ltac:(lia)) as HQ.
  set (q := Zpos m / 2 ^ (- e)).
  assert (Hq : 1 <= q <= 11).
  { subst q. split.
    - apply Z.div_le_lower_bound; [lia|]. nia.
    - assert (Zpos m / 2 ^ (- e) < 12); [|lia].
      apply Z.div_lt_upper_bound; [lia|]. nia. }
  assert (Hqm : q * 2 ^ (- e) <= Zpos m < (q + 1) * 2 ^ (- e)).
  { subst q. pose proof (Z.mul_div_le (Zpos m) (2 ^ (- e)) HQ).
    pose proof (Z.mul_succ_div_gt (Zpos m) (2 ^ (- e)) HQ). lia. }
  exists (q - 1). split; [lia|]. split; [lia|]. split; [|split; [|replace (q - 1 + 2) with (q + 1)]; lia].
  unfold floor. destruct (Z.leb_spec 0 e) as [|_]; [lia|]. cbv zeta iota.
  rewrite Z.shiftr_div_pow2 by lia. fold q.
  assert (Hc : q = 1 \/ q = 2 \/ q = 3 \/ q = 4 \/ q = 5 \/ q = 6 \/ q = 7 \/ q = 8 \/
               q = 9 \/ q = 10 \/ q = 11) by lia.
  clearbody q.
  repeat (destruct Hc as [->|Hc]); [..|subst q]; reflexivity.
Qed.

(** ** Rounding to nearest *)

(** The round bit and the sticky bit after one shift. *)
Lemma shr_1_rs (mrs : shr_record) :
  0 <= shr_m mrs ->
  shr_r (shr_1 mrs) = Z.odd (shr_m mrs) /\ shr_s (shr_1 mrs) = shr_r mrs || shr_s mrs.
Proof.
  destruct mrs as [m r s]. cbn [shr_m]. intros Hm.
  destruct m as [|[p|p|]|p]; try lia; cbn; auto.
Qed.

(** The rest modulo [2^k] is the rest modulo [2^(k-1)] plus the bit above it. *)
Lemma mod_pow2_half (m k : Z) :
  0 < k -> 0 <= m ->
  m mod 2 ^ k = m mod 2 ^ (k - 1) + 2 ^ (k - 1) * (if Z.odd (m / 2 ^ (k - 1)) then 1 else 0).
Proof.
  intros Hk Hm. pose proof (pow2_pos (k - 1) ltac:(lia)) as HP.
  replace k with ((k - 1) + 1) at 1 by lia.
  rewrite (pow2_split (k - 1) 1) by lia. change (2 ^ 1) with 2.
  rewrite Z.rem_mul_r by lia. now rewrite Zmod_odd.
Qed.

(** After [n] shifts of an exact mantissa, the round bit is bit [n - 1] and the
    sticky bit tells whether the bits below it are all zero. *)
Lemma shr_iter_rs (m : Z) (n : positive) :
  0 <= m ->
  let mrs := SpecFloat.iter_pos shr_1 n {| shr_m := m; shr_r := false; shr_s := false |} in
  shr_m mrs = m / 2 ^ Zpos n /\
  shr_r mrs = Z.odd (m / 2 ^ (Zpos n - 1)) /\
  shr_s mrs = negb (m mod 2 ^ (Zpos n - 1) =? 0).
Proof.
  intros Hm.
  pose (Inv := fun (k : Z) (x : shr_record) =>
                 shr_m x = m / 2 ^ k /\
                 (k = 0 -> shr_r x = false /\ shr_s x = false) /\
                 (0 < k -> shr_r x = Z.odd (m / 2 ^ (k - 1)) /\
                           shr_s x = negb (m mod 2 ^ (k - 1) =? 0))).
  assert (Hstep : forall k x, 0 <= k -> Inv k x -> Inv (k + 1) (shr_1 x)).
  { intros k x Hk (Hx & H0 & Hpos).
    assert (Hp : 0 < 2 ^ k) by (apply pow2_pos; lia).
    assert (Hx0 : 0 <= shr_m x) by (rewrite Hx; apply Z.div_pos; lia).
    destruct (shr_1_spec x Hx0) as [H1 _]. destruct (shr_1_rs x Hx0) as [Hr Hs].
    split; [|split]; [|lia|intros _].
    - rewrite H1, Hx, Z.div_div by lia. rewrite (pow2_split k 1) by lia. reflexivity.
    - replace (k + 1 - 1) with k by lia. split; [now rewrite Hr, Hx|].
      rewrite Hs. destruct (Z.eq_dec k 0) as [->|Hne].
      + destruct (H0 eq_refl) as [-> ->]. now rewrite Z.pow_0_r, Z.mod_1_r.
      + destruct (Hpos ltac:(lia)) as [-> ->].
        replace k with ((k - 1) + 1) at 3 by lia.
        rewrite mod_pow2_succ by lia.
        rewrite negb_andb, <- Z.negb_even. apply orb_comm. }
  pose proof (iter_pos_invariant shr_1 Inv Hstep n 0
                {| shr_m := m; shr_r := false; shr_s := false |} ltac:(lia)) as H.
  cbn [Z.add] in H. destruct H as (H1 & _ & H2).
  - split; [cbn; now rewrite Z.div_1_r|]. split; [auto|lia].
  - cbv zeta. split; [exact H1|]. apply H2. lia.
Qed.

(** The mantissa chosen by [round_nearest_even] is within half a unit of the
    exact one. *)
Lemma round_nearest_even_near (m k : Z) (mrs : shr_record) :
  0 <= m -> 0 < k ->
  shr_m mrs = m / 2 ^ k ->
  shr_r mrs = Z.odd (m / 2 ^ (k - 1)) ->
  shr_s mrs = negb (m mod 2 ^ (k - 1) =? 0) ->
  2 * Z.abs (round_nearest_even (shr_m mrs) (loc_of_shr_record mrs) * 2 ^ k - m) <= 2 ^ k.
Proof.
  intros Hm Hk Eq Er Es.
  pose proof (pow2_pos (k - 1) ltac:(lia)) as HP.
  assert (E2 : 2 ^ k = 2 * 2 ^ (k - 1)).
  { replace k with (1 + (k - 1)) at 1 by lia. now rewrite (pow2_split 1 (k - 1)) by lia. }
  pose proof (Z.div_mod m (2 ^ k) ltac:(lia)) as Hdm.
  pose proof (mod_pow2_half m k Hk Hm) as Hh.
  pose proof (Z.mod_pos_bound m (2 ^ (k - 1)) HP) as Hlow.
  destruct mrs as [q r s]. cbn [shr_m shr_r shr_s] in *. subst q.
  set (q := m / 2 ^ k) in *. set (H := 2 ^ (k - 1)) in *. set (low := m mod H) in *.
  rewrite E2 in *.
  destruct r, s; cbn [loc_of_shr_record round_nearest_even];
    rewrite <- Er in Hh; symmetry in Es.
  - apply negb_true_iff, Z.eqb_neq in Es. lia.
  - apply negb_false_iff, Z.eqb_eq in Es. destruct (Z.even q); lia.
  - apply negb_true_iff, Z.eqb_neq in Es. lia.
  - apply negb_false_iff, Z.eqb_eq in Es. lia.
Qed.

Lemma shr_fexp_shift_rs (m e : Z) :
  0 <= m -> e < fexp prec emax (Zdigits2 m + e) ->
  exists mrs,
    shr_fexp prec emax m e loc_Exact = (mrs, fexp prec emax (Zdigits2 m + e)) /\
    shr_m mrs = m / 2 ^ (fexp prec emax (Zdigits2 m + e) - e) /\
    inexact mrs = negb (m mod 2 ^ (fexp prec emax (Zdigits2 m + e) - e) =? 0) /\
    2 * Z.abs (round_nearest_even (shr_m mrs) (loc_of_shr_record mrs)
               * 2 ^ (fexp prec emax (Zdigits2 m + e) - e) - m)
      <= 2 ^ (fexp prec emax (Zdigits2 m + e) - e).
Proof.
  intros Hm Hlt. unfold shr_fexp, shr. set (t := fexp prec emax (Zdigits2 m + e)) in *.
  destruct (t - e) as [|n|n] eqn:E; try lia.
  eexists. split; [f_equal; lia|].
  cbn [shr_record_of_loc].
  destruct (shr_iter_spec m n Hm) as [H1 H2]. destruct (shr_iter_rs m n Hm) as (_ & H3 & H4).
  split; [exact H1|]. split; [exact H2|].
  apply round_nearest_even_near; try lia; assumption.
Qed.

(** [binary_round_aux] on an exact positive input that loses bits. *)
Lemma binary_round_aux_nearest (s : bool) (m : positive) (e : Z) :
  let t := fexp prec emax (Zpos (digits2_pos m) + e) in
  e < t ->
  exists m1,
    Zpos m / 2 ^ (t - e) <= m1 <= Zpos m / 2 ^ (t - e) + 1 /\
    2 * Z.abs (m1 * 2 ^ (t - e) - Zpos m) <= 2 ^ (t - e) /\
    binary_round_aux prec emax s (Zpos m) e loc_Exact =
      if m1 =? 2 ^ 24 then mk_float s (2 ^ 23) (t + 1) else mk_float s m1 t.
Proof.
  intros t Ht. rewrite binary_round_aux_unfold.
  destruct (shr_fexp_shift_rs (Zpos m) e ltac:(lia) Ht) as (mrs & -> & Hq & Hi & Hnear).
  change (fexp prec emax (Zdigits2 (Z.pos m) + e)) with t in *.
  destruct (round_nearest_even_spec mrs) as [Hm1 Hexact].
  set (m1 := round_nearest_even (shr_m mrs) (loc_of_shr_record mrs)) in *.
  assert (Hp : 0 < 2 ^ (t - e)) by (apply Z.pow_pos_nonneg; lia).
  assert (Hq0 : 0 <= Zpos m / 2 ^ (t - e)) by (apply Z.div_pos; lia).
  assert (Hq24 : Zpos m / 2 ^ (t - e) < 2 ^ 24).
  { apply Z.div_lt_upper_bound; [lia|].
    rewrite <- Z.pow_add_r by lia.
    pose proof (digits2_pos_bounds m) as [_ Hd].
    eapply Z.lt_le_trans; [exact Hd|].
    apply Z.pow_le_mono_r; [lia|]. subst t. rewrite fexp_spec in *. lia. }
  exists m1. split; [lia|]. split; [exact Hnear|].
  assert (Ht149 : -149 <= t) by (subst t; rewrite fexp_spec; lia).
  rewrite shr_fexp_renormalize by lia.
  now destruct (m1 =? 2 ^ 24).
Qed.

(** [binary_round] moves a value by at most half the spacing of the numbers
    at its exponent, when it does not overflow. *)
Lemma binary_round_nearest (s : bool) (m : positive) (e : Z) :
  -149 <= e -> Zpos (digits2_pos m) + e <= 127 ->
  2 * Z.abs (xval (binary_round prec emax s m e) - cond_Zopp s (Zpos m * 2 ^ (e + 149)))
  <= 2 ^ (Z.max (Zpos (digits2_pos m) + e - 24) (-149) + 149).
Proof.
  intros He Hd. unfold binary_round.
  set (t := fexp prec emax (Zpos (digits2_pos m) + e)).
  assert (Ht : t = Z.max (Zpos (digits2_pos m) + e - 24) (-149)) by reflexivity.
  rewrite <- Ht. clearbody t.
  destruct (shl_align_spec m e t) as [Hez Hmz].
  destruct (shl_align m e t) as [mz ez]. cbn [fst snd] in Hez, Hmz.
  assert (Hdz : Zpos (digits2_pos mz) + ez = Zpos (digits2_pos m) + e).
  { change (Zpos (digits2_pos mz)) with (Zdigits2 (Zpos mz)).
    rewrite Hmz, Zdigits2_shift by lia. cbn [Zdigits2]. lia. }
  pose proof (pow2_pos (t + 149) ltac:(lia)) as HT.
  destruct (Z_le_gt_dec t e) as [Hle|Hgt].
  - pose proof (binary_round_aux_exact s mz ez) as [Hexact _].
    cbv zeta in Hexact. rewrite Hdz, fexp_spec, <- Ht in Hexact.
    subst ez. rewrite (Z.min_r e t) in * by lia. rewrite Hexact by lia.
    assert (HN : Zpos mz * 2 ^ (t + 149) = Zpos m * 2 ^ (e + 149)).
    { rewrite Hmz, <- Z.mul_assoc, <- pow2_split by lia. do 2 f_equal. lia. }
    unfold mk_float. destruct (Z.leb_spec t (emax - prec)) as [Hfit|Hover].
    + cbn [xval]. rewrite HN. destruct s; cbn [cond_Zopp]; lia.
    + change (emax - prec) with 104 in Hover. lia.
  - subst ez. rewrite (Z.min_l e t) in * by lia.
    assert (mz = m) by (rewrite Z.sub_diag in Hmz; cbn in Hmz; lia).
    subst mz. clear Hmz Hdz.
    pose proof (binary_round_aux_nearest s m e) as Hn. cbv zeta in Hn.
    rewrite fexp_spec, <- Ht in Hn.
    destruct (Hn ltac:(lia)) as (m1 & Hm1 & Hnear & ->). clear Hn.
    pose proof (truncation_ge_pow23 m (t - e) ltac:(lia) ltac:(lia)) as Hq23.
    pose proof (pow2_pos (t - e) ltac:(lia)) as HQ.
    pose proof (pow2_pos (e + 149) ltac:(lia)) as HE.
    assert (Et : 2 ^ (t + 149) = 2 ^ (t - e) * 2 ^ (e + 149))
      by (rewrite <- pow2_split by lia; f_equal; lia).
    assert (Hx : xval (if m1 =? 2 ^ 24 then mk_float s (2 ^ 23) (t + 1) else mk_float s m1 t)
                 = cond_Zopp s (m1 * 2 ^ (t + 149))).
    { destruct (Z.eqb_spec m1 (2 ^ 24)) as [E24|N24].
      - unfold mk_float. change (2 ^ 23) with (Zpos 8388608).
        destruct (Z.leb_spec (t + 1) (emax - prec)) as [_|Hc];
          [|change (emax - prec) with 104 in Hc; lia].
        cbn [xval]. f_equal. rewrite E24.
        replace (t + 1 + 149) with (1 + (t + 149)) by lia.
        rewrite pow2_split by lia. cbn. lia.
      - destruct m1 as [|p|p]; try lia. unfold mk_float.
        destruct (Z.leb_spec t (emax - prec)) as [_|Hc];
          [|change (emax - prec) with 104 in Hc; lia].
        reflexivity. }
    rewrite Hx, Et.
    assert (Z.abs (cond_Zopp s (m1 * (2 ^ (t - e) * 2 ^ (e + 149)))
                   - cond_Zopp s (Zpos m * 2 ^ (e + 149)))
            = Z.abs (m1 * 2 ^ (t - e) - Zpos m) * 2 ^ (e + 149)) as ->.
    { destruct s; cbn [cond_Zopp]; nia. }
    nia.
Qed.

Lemma binary_normalize_nearest (M e : Z) :
  -149 <= e -> Zdigits2 (Z.abs M) + e <= 127 ->
  2 * Z.abs (xval (binary_normalize prec emax M e false) - M * 2 ^ (e + 149))
  <= 2 ^ (Z.max (Zdigits2 (Z.abs M) + e - 24) (-149) + 149).
Proof.
  intros He Hd. destruct M as [|m|m]; cbn [binary_normalize].
  - cbn [xval]. rewrite Z.mul_0_l. cbn [Z.sub Z.abs Z.mul Z.opp].
    apply Z.lt_le_incl, pow2_pos. lia.
  - apply (binary_round_nearest false m e He Hd).
  - replace (Z.neg m * 2 ^ (e + 149)) with (cond_Zopp true (Zpos m * 2 ^ (e + 149)))
      by (cbn [cond_Zopp]; lia).
    apply (binary_round_nearest true m e He Hd).
Qed.

Lemma Zdigits2_scaled (M k : Z) :
  M <> 0 -> 0 <= k -> Zdigits2 (Z.abs (M * 2 ^ k)) = Zdigits2 (Z.abs M) + k.
Proof.
  intros HM Hk. pose proof (pow2_pos k Hk).
  rewrite Z.abs_mul, (Z.abs_eq (2 ^ k)) by lia.
  apply Zdigits2_shift; lia.
Qed.

Lemma ulp_pos (N : Z) : 0 < ulp N.
Proof. apply pow2_pos. lia. Qed.


Lemma SFsub_nearest (x y : float) :
  finite_valid x -> finite_valid y ->
  Z.abs (xval x - xval y) < 2 ^ 276 ->
  2 * Z.abs (xval (x - y)%f32 - (xval x - xval y)) <= ulp (xval x - xval y).
Proof.
  intros [Vx Fx] [Vy Fy] HN.
  pose proof (ulp_pos (xval x - xval y)) as Hu.
  assert (Hself : forall z, xval z = xval x - xval y ->
            2 * Z.abs (xval z - (xval x - xval y)) <= ulp (xval x - xval y)).
  { intros z ->. rewrite Z.sub_diag. cbn [Z.abs]. lia. }
  destruct x as [sx|sx| |sx mx ex], y as [sy|sy| |sy my ey]; try discriminate;
    unfold sub; cbn [SFsub].
  - apply Hself. now destruct sx, sy.
  - apply Hself. destruct sy; cbn [xval cond_Zopp negb]; lia.
  - apply Hself. cbn [xval]. lia.
  - clear Hself Hu.
    pose proof (bounded_range _ _ Vx) as (Hex & _). pose proof (bounded_range _ _ Vy) as (Hey & _).
    cbn [xval] in *.
    rewrite <- (aligned_value sx mx ex (Z.min ex ey)) in * by lia.
    rewrite <- (aligned_value sy my ey (Z.min ex ey)) in * by lia.
    rewrite <- Z.mul_sub_distr_r in *.
    set (M := cond_Zopp sx _ - cond_Zopp sy _) in *.
    set (e := Z.min ex ey) in *.
    destruct (Z.eq_dec M 0) as [E0|NE].
    + rewrite E0 in *. cbn [binary_normalize xval Z.mul Z.sub Z.abs].
      rewrite !Z.mul_0_l. pose proof (ulp_pos 0). lia.
    + unfold ulp. rewrite Zdigits2_scaled in * by lia.
      assert (Hd : Zdigits2 (Z.abs M) + (e + 149) <= 276).
      { rewrite <- Zdigits2_scaled by lia.
        apply Zdigits2_le_pow; lia. }
      pose proof (binary_normalize_nearest M e ltac:(lia) ltac:(lia)) as Hn.
      replace (Z.max (Zdigits2 (Z.abs M) + (e + 149) - 24) 0)
        with (Z.max (Zdigits2 (Z.abs M) + e - 24) (-149) + 149) by lia.
      exact Hn.
Qed.

(** The spacing in [1, 2) is [2^-23]. *)
Lemma ulp_binade_one (N : Z) : 2 ^ 149 <= N < 2 ^ 150 -> ulp N = 2 ^ 126.
Proof.
  intros HN. unfold ulp. rewrite Z.abs_eq by lia.
  rewrite (Zdigits2_unique N 150) by (change (150 - 1) with 149; lia).
  reflexivity.
Qed.


(** ** Products and quotients round the exact result *)













(** ** Enclosures and relative errors *)





Lemma valid_finite_of_bound (r : float) :
  valid r = true -> not_nan r = true -> Z.abs (xval r) < 2 ^ 300 -> finite_valid r.
Proof.
  intros Vr Nr Hb. split; [exact Vr|].
  destruct r as [s|s| |s m e]; try reflexivity; try discriminate.
  cbn [xval] in Hb. pose proof (pow2_pos 300 ltac:(lia)). destruct s; cbn [cond_Zopp] in Hb; lia.
Qed.








(** A valid finite number that is not zero is known by its value. *)
Lemma xval_inj (a b : float) :
  finite_valid a -> finite_valid b -> xval a = xval b -> xval a <> 0 -> a = b.
Proof.
  intros [Va Fa] [Vb Fb] E Hne.
  destruct a as [sa|sa| |sa ma ea], b as [sb|sb| |sb mb eb]; try discriminate;
    cbn [xval] in *; try lia.
  pose proof (bounded_value ma ea Va) as Ha. pose proof (bounded_value mb eb Vb) as Hb.
  destruct sa, sb; cbn [cond_Zopp] in *; try lia;
    destruct (canonical_unique ma ea mb eb Va Vb ltac:(lia)) as [-> ->]; reflexivity.
Qed.



(** ** Values as rationals *)





(** ** Relative gaps between quotients *)






(** * Properties of the kernels *)

(** ** The mutual calls of [Gamma] and [LogGamma] end after two levels *)

Section CallDepth.
Context {M : MetalMath}.

Lemma Gamma_rec_total (x : float) : exists v, Gamma_rec 2 x = Some v.
Proof.
  cbn [Gamma_rec LogGamma_rec].
  destruct (x <? dec 1 3)%f32; [eauto|].
  destruct (x <? of_Z 12)%f32 eqn:H12; [eauto|].
  destruct (x <? of_Z 0)%f32 eqn:H0.
  - apply ltb_zero_ltb_twelve in H0. congruence.
  - destruct (x =? of_Z 0)%f32; [eauto|]. rewrite H12. eauto.
Qed.

Lemma LogGamma_rec_total (x : float) : exists v, LogGamma_rec 2 x = Some v.
Proof.
  cbn [Gamma_rec LogGamma_rec].
  set (y := if (x <? of_Z 0)%f32 then (- x)%f32 else x).
  destruct (y =? of_Z 0)%f32; [eauto|].
  destruct (y <? of_Z 12)%f32 eqn:H12.
  - destruct (y <? dec 1 3)%f32; destruct (x <? of_Z 0)%f32; eauto.
  - destruct (x <? of_Z 0)%f32; eauto.
Qed.

(** Below 12, [Gamma] makes no call into the Metal library. *)
Lemma Gamma_below_12 (x : float) :
  (x <? of_Z 12)%f32 = true ->
  Gamma x =
    if (x <? dec 1 3)%f32
    then (of_Z 1 / (x * (of_Z 1 + EULER_MASCHERONI * x)))%f32
    else Gamma_reduce x.
Proof.
  intros H. unfold Gamma. cbn [Gamma_rec].
  destruct (x <? dec 1 3)%f32; [reflexivity|]. now rewrite H.
Qed.

End CallDepth.

Lemma Gamma_below_12_any_math (M1 M2 : MetalMath) (x : float) :
  (x <? of_Z 12)%f32 = true -> @Gamma M1 x = @Gamma M2 x.
Proof. intros H. now rewrite !Gamma_below_12. Qed.

(** ** Any depth from two on gives the same results *)

Section CallDepthAny.
Context {M : MetalMath}.

(** X1: [Gamma] and [LogGamma] call each other one level deep at most:
    on every input, a nesting bound of two calls or more gives the result
    of [Gamma], respectively of [LogGamma]; a bound of one call does not
    ([Gamma(12)] calls [LogGamma], [LogGamma(1)] calls [Gamma]). *)
Theorem mutual_calls_end (d : nat) (x : float) :
  Gamma_rec (S (S d)) x = Some (Gamma x) /\
  LogGamma_rec (S (S d)) x = Some (LogGamma x) /\
  Gamma_rec 1 (of_Z 12) = None /\ LogGamma_rec 1 (of_Z 1) = None.
Proof.
  split; [|split; [|split; reflexivity]].
  - unfold Gamma. cbn [Gamma_rec LogGamma_rec].
    destruct (x <? dec 1 3)%f32; [reflexivity|].
    destruct (x <? of_Z 12)%f32 eqn:H12; [reflexivity|].
    destruct (x <? of_Z 0)%f32 eqn:H0.
    + apply ltb_zero_ltb_twelve in H0. congruence.
    + destruct (x =? of_Z 0)%f32; [reflexivity|]. rewrite H12. reflexivity.
  - unfold LogGamma. cbn [Gamma_rec LogGamma_rec].
    set (y := if (x <? of_Z 0)%f32 then (- x)%f32 else x).
    destruct (y =? of_Z 0)%f32; [reflexivity|].
    destruct (y <? of_Z 12)%f32 eqn:H12; [|now destruct (x <? of_Z 0)%f32].
    destruct (y <? dec 1 3)%f32; [now destruct (x <? of_Z 0)%f32|].
    now destruct (x <? of_Z 0)%f32.
Qed.

End CallDepthAny.

(** ** The reduction identity of [Gamma] below 1 *)


Section GammaIdentity.
Context {M : MetalMath}.


End GammaIdentity.

(** ** [Gamma(x)] against [Gamma(x + 1) / x] below 1 *)

(** *** The rational approximation on [0, 1] *)











(** [Gamma_reduce] below 1, in terms of [gamma_poly]. *)
Lemma Gamma_reduce_below_one (x : float) :
  (x <? of_Z 1)%f32 = true ->
  Gamma_reduce x = (gamma_poly (x + of_Z 1 - of_Z 1) / (x + of_Z 1 - of_Z 1))%f32.
Proof.
  intros H. unfold Gamma_reduce, gamma_poly. rewrite H.
  destruct (gamma_poly_loop _ 0 8 _) as [num den]. reflexivity.
Qed.






(** *** The two sides *)

Section GammaShift.
Context {M : MetalMath}.






End GammaShift.


(** ** The reduction of [Gamma] on [1, 12) *)

Section GammaReduction.
Context {M : MetalMath}.

(** X2: for every [x] with [1 <= x < 12], the integer [n = floor(x) - 1]
    that [Gamma] subtracts is between 0 and 10, the difference [y = x - n] is
    not rounded (its value is that of [x] minus [n], values being counted in
    units of [2^-149]), [1 <= y < 2], and [Gamma(x)] is the rational
    approximation at [y - 1] plus one, multiplied [n] times by
    [y], [y + 1], ... *)
Theorem Gamma_reduction_exact (x : float) :
  valid x = true ->
  (of_Z 1 <=? x)%f32 = true ->
  (x <? of_Z 12)%f32 = true ->
  let n := wrap32 (to_int (floor x) - 1) in
  let y := (x - of_Z n)%f32 in
  0 <= n <= 10 /\
  xval y = xval x - n * 2 ^ 149 /\
  (of_Z 1 <=? y)%f32 = true /\ (y <? of_Z 2)%f32 = true /\
  Gamma x =
    (let '(num, den) := gamma_poly_loop (y - of_Z 1) 0 8 (pzero, of_Z 1) in
     fst (gamma_shift_loop (Z.to_nat n) (num / den + of_Z 1, y)))%f32.
Proof.
  intros Vx Hge Hlt. cbv zeta.
  destruct (of_Z_small 1 ltac:(lia)) as (F1 & N1 & X1).
  destruct (of_Z_small 2 ltac:(lia)) as (F2 & N2 & X2).
  destruct (of_Z_small 12 ltac:(lia)) as (F12 & N12 & X12).
  pose proof (pow2_pos 149 ltac:(lia)) as HU.
  pose proof (SFleb_true_not_nan _ _ Hge) as Nx.
  unfold ltb in Hlt. rewrite SFltb_correct in Hlt by (assumption || apply F12).
  apply Z.ltb_lt in Hlt. rewrite X12 in Hlt.
  destruct (ge_one_cases x Vx Hge) as [->|(m & e & Ex & Hb & Hv)].
  { exfalso. cbn [xval cond_Zopp] in Hlt.
    assert (2 ^ 153 < 2 ^ 300) by (apply Z.pow_lt_mono_r; lia).
    assert (12 * 2 ^ 149 < 2 ^ 153) by reflexivity. lia. }
  assert (Xx : xval x = Zpos m * 2 ^ (e + 149)) by (subst x; reflexivity).
  rewrite Xx in Hlt.
  destruct (floor_below_twelve m e Hb (conj Hv Hlt)) as (k & Hk & He & Hn & Hm).
  rewrite <- Ex in Hn. rewrite !Hn.
  destruct (of_Z_small k ltac:(lia)) as (Fk & Nk & Xk).
  assert (Fx : finite_valid x) by (split; [exact Vx|subst x; reflexivity]).
  (* the difference is representable, so it is not rounded *)
  pose proof (pow2_pos (- e) ltac:(lia)) as HQ.
  pose proof (pow2_pos (e + 149) ltac:(lia)) as HP.
  pose proof (pow2_pos (e + 23) ltac:(lia)) as HR.
  assert (Hsplit : 2 ^ 149 = 2 ^ (- e) * 2 ^ (e + 149)).
  { rewrite <- pow2_split by lia. f_equal. lia. }
  assert (Hsplit' : 2 ^ (e + 149) = 2 ^ (e + 23) * 2 ^ 126).
  { rewrite <- pow2_split by lia. f_equal. lia. }
  assert (Hsplit'' : 2 ^ 23 = 2 ^ (- e) * 2 ^ (e + 23)).
  { rewrite <- pow2_split by lia. f_equal. lia. }
  set (K := Zpos m - k * 2 ^ (- e)) in *.
  assert (HK : 2 ^ (- e) <= K < 2 * 2 ^ (- e)) by (subst K; lia).
  assert (HN : xval x - xval (of_Z k) = K * 2 ^ (e + 149)).
  { rewrite Xx, Xk, Hsplit. subst K. ring. }
  pose proof (SFsub_rounds x (of_Z k) Fx Fk) as Hr. rewrite HN in Hr.
  assert (Hpos : 0 < K * 2 ^ (e + 23)) by nia.
  assert (Hc : xval (S754_finite false (Z.to_pos (K * 2 ^ (e + 23))) (-23)) = K * 2 ^ (e + 149)).
  { cbn [xval cond_Zopp]. rewrite Z2Pos.id by exact Hpos.
    change (-23 + 149) with 126. rewrite Hsplit'. ring. }
  assert (Fc : finite_valid (S754_finite false (Z.to_pos (K * 2 ^ (e + 23))) (-23))).
  { split; [|reflexivity]. apply bounded_intro; [lia| |];
      rewrite Z2Pos.id by exact Hpos; [|intros _]; nia. }
  pose proof (rounds_exact _ _ _ Hr Fc Hc) as Xy.
  destruct Hr as (Vy & Ny & _). set (y := (x - of_Z k)%f32) in *.
  assert (Hy1 : 2 ^ 149 <= xval y) by (rewrite Xy; nia).
  assert (Hy2 : xval y < 2 * 2 ^ 149) by (rewrite Xy; nia).
  split; [exact Hk|]. split; [rewrite Xy, Xx, Hsplit; subst K; ring|].
  split; [unfold leb; rewrite SFleb_correct by (assumption || apply F1); apply Z.leb_le; lia|].
  split; [unfold ltb; rewrite SFltb_correct by (assumption || apply F2); apply Z.ltb_lt; lia|].
  (* the branch of [Gamma] *)
  assert (Hx12 : (x <? of_Z 12)%f32 = true).
  { unfold ltb. rewrite SFltb_correct by (assumption || apply F12). apply Z.ltb_lt. lia. }
  assert (Vm : valid (dec 1 3) = true) by reflexivity.
  assert (Xm : xval (dec 1 3) = 8589935 * 2 ^ 116) by reflexivity.
  assert (E116 : 2 ^ 149 = 2 ^ 33 * 2 ^ 116) by reflexivity.
  pose proof (pow2_pos 116 ltac:(lia)) as H116.
  assert (Hx001 : (x <? dec 1 3)%f32 = false).
  { unfold ltb. rewrite SFltb_correct by (assumption || reflexivity). apply Z.ltb_ge. lia. }
  assert (Hx1 : (x <? of_Z 1)%f32 = false).
  { unfold ltb. rewrite SFltb_correct by (assumption || apply F1). apply Z.ltb_ge. lia. }
  rewrite (Gamma_below_12 x Hx12), Hx001. unfold Gamma_reduce. rewrite Hx1, !Hn.
  fold y. destruct (gamma_poly_loop _ 0 8 _) as [num den]. reflexivity.
Qed.

(** X3: for every integer [k] from 0 to 10, [k + 1] is formed without
    rounding and [Gamma(k + 1)] is exactly [k!], under every Metal library:
    the factor [Gamma(n + 1)] of the [polygamma] kernel is the factorial of
    the order up to order 10. *)
Theorem Gamma_factorial (k : Z) :
  0 <= k <= 10 ->
  (of_Z k + of_Z 1)%f32 = of_Z (k + 1) /\
  Gamma (of_Z k + of_Z 1) = of_Z (Z.of_nat (fact (Z.to_nat k))).
Proof.
  intros Hk.
  assert (H : Exists (eq k) [0; 1; 2; 3; 4; 5; 6; 7; 8; 9; 10]).
  { repeat rewrite Exists_cons. lia. }
  repeat (apply Exists_cons in H as [->|H]); [..|now apply Exists_nil in H];
    (split; [reflexivity|]); (rewrite Gamma_below_12 by reflexivity); vm_compute; reflexivity.
Qed.

End GammaReduction.

Lemma Gamma_reduction_exact_witness :
  valid (dec 75 1) = true /\ (of_Z 1 <=? dec 75 1)%f32 = true /\
  (dec 75 1 <? of_Z 12)%f32 = true /\
  wrap32 (to_int (floor (dec 75 1)) - 1) = 6 /\
  (dec 75 1 - of_Z 6)%f32 = dec 15 1 /\
  xval (dec 75 1 - of_Z (wrap32 (to_int (floor (dec 75 1)) - 1)))%f32
  = xval (dec 75 1) - wrap32 (to_int (floor (dec 75 1)) - 1) * 2 ^ 149.
Proof.
  assert (H1 : valid (dec 75 1) = true) by reflexivity.
  assert (H2 : (of_Z 1 <=? dec 75 1)%f32 = true) by reflexivity.
  assert (H3 : (dec 75 1 <? of_Z 12)%f32 = true) by reflexivity.
  split; [exact H1|]. split; [exact H2|]. split; [exact H3|].
  split; [reflexivity|]. split; [reflexivity|].
  exact (proj1 (proj2 (@Gamma_reduction_exact no_math (dec 75 1) H1 H2 H3))).
Defined.

Lemma Gamma_factorial_witness :
  0 <= 4 <= 10 /\ @Gamma no_math (of_Z 4 + of_Z 1) = of_Z 24.
Proof.
  assert (H : 0 <= 4 <= 10) by lia.
  split; [exact H|]. exact (proj2 (@Gamma_factorial no_math 4 H)).
Defined.

(** ** The poles of [digamma] *)

(** C3, as stated, fails at x = +0: there [-x] is -0, [copysign(inf, -0)] is
    minus infinity and the kernel writes minus infinity, not plus infinity. *)
Lemma digamma_pos_zero_is_neg_infinity :
  (- pzero)%f32 = nzero /\
  copysign INFINITY nzero = S754_infinity true /\
  @digamma no_math 0 pzero = Some (S754_infinity true) /\
  (copysign INFINITY nzero =? INFINITY)%f32 = false.
Proof. repeat split. Qed.

(** C3 (amended): at a zero of either sign the [digamma] kernel writes
    [copysign(inf, -x)], that is minus infinity at +0 and plus infinity
    at -0. *)
Theorem digamma_at_zero {M : MetalMath} (fuel : nat) (s : bool) :
  digamma fuel (S754_zero s) = Some (copysign INFINITY (- S754_zero s)%f32)
  /\ copysign INFINITY (- S754_zero s)%f32 = S754_infinity (negb s)
  /\ digamma fuel pzero = Some (S754_infinity true)
  /\ digamma fuel nzero = Some INFINITY.
Proof. destruct s; repeat split. Qed.

(** C4: for every [x] with [x < 0] and [x == trunc(x)], the [digamma]
    kernel writes NaN. *)
Theorem digamma_negative_integer {M : MetalMath} (fuel : nat) (x : float) :
  (x <? of_Z 0)%f32 = true ->
  (x =? trunc x)%f32 = true ->
  digamma fuel x = Some NAN.
Proof. intros Hneg Hint. unfold digamma. now rewrite Hneg, Hint. Qed.

Lemma digamma_negative_integer_witness :
  ((of_Z (-1) <? of_Z 0)%f32 = true /\ (of_Z (-1) =? trunc (of_Z (-1)))%f32 = true /\
   @digamma no_math 0 (of_Z (-1)) = Some NAN) /\
  @digamma no_math 0 (of_Z (-2)) = Some NAN /\
  @digamma no_math 0 (of_Z (-5)) = Some NAN.
Proof.
  split; [split; [|split]|split].
  - reflexivity.
  - reflexivity.
  - apply digamma_negative_integer; reflexivity.
  - apply digamma_negative_integer; reflexivity.
  - apply digamma_negative_integer; reflexivity.
Defined.

(** ** The shift loop of [calc_digamma_positive_domain] *)

Section DigammaLoop.
Context {M : MetalMath}.

Lemma digamma_shift_loop_bounded (fuel : nat) (result x : float) :
  valid x = true ->
  SFleb (of_Z (10 - Z.of_nat fuel)) x = true ->
  (Z.of_nat fuel <= 2 ^ 24) ->
  exists r x', digamma_shift_loop fuel result x = Some (r, x').
Proof.
  revert result x. induction fuel as [|fuel IH]; intros result x Vx Hle Hf.
  - cbn [digamma_shift_loop]. unfold ltb.
    rewrite (leb_of_Z_not_ltb x 10 10) by (assumption || lia). eauto.
  - cbn [digamma_shift_loop]. destruct (x <? of_Z 10)%f32; [|eauto].
    destruct (add_one_ge x (10 - Z.of_nat (S fuel)) Vx ltac:(lia) Hle) as [Vx' Hle'].
    apply IH; [exact Vx'| |lia].
    replace (10 - Z.of_nat fuel) with (10 - Z.of_nat (S fuel) + 1) by lia. exact Hle'.
Qed.

Lemma sub_from_one_ge (x : float) :
  valid x = true -> (x <? of_Z 0)%f32 = true ->
  valid (of_Z 1 - x)%f32 = true /\ SFleb (of_Z 1) (of_Z 1 - x)%f32 = true.
Proof.
  intros Vx Hneg.
  destruct (of_Z_small 1 ltac:(lia)) as (F1 & N1 & X1).
  destruct (ltb_zero_negative x Hneg) as [->|(m & e & ->)].
  - rewrite of_Z_1. split; reflexivity.
  - destruct (SFsub_rounds (of_Z 1) (S754_finite true m e) F1 ltac:(split; auto))
      as (Vr & Nr & Hr).
    split; [exact Vr|].
    rewrite SFleb_correct by (assumption || apply F1).
    apply Z.leb_le. apply (Hr (of_Z 1) F1).
    pose proof (bounded_value m e Vx). cbn [xval cond_Zopp]. lia.
Qed.

(** [1 - x] is above 1 exactly when [x] is below [-2^-24]. *)
Lemma sub_from_one_gt (x : float) :
  valid x = true -> (x <? of_Z 0)%f32 = true ->
  (of_Z 1 <? of_Z 1 - x)%f32 = (x <? S754_finite true 8388608 (-47))%f32.
Proof.
  intros Vx Hneg.
  destruct (of_Z_small 1 ltac:(lia)) as (F1 & N1 & X1).
  change (1 * 2 ^ 149) with (2 ^ 149) in X1.
  destruct (ltb_zero_negative x Hneg) as [->|(m & e & ->)]; [reflexivity|].
  assert (Fx : finite_valid (S754_finite true m e)) by (split; auto).
  set (x := S754_finite true m e) in *.
  set (c := S754_finite true 8388608 (-47)).
  assert (Vc : valid c = true) by reflexivity.
  assert (Xc : xval c = - 2 ^ 125) by reflexivity.
  pose proof (bounded_value m e Vx) as Hv.
  assert (Xx : xval x = - (Zpos m * 2 ^ (e + 149))) by reflexivity.
  set (a := Zpos m * 2 ^ (e + 149)) in *.
  destruct (SFsub_rounds (of_Z 1) x F1 Fx) as (Vr & Nr & Hr).
  assert (H277 : 2 ^ 149 + 2 ^ 277 < 2 ^ 276 + 2 ^ 277 + 0) by reflexivity.
  set (r := (of_Z 1 - x)%f32) in *.
  unfold ltb. rewrite !SFltb_correct by (assumption || reflexivity).
  rewrite X1, Xx, Xc.
  assert (Hge : 2 ^ 149 <= xval r) by (rewrite <- X1; apply (Hr (of_Z 1) F1); lia).
  destruct (Z.ltb_spec (- a) (- 2 ^ 125)) as [Hlt|Hle].
  - (* x < -2^-24 *)
    apply Z.ltb_lt.
    destruct (Z_le_gt_dec (2 ^ 126) a) as [Hbig|Hsmall].
    + assert (Hc' : finite_valid (S754_finite false 8388609 (-23))) by (split; reflexivity).
      pose proof (Hr _ Hc') as [Hlo _].
      change (xval (S754_finite false 8388609 (-23))) with (2 ^ 149 + 2 ^ 126) in Hlo.
      assert (0 < 2 ^ 126) by reflexivity. lia.
    + pose proof (SFsub_nearest (of_Z 1) x F1 Fx) as Hn. fold r in Hn.
      rewrite X1, Xx in Hn.
      assert (E150 : 2 ^ 150 = 2 ^ 149 + 2 ^ 149) by reflexivity.
      assert (E149 : 2 ^ 126 < 2 ^ 149) by reflexivity.
      assert (E126 : 2 ^ 126 = 2 ^ 125 + 2 ^ 125) by reflexivity.
      assert (E276 : 2 ^ 150 < 2 ^ 276) by reflexivity.
      rewrite ulp_binade_one in Hn by lia.
      specialize (Hn ltac:(lia)). lia.
  - apply Z.ltb_ge.
    destruct (Z.eq_dec a (2 ^ 125)) as [E|NE].
    + destruct (canonical_unique m e 8388608 (-47) Vx eq_refl) as [-> ->].
      { fold a. rewrite E. reflexivity. }
      subst r x. vm_compute. discriminate.
    + pose proof (SFsub_nearest (of_Z 1) x F1 Fx) as Hn. fold r in Hn.
      rewrite X1, Xx in Hn.
      assert (E150 : 2 ^ 150 = 2 ^ 149 + 2 ^ 149) by reflexivity.
      assert (E149 : 2 ^ 126 < 2 ^ 149) by reflexivity.
      assert (E126 : 2 ^ 126 = 2 ^ 125 + 2 ^ 125) by reflexivity.
      assert (E276 : 2 ^ 150 < 2 ^ 276) by reflexivity.
      assert (0 < 2 ^ 125) by reflexivity.
      rewrite ulp_binade_one in Hn by lia.
      specialize (Hn ltac:(lia)).
      destruct (between_one_and_two r Vr Nr ltac:(lia)) as [E2|(m' & Er & Hm')].
      * exfalso. rewrite E2 in Hn. change (xval (of_Z 2)) with (2 ^ 150) in Hn. lia.
      * rewrite Er in Hn |- *. cbn [xval cond_Zopp] in Hn |- *.
        change (-23 + 149) with 126 in *.
        change (2 ^ 149) with (2 ^ 23 * 2 ^ 126) in *.
        assert (0 < 2 ^ 126) by reflexivity. nia.
Qed.

(** A negative [x] from [-2^-24] on is lost in [1 - x]. *)
Lemma sub_from_one_eq (x : float) :
  valid x = true -> (x <? of_Z 0)%f32 = true ->
  (x <? S754_finite true 8388608 (-47))%f32 = false ->
  (of_Z 1 - x)%f32 = of_Z 1.
Proof.
  intros Vx Hneg Hc.
  destruct (of_Z_small 1 ltac:(lia)) as (F1 & N1 & X1).
  pose proof (sub_from_one_gt x Vx Hneg) as Hgt. rewrite Hc in Hgt.
  destruct (sub_from_one_ge x Vx Hneg) as [Va Hle].
  pose proof (SFleb_true_not_nan _ _ Hle) as Na.
  unfold ltb in Hgt.
  rewrite SFleb_correct in Hle by (assumption || apply F1).
  rewrite SFltb_correct in Hgt by (assumption || apply F1).
  apply Z.leb_le in Hle. apply Z.ltb_ge in Hgt.
  pose proof (pow2_pos 149 ltac:(lia)) as HU.
  apply xval_inj; [|exact F1|lia|lia].
  apply valid_finite_of_bound; try assumption.
  assert (2 ^ 149 < 2 ^ 300) by reflexivity. lia.
Qed.

(** C9, as stated, fails at x = -2^-30: a negative non-integer input for
    which [1 - x] rounds to 1, which is not strictly greater than 1. *)
Lemma reflection_argument_not_above_one :
  valid (S754_finite true 8388608 (-53)) = true /\
  (S754_finite true 8388608 (-53) <? of_Z 0)%f32 = true /\
  (S754_finite true 8388608 (-53) =? trunc (S754_finite true 8388608 (-53)))%f32 = false /\
  (of_Z 1 - S754_finite true 8388608 (-53))%f32 = of_Z 1 /\
  (of_Z 1 <? of_Z 1 - S754_finite true 8388608 (-53))%f32 = false.
Proof. repeat split. Qed.

(** C9 (amended): for every negative non-integer input [x], the reflection
    branch calls [calc_digamma_positive_domain] with [1 - x], which is at
    least 1 (and positive); it is above 1 exactly when [x] is below
    [-2^-24], and it is 1 otherwise; the shift loop of the helper ends within
    9 iterations, and the kernel writes
    [psi(1 - x) - PI / tan(PI * fract(x))]. *)
Theorem digamma_reflection_argument (x : float) :
  valid x = true ->
  (x <? of_Z 0)%f32 = true ->
  (x =? trunc x)%f32 = false ->
  (of_Z 1 <=? of_Z 1 - x)%f32 = true /\
  (of_Z 0 <? of_Z 1 - x)%f32 = true /\
  (of_Z 1 <? of_Z 1 - x)%f32 = (x <? S754_finite true 8388608 (-47))%f32 /\
  ((x <? S754_finite true 8388608 (-47))%f32 = false -> (of_Z 1 - x)%f32 = of_Z 1) /\
  (exists r x', digamma_shift_loop 9 pzero (of_Z 1 - x)%f32 = Some (r, x')) /\
  (exists d, calc_digamma_positive_domain 9 (of_Z 1 - x)%f32 = Some d /\
             digamma 9 x = Some (d - PI / tan (PI * fract x))%f32).
Proof.
  intros Vx Hneg Hint.
  destruct (sub_from_one_ge x Vx Hneg) as [Va Hle].
  assert (Hloop : exists r x', digamma_shift_loop 9 pzero (of_Z 1 - x)%f32 = Some (r, x')).
  { apply digamma_shift_loop_bounded; [exact Va|exact Hle|cbn; lia]. }
  split; [exact Hle|]. split.
  { pose proof (SFleb_true_not_nan _ _ Hle) as Na.
    destruct (of_Z_small 1 ltac:(lia)) as ((V1 & _) & N1 & X1).
    destruct (of_Z_small 0 ltac:(lia)) as ((V0 & _) & N0 & X0).
    unfold leb in Hle. rewrite SFleb_correct in Hle by assumption. apply Z.leb_le in Hle.
    unfold ltb. rewrite SFltb_correct by assumption. apply Z.ltb_lt.
    pose proof (pow2_pos 149 ltac:(lia)). lia. }
  split; [exact (sub_from_one_gt x Vx Hneg)|].
  split; [exact (sub_from_one_eq x Vx Hneg)|].
  split; [exact Hloop|].
  destruct Hloop as (r & x' & Hloop).
  unfold digamma, calc_digamma_positive_domain. rewrite Hneg, Hint, Hloop.
  destruct (x' =? of_Z 10)%f32; eauto.
Qed.

End DigammaLoop.

Lemma digamma_reflection_argument_witness :
  valid (dec (-25) 1) = true /\
  (dec (-25) 1 <? of_Z 0)%f32 = true /\
  (dec (-25) 1 =? trunc (dec (-25) 1))%f32 = false /\
  (of_Z 1 <=? of_Z 1 - dec (-25) 1)%f32 = true /\
  (of_Z 1 <? of_Z 1 - dec (-25) 1)%f32 = true /\
  exists r x', @digamma_shift_loop 9 pzero (of_Z 1 - dec (-25) 1)%f32 = Some (r, x').
Proof.
  assert (H1 : valid (dec (-25) 1) = true) by reflexivity.
  assert (H2 : (dec (-25) 1 <? of_Z 0)%f32 = true) by reflexivity.
  assert (H3 : (dec (-25) 1 =? trunc (dec (-25) 1))%f32 = false) by reflexivity.
  destruct (@digamma_reflection_argument no_math (dec (-25) 1) H1 H2 H3)
    as (Ha & _ & Hc & _ & Hb & _).
  split; [exact H1|]. split; [exact H2|]. split; [exact H3|]. split; [exact Ha|]. split; [rewrite Hc; reflexivity|exact Hb].
Defined.

(** ** The [digamma] kernel returns *)

Section DigammaReturns.
Context {M : MetalMath}.

Lemma calc_digamma_positive_domain_returns (fuel : nat) (x : float) :
  (exists r x', digamma_shift_loop fuel pzero x = Some (r, x')) ->
  exists d, calc_digamma_positive_domain fuel x = Some d.
Proof.
  intros (r & x' & H). unfold calc_digamma_positive_domain. rewrite H.
  destruct (x' =? of_Z 10)%f32; eauto.
Qed.

(** X4: on every valid input the [digamma] kernel returns, its loop
    [while (x < 10)] making 10 iterations at most; 9 are not enough at
    [x = 2^-30], which the loop takes to 1, 2, ..., 10. *)
Theorem digamma_returns (x : float) :
  valid x = true ->
  (exists r, digamma 10 x = Some r) /\
  digamma 9 (S754_finite false 8388608 (-53)) = None.
Proof.
  intros Vx. split; [|reflexivity].
  unfold digamma.
  destruct (x <? of_Z 0)%f32 eqn:Hneg.
  - destruct (x =? trunc x)%f32; [eauto|].
    destruct (sub_from_one_ge x Vx Hneg) as [V1 H1].
    destruct (calc_digamma_positive_domain_returns 10 (of_Z 1 - x)%f32) as (d & ->); [|eauto].
    apply digamma_shift_loop_bounded; [exact V1| |cbn; lia].
    pose proof (SFleb_true_not_nan _ _ H1) as N1.
    destruct (of_Z_small 0 ltac:(lia)) as ((V0 & _) & N0 & X0).
    destruct (of_Z_small 1 ltac:(lia)) as ((V1' & _) & N1' & X1).
    rewrite SFleb_correct in H1 |- * by assumption.
    apply Z.leb_le in H1. apply Z.leb_le. change (10 - Z.of_nat 10) with 0. lia.
  - destruct (x =? of_Z 0)%f32; [eauto|].
    apply calc_digamma_positive_domain_returns.
    destruct (not_nan x) eqn:Nx.
    + apply digamma_shift_loop_bounded; [exact Vx| |cbn; lia].
      now apply not_ltb_zero_leb.
    + destruct x; try discriminate. cbn. eauto.
Qed.

End DigammaReturns.

Lemma digamma_returns_witness :
  valid (dec 25 1) = true /\ exists r, @digamma no_math 10 (dec 25 1) = Some r.
Proof.
  assert (H : valid (dec 25 1) = true) by reflexivity.
  split; [exact H|]. exact (proj1 (@digamma_returns no_math (dec 25 1) H)).
Defined.

(** ** Zeros, negative arguments and NaN *)

Section EdgeInputs.
Context {M : MetalMath}.

(** X5: for every [x < 0] (minus infinity included), [LogGamma(x)] is
    [LOG_PI - LogGamma(-x) - log(fabs(-x * sinpi(-x)))]: the reflection
    formula, applied to the result at [-x]. *)
Theorem LogGamma_reflection (x : float) :
  (x <? of_Z 0)%f32 = true ->
  LogGamma x = (LOG_PI - LogGamma (- x) - log (fabs ((- x) * sinpi (- x))))%f32.
Proof.
  intros Hneg. unfold LogGamma.
  assert (Hx : ((- x) <? of_Z 0)%f32 = false /\ ((- x) =? of_Z 0)%f32 = false).
  { destruct (ltb_zero_negative x Hneg) as [->|(m & e & ->)]; split; reflexivity. }
  destruct Hx as [Hpos Hnz].
  remember (- x)%f32 as y eqn:Ey.
  cbn [LogGamma_rec]. rewrite Hneg, Hpos, <- Ey, Hnz.
  destruct (y <? of_Z 12)%f32; [|reflexivity].
  cbn [Gamma_rec]. destruct (y <? dec 1 3)%f32; [reflexivity|].
  destruct (y <? of_Z 12)%f32; reflexivity.
Qed.

(** X6: whatever the functions of the Metal library return, the [lgamma]
    kernel returns plus infinity at a zero of either sign, and the [lgamma],
    [digamma] and [trigamma] kernels return NaN on a NaN. *)
Theorem kernels_special_inputs (fuel : nat) (s : bool) :
  lgamma (S754_zero s) = INFINITY /\
  lgamma NAN = NAN /\ digamma fuel NAN = Some NAN /\ trigamma NAN = NAN.
Proof.
  split; [now destruct s|]. split; [reflexivity|]. split; [|reflexivity].
  unfold digamma, calc_digamma_positive_domain.
  change (NAN <? of_Z 0)%f32 with false. change (NAN =? of_Z 0)%f32 with false.
  cbv iota.
  assert (H : digamma_shift_loop fuel pzero NAN = Some (pzero, NAN)) by now destruct fuel.
  rewrite H. change (NAN =? of_Z 10)%f32 with false.
  change (NAN <? of_Z (10 ^ 17))%f32 with false. cbv iota zeta.
  change (dec 5 1 / NAN)%f32 with S754_nan. now rewrite sub_nan_r.
Qed.

End EdgeInputs.

Lemma LogGamma_reflection_witness :
  (of_Z (-3) <? of_Z 0)%f32 = true /\
  @LogGamma no_math (of_Z (-3))
  = (LOG_PI - @LogGamma no_math (- of_Z (-3))
     - @log no_math (fabs ((- of_Z (-3)) * @sinpi no_math (- of_Z (-3)))))%f32.
Proof.
  assert (H : (of_Z (-3) <? of_Z 0)%f32 = true) by reflexivity.
  split; [exact H|]. exact (@LogGamma_reflection no_math (of_Z (-3)) H).
Defined.

(** ** The guards of [calc_zeta] *)

Lemma ltb_not_eqb (x y : float) : (x <? y)%f32 = true -> (x =? y)%f32 = false.
Proof. unfold ltb, eqb, SFltb, SFeqb. now destruct (SFcompare x y) as [[]|]. Qed.

(** C5: [calc_zeta] reports its domain errors as values.  In the order of
    its guards: +infinity when [x == 1]; NaN when [x < 1]; then, for
    [q <= 0], +infinity when [q] is an integer, and otherwise NaN when [x]
    is not an integer. *)
Theorem calc_zeta_domain_errors {M : MetalMath} (fuel : nat) (x q : float) :
  ((x =? of_Z 1)%f32 = true -> calc_zeta fuel x q = Some INFINITY) /\
  ((x <? of_Z 1)%f32 = true -> calc_zeta fuel x q = Some NAN) /\
  ((x =? of_Z 1)%f32 = false -> (x <? of_Z 1)%f32 = false ->
   (q <=? of_Z 0)%f32 = true -> (q =? trunc q)%f32 = true ->
   calc_zeta fuel x q = Some INFINITY) /\
  ((x =? of_Z 1)%f32 = false -> (x <? of_Z 1)%f32 = false ->
   (q <=? of_Z 0)%f32 = true -> (q =? trunc q)%f32 = false ->
   (x !=? trunc x)%f32 = true ->
   calc_zeta fuel x q = Some NAN).
Proof.
  unfold calc_zeta. repeat split.
  - now intros ->.
  - intros H. now rewrite (ltb_not_eqb _ _ H), H.
  - now intros -> -> -> ->.
  - now intros -> -> -> -> ->.
Qed.

Lemma calc_zeta_domain_errors_witness :
  @calc_zeta no_math 0 (of_Z 1) (of_Z 3) = Some INFINITY /\
  @calc_zeta no_math 0 (dec 5 1) (of_Z 3) = Some NAN /\
  @calc_zeta no_math 0 (of_Z 2) (of_Z (-3)) = Some INFINITY /\
  @calc_zeta no_math 0 (dec 25 1) (dec (-5) 1) = Some NAN.
Proof.
  pose proof (@calc_zeta_domain_errors no_math 0 (of_Z 1) (of_Z 3)) as (H1 & _).
  pose proof (@calc_zeta_domain_errors no_math 0 (dec 5 1) (of_Z 3)) as (_ & H2 & _).
  pose proof (@calc_zeta_domain_errors no_math 0 (of_Z 2) (of_Z (-3))) as (_ & _ & H3 & _).
  pose proof (@calc_zeta_domain_errors no_math 0 (dec 25 1) (dec (-5) 1)) as (_ & _ & _ & H4).
  split; [|split; [|split]]; [apply H1 | apply H2 | apply H3 | apply H4]; reflexivity.
Defined.

(** ** The direct summation of [calc_zeta] ends *)

(** Every value that gets past the guards on [q] is a NaN or above
    [- 2^23]. *)
Lemma zeta_guard_lower (q : float) :
  valid q = true ->
  (q <=? of_Z 0)%f32 = false \/ (q =? trunc q)%f32 = false ->
  zeta_progress (2 ^ 23) 0 q.
Proof.
  intros Vq Hguard. unfold zeta_progress.
  change (Z.min 10 (0 - 2 ^ 23)) with (- 2 ^ 23).
  destruct (of_Z_small (- 2 ^ 23) ltac:(lia)) as ((VK & _) & NK & XK).
  assert (Hbig : 2 ^ 23 * 2 ^ 149 < 2 ^ 300)
    by (rewrite <- pow2_split by lia; apply Z.pow_lt_mono_r; lia).
  pose proof (pow2_pos 149 ltac:(lia)) as HU.
  assert (Hval : forall r, valid r = true -> not_nan r = true ->
                 - 2 ^ 23 * 2 ^ 149 <= xval r ->
                 valid r = true /\ SFleb (of_Z (- 2 ^ 23)) r = true).
  { intros r Vr Nr Hr. split; [exact Vr|].
    rewrite SFleb_correct by assumption. apply Z.leb_le. now rewrite XK. }
  destruct q as [s|[]| |[] m e].
  - right. apply Hval; [assumption|reflexivity|]. cbn [xval]. lia.
  - exfalso. destruct Hguard as [H|H]; cbv in H; discriminate.
  - right. apply Hval; [assumption|reflexivity|]. cbn [xval cond_Zopp]. lia.
  - now left.
  - right. apply Hval; [assumption|reflexivity|]. cbn [xval cond_Zopp].
    destruct Hguard as [H|H]; [rewrite of_Z_0 in H; cbv in H; discriminate|].
    destruct (Z.leb_spec 0 e) as [He|He].
    + exfalso. unfold trunc in H. destruct (Z.leb_spec 0 e); [|lia].
      unfold eqb in H. now rewrite SFcompare_refl_finite in H.
    + apply bounded_range in Vq as (Hr & Hm & _).
      pose proof (pow2_pos (e + 149) ltac:(lia)).
      assert (2 ^ (e + 149) <= 2 ^ 148) by (apply Z.pow_le_mono_r; lia).
      assert (Zpos m * 2 ^ (e + 149) <= 2 ^ 24 * 2 ^ 148) by nia.
      assert (E : 2 ^ 24 * 2 ^ 148 = 2 ^ 23 * 2 ^ 149) by reflexivity.
      lia.
  - right. apply Hval; [assumption|reflexivity|]. cbn [xval cond_Zopp].
    pose proof (bounded_value m e Vq). lia.
Qed.

Lemma zeta_positive_lower (q : float) :
  valid q = true -> (of_Z 0 <? q)%f32 = true -> zeta_progress 0 0 q.
Proof.
  intros Vq Hpos. right. split; [exact Vq|].
  change (Z.min 10 (0 - 0)) with 0.
  unfold ltb, SFltb in Hpos. unfold SFleb.
  now destruct (SFcompare (of_Z 0) q) as [[]|].
Qed.

Section ZetaLoop.
Context {M : MetalMath}.

Lemma zeta_sum_loop_unfold (fuel : nat) (x : float) (i : Z) (a b s : float) :
  zeta_sum_loop fuel x i a b s =
    if (i <? 9)%Z || (a <=? of_Z 9)%f32 then
      match fuel with
      | O => None
      | S fuel' =>
          let i := wrap32 (i + 1) in
          let a := (a + of_Z 1)%f32 in
          let b := pow a (- x)%f32 in
          let s := (s + b)%f32 in
          if ((- MACHEP * s <? b) && (b <? MACHEP * s))%f32 then Some (ZetaReturned s)
          else zeta_sum_loop fuel' x i a b s
      end
    else Some (ZetaLeft s a b).
Proof. destruct fuel; reflexivity. Qed.

(** Once [i] has reached [B + 10] the loop condition is false. *)
Lemma zeta_condition_false (B k : Z) (a : float) :
  0 <= B -> B + 10 <= k -> zeta_progress B k a ->
  (k <? 9)%Z || (a <=? of_Z 9)%f32 = false.
Proof.
  intros HB Hk Hinv.
  destruct (Z.ltb_spec k 9) as [|_]; [lia|]. cbn [orb].
  destruct Hinv as [->|[Va Hle]]; [reflexivity|].
  rewrite Z.min_l in Hle by lia.
  apply (leb_of_Z_not_leb a 10 9); try assumption; lia.
Qed.

Lemma zeta_sum_loop_fuel (B : Z) (fuel : nat) :
  0 <= B <= 2 ^ 23 ->
  forall (x : float) (k : Z) (a b s : float),
    0 <= k -> B + 10 <= Z.of_nat fuel + k -> zeta_progress B k a ->
    exists e, zeta_sum_loop fuel x k a b s = Some e.
Proof.
  intros HB. induction fuel as [|fuel IH]; intros x k a b s Hk Hfuel Hinv;
    rewrite zeta_sum_loop_unfold.
  - rewrite (zeta_condition_false B k a) by (assumption || lia). eauto.
  - destruct ((k <? 9)%Z || (a <=? of_Z 9)%f32) eqn:Hcond; [|eauto].
    assert (Hlt : k < B + 10).
    { destruct (Z_lt_le_dec k (B + 10)) as [|Hge]; [assumption|].
      rewrite (zeta_condition_false B k a) in Hcond by (assumption || lia).
      discriminate. }
    cbv zeta. destruct (_ && _); [eauto|].
    rewrite wrap32_small by lia.
    apply IH; [lia|lia|].
    destruct Hinv as [->|[Va Hle]]; [now left|right].
    rewrite Z.min_r in Hle by lia.
    destruct (add_one_ge a (k - B) Va ltac:(lia) Hle) as [Va' Hle'].
    split; [exact Va'|]. rewrite Z.min_r by lia.
    replace (k + 1 - B) with (k - B + 1) by lia. exact Hle'.
Qed.

Lemma zeta_sum_loop_guarded (x q s : float) :
  valid q = true ->
  (q <=? of_Z 0)%f32 = false \/ (q =? trunc q)%f32 = false ->
  exists e, zeta_sum_loop (Z.to_nat (2 ^ 23 + 10)) x 0 q pzero s = Some e.
Proof.
  intros Vq Hguard.
  apply (zeta_sum_loop_fuel (2 ^ 23)); [lia|lia| |].
  - rewrite Z2Nat.id by lia. lia.
  - now apply zeta_guard_lower.
Qed.

(** With that much fuel [calc_zeta] returns on every valid [q]. *)
Lemma calc_zeta_returns (x q : float) :
  valid q = true -> exists v, calc_zeta (Z.to_nat (2 ^ 23 + 10)) x q = Some v.
Proof.
  intros Vq. unfold calc_zeta.
  assert (Hs : (q <=? of_Z 0)%f32 = false \/ (q =? trunc q)%f32 = false ->
               exists v, zeta_series (Z.to_nat (2 ^ 23 + 10)) x q = Some v).
  { intros Hguard. unfold zeta_series.
    destruct (zeta_sum_loop_guarded x q (pow q (- x)%f32) Vq Hguard) as (e & ->).
    destruct e; eauto. }
  destruct (x =? of_Z 1)%f32; [eauto|].
  destruct (x <? of_Z 1)%f32; [eauto|].
  destruct (q <=? of_Z 0)%f32 eqn:Hq; [|now apply Hs; left].
  destruct (q =? trunc q)%f32 eqn:Hi; [eauto|].
  destruct (x !=? trunc x)%f32; [eauto|]. apply Hs. now right.
Qed.

(** C10: for every [q] that gets past the guards of [calc_zeta] (q > 0, or
    q not an integer), and every [x], the direct-summation loop ends: within
    10 iterations when [q > 0], and within [2^23 + 10] in every case. *)
Theorem zeta_sum_loop_terminates (x q s : float) :
  valid q = true ->
  (q <=? of_Z 0)%f32 = false \/ (q =? trunc q)%f32 = false ->
  (exists e, zeta_sum_loop (Z.to_nat (2 ^ 23 + 10)) x 0 q pzero s = Some e) /\
  ((of_Z 0 <? q)%f32 = true -> exists e, zeta_sum_loop 10 x 0 q pzero s = Some e).
Proof.
  intros Vq Hguard. split.
  - now apply zeta_sum_loop_guarded.
  - intros Hpos. apply (zeta_sum_loop_fuel 0); [lia|lia|cbn; lia|].
    now apply zeta_positive_lower.
Qed.

End ZetaLoop.

Lemma zeta_sum_loop_terminates_witness :
  valid (of_Z 1) = true /\
  (of_Z 1 <=? of_Z 0)%f32 = false /\
  (of_Z 0 <? of_Z 1)%f32 = true /\
  exists e, @zeta_sum_loop no_math 10 (of_Z 2) 0 (of_Z 1) pzero pzero = Some e.
Proof.
  assert (H1 : valid (of_Z 1) = true) by reflexivity.
  assert (H2 : (of_Z 1 <=? of_Z 0)%f32 = false) by reflexivity.
  assert (H3 : (of_Z 0 <? of_Z 1)%f32 = true) by reflexivity.
  destruct (@zeta_sum_loop_terminates no_math (of_Z 2) (of_Z 1) pzero H1 (or_introl H2))
    as [_ H].
  repeat (split; [assumption|]). exact (H H3).
Defined.

(** ** The sign factor of the [polygamma] kernel *)

Lemma rem_2_odd (n : Z) : negb (Z.rem n 2 =? 0)%Z = Z.odd n.
Proof. symmetry. apply Zodd_rem. Qed.

Lemma polygamma_sgn_parity (order : Z) :
  polygamma_sgn order = if Z.odd order then of_Z 1 else of_Z (-1).
Proof. unfold polygamma_sgn. now rewrite rem_2_odd. Qed.

(** C1, as stated, fails at order 2: the order is even and the sign factor
    of the kernel is -1, which is not +1. *)
Lemma polygamma_sign_even_order_2 :
  Z.even 2 = true /\
  polygamma_sgn 2 = of_Z (-1) /\
  (polygamma_sgn 2 =? of_Z 1)%f32 = false.
Proof. repeat split. Qed.

(** C1 (amended): for every order and element [x], the [polygamma] kernel
    computes [sgn * Gamma(order + 1) * calc_zeta(order + 1, x)] where [sgn]
    is +1 exactly when the order is odd and -1 when it is even; on every
    valid [x] it does so within the fuel [2^23 + 10]. *)
Theorem polygamma_sign_odd {M : MetalMath} (fuel : nat) (order : Z) (x : float) :
  polygamma fuel order x =
    (fun zeta =>
       ((if Z.odd order then of_Z 1 else of_Z (-1))
        * Gamma (of_Z order + of_Z 1) * zeta)%f32)
    <$> calc_zeta fuel (of_Z order + of_Z 1)%f32 x
  /\ ((polygamma_sgn order =? of_Z 1)%f32 = true <-> Z.odd order = true)
  /\ (valid x = true ->
      exists zeta,
        calc_zeta (Z.to_nat (2 ^ 23 + 10)) (of_Z order + of_Z 1)%f32 x = Some zeta /\
        polygamma (Z.to_nat (2 ^ 23 + 10)) order x =
          Some ((if Z.odd order then of_Z 1 else of_Z (-1))
                * Gamma (of_Z order + of_Z 1) * zeta)%f32).
Proof.
  split; [|split].
  - unfold polygamma. rewrite polygamma_sgn_parity.
    now destruct (calc_zeta fuel _ x).
  - rewrite polygamma_sgn_parity. destruct (Z.odd order); vm_compute; intuition congruence.
  - intros Vx.
    destruct (calc_zeta_returns (of_Z order + of_Z 1)%f32 x Vx) as (zeta & Hz).
    exists zeta. split; [exact Hz|].
    unfold polygamma. now rewrite polygamma_sgn_parity, Hz.
Qed.

Lemma polygamma_sign_odd_witness :
  valid (of_Z 3) = true /\
  exists zeta,
    @polygamma no_math (Z.to_nat (2 ^ 23 + 10)) 2 (of_Z 3)
    = Some (of_Z (-1) * @Gamma no_math (of_Z 2 + of_Z 1) * zeta)%f32.
Proof.
  assert (H : valid (of_Z 3) = true) by reflexivity.
  split; [exact H|].
  destruct (@polygamma_sign_odd no_math 0 2 (of_Z 3)) as (_ & _ & Hret).
  destruct (Hret H) as (zeta & _ & Hp). now exists zeta.
Defined.

(** ** The tail of [calc_trigamma] *)

Lemma trigamma_reflected (x : float) :
  valid x = true ->
  trigamma_reaches (-5) (if (x <? dec 5 1)%f32 then (of_Z 1 - x)%f32 else x).
Proof.
  intros Vx. rewrite half_value.
  destruct (of_Z_small (-5) ltac:(lia)) as (F5 & N5 & X5).
  destruct (of_Z_small 1 ltac:(lia)) as (F1 & N1 & X1).
  assert (Hh : xval (S754_finite false 8388608 (-24)) = 2 ^ 148) by reflexivity.
  pose proof (pow2_pos 148 ltac:(lia)) as H148.
  assert (E149 : 2 ^ 149 = 2 * 2 ^ 148) by reflexivity.
  assert (Hbig : 2 ^ 149 < 2 ^ 300) by (apply Z.pow_lt_mono_r; lia).
  destruct x as [s|[]| |s m e].
  - (* zero: below one half, reflected to 1 *)
    right. change (S754_zero s <? S754_finite false 8388608 (-24))%f32 with true.
    destruct (SFsub_rounds (of_Z 1) (S754_zero s) F1 ltac:(split; reflexivity))
      as (Vr & Nr & Hr).
    split; [exact Vr|]. rewrite SFleb_correct by (assumption || apply F5).
    apply Z.leb_le. apply (Hr (of_Z (-5)) F5). cbn [xval]. lia.
  - right. rewrite of_Z_1. split; reflexivity.
  - right. change (S754_infinity false <? S754_finite false 8388608 (-24))%f32 with false.
    split; [reflexivity|]. rewrite SFleb_correct by (reflexivity || apply F5).
    apply Z.leb_le. cbn [xval cond_Zopp]. lia.
  - now left.
  - right. pose proof (bounded_value m e Vx) as Hv.
    destruct (S754_finite s m e <? S754_finite false 8388608 (-24))%f32 eqn:Hlt;
      unfold ltb in Hlt; rewrite SFltb_correct in Hlt by (assumption || reflexivity).
    + apply Z.ltb_lt in Hlt. rewrite Hh in Hlt.
      destruct (SFsub_rounds (of_Z 1) (S754_finite s m e) F1 ltac:(split; auto))
        as (Vr & Nr & Hr).
      split; [exact Vr|]. rewrite SFleb_correct by (assumption || apply F5).
      apply Z.leb_le. apply (Hr (of_Z (-5)) F5). lia.
    + apply Z.ltb_ge in Hlt. rewrite Hh in Hlt.
      split; [exact Vx|]. rewrite SFleb_correct by (assumption || reflexivity || apply F5).
      apply Z.leb_le. lia.
Qed.

Lemma trigamma_shift_loop_reaches (steps : nat) (K : Z) (result x : float) :
  - 2 ^ 24 <= K -> K + Z.of_nat steps <= 2 ^ 24 ->
  trigamma_reaches K x ->
  trigamma_reaches (K + Z.of_nat steps) (snd (trigamma_shift_loop steps result x)).
Proof.
  revert K result x. induction steps as [|steps IH]; intros K result x HK HKs Hx;
    cbn [trigamma_shift_loop].
  - cbn [snd]. now rewrite Z.add_0_r.
  - replace (K + Z.of_nat (S steps)) with (K + 1 + Z.of_nat steps) by lia.
    apply IH; [lia|lia|].
    destruct Hx as [->|[Vx Hle]]; [now left|right].
    now apply add_one_ge; [|lia|].
Qed.

Section Trigamma.
Context {M : MetalMath}.

(** For every input of [calc_trigamma], the value that reaches the last
    update is a NaN or at least 1, and there the tail is the short form. *)
Lemma trigamma_tail_reached (x result0 : float) :
  valid x = true ->
  let x0 := if (x <? dec 5 1)%f32 then (of_Z 1 - x)%f32 else x in
  let x6 := snd (trigamma_shift_loop 6 result0 x0) in
  trigamma_tail x6 = ((of_Z 1 + of_Z 1 / (of_Z 2 * x6)) / x6)%f32.
Proof.
  intros Vx x0 x6.
  pose proof (trigamma_shift_loop_reaches 6 (-5) result0 x0 ltac:(lia) ltac:(cbn; lia)
                (trigamma_reflected x Vx)) as Hreach.
  fold x6 in Hreach. change (-5 + Z.of_nat 6) with 1 in Hreach.
  destruct Hreach as [->|[V6 Hle]]; [apply trigamma_tail_nan|].
  now apply trigamma_tail_ge_one.
Qed.

(** The same, read on [calc_trigamma] as a whole. *)
Lemma calc_trigamma_simplified (x : float) :
  valid x = true ->
  calc_trigamma x =
    let reflect := (x <? dec 5 1)%f32 in
    let sign := if reflect then of_Z (-1) else of_Z 1 in
    let result :=
      if reflect then (pzero - PI_SQUARED / (sin (PI * x) * sin (PI * x)))%f32 else pzero in
    let x0 := if reflect then (of_Z 1 - x)%f32 else x in
    let '(result, x6) := trigamma_shift_loop 6 result x0 in
    (sign * (result + (of_Z 1 + of_Z 1 / (of_Z 2 * x6)) / x6))%f32.
Proof.
  intros Vx. unfold calc_trigamma. cbv zeta.
  pose proof (trigamma_tail_reached x
    (if (x <? dec 5 1)%f32
     then (pzero - PI_SQUARED / (sin (PI * x) * sin (PI * x)))%f32 else pzero) Vx)
    as H. cbv zeta in H.
  destruct (trigamma_shift_loop 6 _ _) as [result x6]. cbn [snd] in H.
  now rewrite H.
Qed.

(** C8: the quotients [1 / 6], [1 / 3] and [1 / 42] of [int] literals are 0,
    and for every input of [calc_trigamma] the value [x] that reaches the
    last update makes the added correction exactly [(1 + 1 / (2 * x)) / x]. *)
Theorem trigamma_tail_integer_division (x result0 : float) :
  valid x = true ->
  let x0 := if (x <? dec 5 1)%f32 then (of_Z 1 - x)%f32 else x in
  let x6 := snd (trigamma_shift_loop 6 result0 x0) in
  of_Z (Z.quot 1 6) = pzero /\ of_Z (Z.quot 1 3) = pzero /\ of_Z (Z.quot 1 42) = pzero /\
  trigamma_tail x6 = ((of_Z 1 + of_Z 1 / (of_Z 2 * x6)) / x6)%f32.
Proof.
  intros Vx x0 x6. split; [reflexivity|]. split; [reflexivity|]. split; [reflexivity|].
  now apply trigamma_tail_reached.
Qed.

End Trigamma.

Lemma trigamma_tail_integer_division_witness :
  valid (of_Z 2) = true /\
  trigamma_tail (snd (trigamma_shift_loop 6 pzero (of_Z 2)))
  = ((of_Z 1 + of_Z 1 / (of_Z 2 * snd (trigamma_shift_loop 6 pzero (of_Z 2))))
     / snd (trigamma_shift_loop 6 pzero (of_Z 2)))%f32.
Proof.
  assert (H : valid (of_Z 2) = true) by reflexivity.
  split; [exact H|].
  exact (proj2 (proj2 (proj2 (trigamma_tail_integer_division (of_Z 2) pzero H)))).
Defined.

(** ** The sign of [trigamma] from one half on *)

(** What is not below one half is a NaN or has its sign bit clear. *)
Lemma not_below_half (x : float) : (x <? dec 5 1)%f32 = false -> never_negative x.
Proof.
  rewrite half_value. unfold never_negative, sign_clear.
  destruct x as [[]|[]| |[] m e]; intros H; try (now eauto 6);
    exfalso; revert H; unfold ltb, SFltb; cbn [SFcompare]; discriminate.
Qed.

(** The bracket of the tail, all of whose coefficients are 0. *)
Lemma mul_pzero_cases (i : float) :
  never_negative i -> (i * pzero)%f32 = S754_nan \/ (i * pzero)%f32 = pzero.
Proof. intros [->|[->|[->|(m & e & ->)]]]; cbn; auto. Qed.

Lemma trigamma_bracket (ixx : float) :
  never_negative ixx ->
  never_negative (ixx * (of_Z (Z.quot 1 6) - ixx * (of_Z (Z.quot 1 3) - ixx * of_Z (Z.quot 1 42))))%f32.
Proof.
  intros H.
  change (of_Z (Z.quot 1 6)) with pzero.
  change (of_Z (Z.quot 1 3)) with pzero.
  change (of_Z (Z.quot 1 42)) with pzero.
  destruct (mul_pzero_cases ixx H) as [E|E]; rewrite E.
  - change (pzero - S754_nan)%f32 with S754_nan.
    replace (ixx * S754_nan)%f32 with S754_nan by now destruct ixx.
    change (pzero - S754_nan)%f32 with S754_nan.
    replace (ixx * S754_nan)%f32 with S754_nan by now destruct ixx. now left.
  - change (pzero - pzero)%f32 with pzero. rewrite E.
    change (pzero - pzero)%f32 with pzero. rewrite E. right. now left.
Qed.

Lemma trigamma_tail_never_negative (x : float) :
  never_negative x -> never_negative (trigamma_tail x).
Proof.
  intros Hx. unfold trigamma_tail.
  pose proof (never_negative_of_Z 1 ltac:(lia)) as H1.
  pose proof (never_negative_of_Z 2 ltac:(lia)) as H2.
  apply never_negative_div; [|exact Hx].
  apply never_negative_add.
  - apply never_negative_add; [exact H1|].
    apply never_negative_div; [exact H1|]. now apply never_negative_mul.
  - apply trigamma_bracket. apply never_negative_div; [exact H1|].
    now apply never_negative_mul.
Qed.

Lemma trigamma_shift_loop_never_negative (steps : nat) (result x : float) :
  never_negative result -> never_negative x ->
  never_negative (fst (trigamma_shift_loop steps result x)) /\
  never_negative (snd (trigamma_shift_loop steps result x)).
Proof.
  revert result x. induction steps as [|steps IH]; intros result x Hr Hx; [now split|].
  cbn [trigamma_shift_loop].
  pose proof (never_negative_of_Z 1 ltac:(lia)) as H1.
  apply IH.
  - apply never_negative_add; [exact Hr|].
    apply never_negative_div; [exact H1|]. now apply never_negative_mul.
  - now apply never_negative_add.
Qed.

Lemma trigamma_shift_loop_sign_clear (steps : nat) (result x : float) :
  sign_clear result -> sign_clear x ->
  sign_clear (fst (trigamma_shift_loop steps result x)) /\
  sign_clear (snd (trigamma_shift_loop steps result x)).
Proof.
  revert result x. induction steps as [|steps IH]; intros result x Hr Hx; [now split|].
  cbn [trigamma_shift_loop]. apply IH.
  - apply sign_clear_add; [exact Hr|]. now apply div_one_sign_clear, sign_clear_square.
  - apply sign_clear_add; [exact Hx|]. rewrite of_Z_1. right; right; eauto.
Qed.

(** The tail on a number that is at least 1 is neither negative nor a NaN. *)
Lemma trigamma_tail_sign_clear (x : float) :
  valid x = true -> SFleb (of_Z 1) x = true -> sign_clear (trigamma_tail x).
Proof.
  intros Vx Hle. rewrite (trigamma_tail_ge_one x Vx Hle).
  destruct (ge_one_cases x Vx Hle) as [->|(m & e & -> & _)].
  - left. reflexivity.
  - apply sign_clear_div_finite, one_plus_sign_clear, div_one_sign_clear, mul_two_sign_clear.
    eauto.
Qed.

Section TrigammaSign.
Context {M : MetalMath}.

(** X7: for every [x] that is not below 0.5, the result of the [trigamma]
    kernel is never below zero; and when [x] is a number (not a NaN), the
    result is a number too, with its sign bit clear: it is +0, a positive
    number or plus infinity. *)
Theorem trigamma_never_negative (x : float) :
  (x <? dec 5 1)%f32 = false ->
  (trigamma x <? of_Z 0)%f32 = false /\
  (valid x = true -> not_nan x = true -> sign_clear (trigamma x)).
Proof.
  intros Hx. split.
  - apply never_negative_ltb.
    unfold trigamma, calc_trigamma. rewrite Hx.
    pose proof (not_below_half x Hx) as Nx.
    destruct (trigamma_shift_loop_never_negative 6 pzero x) as [Hr H6];
      [right; now left|exact Nx|].
    destruct (trigamma_shift_loop 6 pzero x) as [result x6]. cbn [fst snd] in Hr, H6.
    apply never_negative_mul; [apply never_negative_of_Z; lia|].
    apply never_negative_add; [exact Hr|]. now apply trigamma_tail_never_negative.
  - intros Vx Nx.
    assert (Sx : sign_clear x).
    { destruct (not_below_half x Hx) as [->|S]; [discriminate Nx|exact S]. }
    pose proof (trigamma_reflected x Vx) as Hreach. rewrite Hx in Hreach.
    pose proof (trigamma_shift_loop_reaches 6 (-5) pzero x ltac:(lia) ltac:(cbn; lia) Hreach)
      as H6.
    change (-5 + Z.of_nat 6) with 1 in H6.
    destruct (trigamma_shift_loop_sign_clear 6 pzero x) as [Sr S6]; [now left|exact Sx|].
    unfold trigamma, calc_trigamma. rewrite Hx.
    destruct (trigamma_shift_loop 6 pzero x) as [result x6]. cbn [fst snd] in *.
    destruct H6 as [->|[V6 L6]].
    { exfalso. destruct S6 as [E|[E|(m & e & E)]]; discriminate E. }
    apply sign_clear_one_mul, sign_clear_add; [exact Sr|].
    now apply trigamma_tail_sign_clear.
Qed.

End TrigammaSign.

Lemma trigamma_never_negative_witness :
  (of_Z 3 <? dec 5 1)%f32 = false /\
  (@trigamma no_math (of_Z 3) <? of_Z 0)%f32 = false /\
  sign_clear (@trigamma no_math (of_Z 3)).
Proof.
  assert (H : (of_Z 3 <? dec 5 1)%f32 = false) by reflexivity.
  split; [exact H|].
  destruct (@trigamma_never_negative no_math (of_Z 3) H) as [H1 H2].
  split; [exact H1|]. now apply H2.
Defined.

(** * Properties of the host side *)

(** ** The preconditions of the operators *)

Section HostProperties.
Context {M : MetalMath} {D : MTLDevice}.
Variable scalarToMetalTypeString : ScalarType -> string + string.

(** C6: each operator throws, with its message, when the input is Double,
    and [polygamma_out_mps] also throws for a negative order; the state the
    exception leaves is the state of the call, so no cache entry was made, no
    kernel was dispatched and no storage (the output's included) changed. *)
Theorem operators_reject_before_work
    (fuel : nat) (order : Z) (self output_ : Tensor) (st : HostState) :
  (scalar_type self = Double ->
   lgamma_out_mps scalarToMetalTypeString fuel self output_ st
     = Raised "MPS does not support lgamma_out op with scalar type: Double" st /\
   digamma_out_mps scalarToMetalTypeString fuel self output_ st
     = Raised "MPS does not support digamma_out op with scalar type: Double" st /\
   polygamma_out_mps scalarToMetalTypeString fuel order self output_ st
     = Raised "MPS does not support polygamma_out op with scalar type: Double" st) /\
  (scalar_type self <> Double -> (order < 0)%Z ->
   polygamma_out_mps scalarToMetalTypeString fuel order self output_ st
     = Raised "Polygamma is implemented only for nonnegative real numbers" st) /\
  ((order < 0)%Z ->
   exists msg,
     polygamma_out_mps scalarToMetalTypeString fuel order self output_ st = Raised msg st).
Proof.
  assert (Hneg : (order < 0)%Z -> (0 <=? order)%Z = false) by (intros; lia).
  unfold lgamma_out_mps, digamma_out_mps, polygamma_out_mps.
  unfold mbind, host_bind, bind, TORCH_CHECK, raise, ret.
  split; [|split].
  - intros ->. cbn [ScalarType_eqb negb]. auto.
  - intros Hty Hord. rewrite (Hneg Hord).
    destruct (scalar_type self); cbn [ScalarType_eqb negb]; congruence.
  - intros Hord. rewrite (Hneg Hord).
    destruct (scalar_type self); cbn [ScalarType_eqb negb]; eauto.
Qed.

End HostProperties.

Lemma operators_reject_before_work_witness :
  @lgamma_out_mps no_math accepting_device metal_type_names 16 double_input float_output
      (initial_state two_buffers)
    = Raised "MPS does not support lgamma_out op with scalar type: Double"
        (initial_state two_buffers) /\
  @polygamma_out_mps no_math accepting_device metal_type_names 16 (-1) float_input float_output
      (initial_state two_buffers)
    = Raised "Polygamma is implemented only for nonnegative real numbers"
        (initial_state two_buffers).
Proof.
  split.
  - apply (@operators_reject_before_work no_math accepting_device metal_type_names
             16 0 double_input float_output (initial_state two_buffers)).
    reflexivity.
  - apply (@operators_reject_before_work no_math accepting_device metal_type_names
             16 (-1) float_input float_output (initial_state two_buffers)).
    + discriminate.
    + reflexivity.
Defined.

(** ** The two caches *)

Section Caches.
Context {M : MetalMath} {D : MTLDevice}.
Variable scalarToMetalTypeString : ScalarType -> string + string.

#[local] Instance cache_order_preorder : PreOrder cache_order.
Proof.
  split.
  - intros st. unfold cache_order. auto.
  - intros a b c (H1 & H2 & H3) (H4 & H5 & H6). unfold cache_order.
    split; [|split]; [etrans; eauto | etrans; eauto | auto].
Qed.

Lemma keeps_ret {A} (a : A) : keeps_caches (ret a).
Proof. intros st. cbn. reflexivity. Qed.

Lemma keeps_raise {A} (msg : string) : keeps_caches (@raise A msg).
Proof. intros st. cbn. reflexivity. Qed.

Lemma keeps_bind {A B} (c : host A) (k : A -> host B) :
  keeps_caches c -> (forall a, keeps_caches (k a)) -> keeps_caches (c ≫= k).
Proof.
  intros Hc Hk st. unfold mbind, host_bind, bind.
  specialize (Hc st). destruct (c st) as [a st1|msg st1|]; [|exact Hc|exact I].
  specialize (Hk a st1). destruct (k a st1) as [b st2|msg st2|]; [| |exact I];
    etrans; eauto.
Qed.

(** A step that touches neither cache nor the record of compiler runs. *)
Lemma cache_order_same (st st' : HostState) :
  libMap st' = libMap st -> cplMap st' = cplMap st ->
  compiler_runs st' = compiler_runs st -> cache_order st st'.
Proof.
  intros Hl Hc Hr. unfold cache_order, compiled_once, runs_of.
  rewrite Hl, Hc, Hr. auto.
Qed.

Lemma keeps_TORCH_CHECK (cond : bool) (msg : string) : keeps_caches (TORCH_CHECK cond msg).
Proof. destruct cond; [apply keeps_ret | apply keeps_raise]. Qed.

Lemma keeps_get_state : keeps_caches get_state.
Proof. intros st. cbn. reflexivity. Qed.

Lemma keeps_set_memory (mem : gmap nat (list float)) : keeps_caches (set_memory mem).
Proof. intros st. now apply cache_order_same. Qed.

Lemma keeps_fresh_handle : keeps_caches fresh_handle.
Proof. intros st. now apply cache_order_same. Qed.

Lemma keeps_metal_type (t : ScalarType) :
  keeps_caches (metal_type scalarToMetalTypeString t).
Proof.
  unfold metal_type. destruct (scalarToMetalTypeString t);
    [apply keeps_raise | apply keeps_ret].
Qed.

Lemma keeps_contiguous (t : Tensor) : keeps_caches (contiguous t).
Proof.
  unfold contiguous. destruct (is_contiguous t); [apply keeps_ret|].
  apply keeps_bind; [apply keeps_get_state|]. intros st.
  apply keeps_bind; [apply keeps_set_memory|]. intros _. apply keeps_ret.
Qed.

Lemma keeps_copy_ (dst src : Tensor) : keeps_caches (copy_ dst src).
Proof.
  unfold copy_. apply keeps_bind; [apply keeps_get_state|]. intros st.
  apply keeps_set_memory.
Qed.

Lemma keeps_dispatch1DJob fuel cpl self output order length :
  keeps_caches (dispatch1DJob fuel cpl self output order length).
Proof.
  intros st. unfold dispatch1DJob.
  destruct (kernel_of fuel cpl order); [|now apply cache_order_same].
  destruct (run_threads _ _ _ _ _ _); [|exact I].
  now apply cache_order_same.
Qed.

Lemma runs_of_cons (r : string * string) (t1 t2 : string) (st st' : HostState) :
  compiler_runs st' = r :: compiler_runs st ->
  runs_of t1 t2 st' = ((if bool_decide (r = (t1, t2)) then 1 else 0) + runs_of t1 t2 st)%nat.
Proof.
  intros Hr. unfold runs_of. rewrite Hr, filter_cons.
  destruct (decide (r = (t1, t2))) as [e|n].
  - now rewrite bool_decide_eq_true_2.
  - now rewrite bool_decide_eq_false_2.
Qed.

Lemma keeps_compileGammaOpsLibrary (t1 t2 : string) :
  keeps_caches (compileGammaOpsLibrary t1 t2).
Proof.
  intros st. unfold compileGammaOpsLibrary.
  unfold mbind, host_bind, bind, get_state.
  destruct (libMap st !! String.append t1 t2) as [lib|] eqn:Hmiss; [cbn; reflexivity|].
  unfold newLibraryWithSource.
  destruct (compile_error t1 t2) as [d|] eqn:Hc; cbn.
  - (* the compiler rejected the source: one more run, nothing cached *)
    split; [reflexivity|split; [reflexivity|]].
    intros Hinv u1 u2 Hu. specialize (Hinv u1 u2 Hu).
    rewrite (runs_of_cons (t1, t2) u1 u2 st) by reflexivity.
    rewrite bool_decide_eq_false_2 by congruence. exact Hinv.
  - (* a new library: its pair has one run and its key is now bound *)
    split; [now apply insert_subseteq|split; [reflexivity|]].
    intros Hinv u1 u2 Hu.
    rewrite (runs_of_cons (t1, t2) u1 u2 st) by reflexivity. cbn [libMap].
    destruct (decide ((t1, t2) = (u1, u2))) as [e|n].
    + injection e as <- <-. rewrite bool_decide_eq_true_2 by reflexivity.
      right. rewrite lookup_insert_eq. split; [|eauto].
      destruct (Hinv t1 t2 Hu) as [->|(_ & x & Hx)]; [reflexivity|congruence].
    + rewrite bool_decide_eq_false_2 by exact n.
      destruct (Hinv u1 u2 Hu) as [H0|(H1 & x & Hx)]; [left; exact H0|right].
      split; [exact H1|].
      destruct (decide (String.append t1 t2 = String.append u1 u2)) as [<-|ne].
      * rewrite lookup_insert_eq. eauto.
      * rewrite lookup_insert_ne by exact ne. eauto.
Qed.

Lemma keeps_newFunctionWithName (library : MTLLibrary) (fname : string) :
  keeps_caches (newFunctionWithName library fname).
Proof.
  unfold newFunctionWithName. destruct (bool_decide _); [|apply keeps_ret].
  apply keeps_bind; [apply keeps_fresh_handle|]. intros h. apply keeps_ret.
Qed.

Lemma keeps_newComputePipelineStateWithFunction (func : MTLFunction) :
  keeps_caches (newComputePipelineStateWithFunction func).
Proof.
  unfold newComputePipelineStateWithFunction.
  destruct (pipeline_error func); [apply keeps_ret|].
  apply keeps_bind; [apply keeps_fresh_handle|]. intros h. apply keeps_ret.
Qed.

(** A hit in [cplMap] returns the cached object and leaves the state as it
    is. *)
Lemma getCPLState_hit (t1 t2 fname : string) (st : HostState)
    (cpl : MTLComputePipelineState) :
  cplMap st !! String.append (String.append t1 t2) fname = Some cpl ->
  getCPLState t1 t2 fname st = Returned cpl st.
Proof.
  intros Hhit. unfold getCPLState, mbind, host_bind, bind, get_state.
  now rewrite Hhit.
Qed.

Lemma keeps_cplMap_compileGammaOpsLibrary (t1 t2 : string) :
  keeps_cplMap (compileGammaOpsLibrary t1 t2).
Proof.
  intros st. unfold compileGammaOpsLibrary, mbind, host_bind, bind, get_state.
  destruct (libMap st !! String.append t1 t2); [reflexivity|].
  unfold newLibraryWithSource. now destruct (compile_error t1 t2).
Qed.

Lemma keeps_cplMap_newFunctionWithName (library : MTLLibrary) (fname : string) :
  keeps_cplMap (newFunctionWithName library fname).
Proof. intros st. unfold newFunctionWithName. now destruct (bool_decide _). Qed.

Lemma keeps_cplMap_newComputePipelineStateWithFunction (func : MTLFunction) :
  keeps_cplMap (newComputePipelineStateWithFunction func).
Proof.
  intros st. unfold newComputePipelineStateWithFunction.
  now destruct (pipeline_error func).
Qed.

(** Whatever [getCPLState] returns is bound to the key afterwards, and the
    caches have only grown. *)
Lemma getCPLState_spec (t1 t2 fname : string) (st : HostState) :
  match getCPLState t1 t2 fname st with
  | Returned cpl st' =>
      cplMap st' !! String.append (String.append t1 t2) fname = Some cpl /\
      cache_order st st'
  | Raised _ st' => cache_order st st'
  | Stuck => True
  end.
Proof.
  unfold getCPLState, mbind, host_bind, bind, get_state.
  destruct (cplMap st !! _) as [cpl|] eqn:Hmiss; [cbn; split; [exact Hmiss|reflexivity]|].
  pose proof (keeps_compileGammaOpsLibrary t1 t2 st) as H1.
  pose proof (keeps_cplMap_compileGammaOpsLibrary t1 t2 st) as E1.
  destruct (compileGammaOpsLibrary t1 t2 st) as [lib st1|msg st1|]; [|exact H1|exact I].
  pose proof (keeps_newFunctionWithName lib fname st1) as H2.
  pose proof (keeps_cplMap_newFunctionWithName lib fname st1) as E2.
  destruct (newFunctionWithName lib fname st1) as [[func|] st2|msg st2|];
    [| cbn; etrans; eauto | etrans; eauto | exact I].
  pose proof (keeps_newComputePipelineStateWithFunction func st2) as H3.
  pose proof (keeps_cplMap_newComputePipelineStateWithFunction func st2) as E3.
  destruct (newComputePipelineStateWithFunction func st2) as [[d|rc] st3|msg st3|];
    [cbn; etrans; [|exact H3]; etrans; eauto | | etrans; [|exact H3]; etrans; eauto | exact I].
  cbn. rewrite lookup_insert_eq. split; [reflexivity|].
  etrans; [exact H1|]. etrans; [exact H2|]. etrans; [exact H3|].
  split; [reflexivity|split; [|exact (fun H => H)]].
  cbn. apply insert_subseteq. now rewrite E3, E2, E1.
Qed.

Lemma keeps_getCPLState (t1 t2 fname : string) :
  keeps_caches (getCPLState t1 t2 fname).
Proof.
  intros st. pose proof (getCPLState_spec t1 t2 fname st) as H.
  destruct (getCPLState t1 t2 fname st); [apply H|exact H|exact I].
Qed.

Lemma keeps_lgamma_out_mps fuel self output_ :
  keeps_caches (lgamma_out_mps scalarToMetalTypeString fuel self output_).
Proof.
  unfold lgamma_out_mps.
  apply keeps_bind; [apply keeps_TORCH_CHECK|]. intros _.
  destruct (numel32 output_ =? 0)%nat; [apply keeps_ret|].
  apply keeps_bind.
  { destruct (negb _); [|apply keeps_ret].
    apply keeps_bind; [apply keeps_contiguous|]. intros o. apply keeps_ret. }
  intros [output needs]. apply keeps_bind; [apply keeps_metal_type|]. intros it.
  apply keeps_bind; [apply keeps_metal_type|]. intros ot.
  apply keeps_bind; [apply keeps_getCPLState|]. intros cpl.
  apply keeps_bind; [apply keeps_dispatch1DJob|]. intros _.
  destruct needs; [apply keeps_copy_|apply keeps_ret].
Qed.

Lemma keeps_digamma_out_mps fuel self output_ :
  keeps_caches (digamma_out_mps scalarToMetalTypeString fuel self output_).
Proof.
  unfold digamma_out_mps.
  apply keeps_bind; [apply keeps_TORCH_CHECK|]. intros _.
  destruct (numel32 output_ =? 0)%nat; [apply keeps_ret|].
  apply keeps_bind.
  { destruct (negb _); [|apply keeps_ret].
    apply keeps_bind; [apply keeps_contiguous|]. intros o. apply keeps_ret. }
  intros [output needs]. apply keeps_bind; [apply keeps_metal_type|]. intros it.
  apply keeps_bind; [apply keeps_metal_type|]. intros ot.
  apply keeps_bind; [apply keeps_getCPLState|]. intros cpl.
  apply keeps_bind; [apply keeps_dispatch1DJob|]. intros _.
  destruct needs; [apply keeps_copy_|apply keeps_ret].
Qed.

Lemma keeps_polygamma_out_mps fuel order self output_ :
  keeps_caches (polygamma_out_mps scalarToMetalTypeString fuel order self output_).
Proof.
  unfold polygamma_out_mps.
  apply keeps_bind; [apply keeps_TORCH_CHECK|]. intros _.
  apply keeps_bind; [apply keeps_TORCH_CHECK|]. intros _.
  destruct (numel32 output_ =? 0)%nat; [apply keeps_ret|].
  apply keeps_bind.
  { destruct (negb _); [|apply keeps_ret].
    apply keeps_bind; [apply keeps_contiguous|]. intros o. apply keeps_ret. }
  intros [output needs]. apply keeps_bind; [apply keeps_metal_type|]. intros it.
  apply keeps_bind; [apply keeps_metal_type|]. intros ot.
  apply keeps_bind; [apply keeps_getCPLState|]. intros cpl.
  apply keeps_bind; [apply keeps_dispatch1DJob|]. intros _.
  destruct needs; [apply keeps_copy_|apply keeps_ret].
Qed.

Lemma after_keeps {A} (c : host A) (st st' : HostState) :
  keeps_caches c -> after (c st) = Some st' -> cache_order st st'.
Proof.
  intros Hc Ha. specialize (Hc st).
  destruct (c st); cbn in Ha; congruence.
Qed.

Lemma host_step_cache_order (st st' : HostState) :
  host_step scalarToMetalTypeString st st' -> cache_order st st'.
Proof.
  intros (fuel & [t1 t2 fname|self o|self o|order self o] & Hrun); cbn in Hrun;
    revert Hrun; apply after_keeps.
  - apply keeps_getCPLState.
  - apply keeps_lgamma_out_mps.
  - apply keeps_digamma_out_mps.
  - apply keeps_polygamma_out_mps.
Qed.

Lemma host_steps_cache_order (st st' : HostState) :
  rtc (host_step scalarToMetalTypeString) st st' -> cache_order st st'.
Proof.
  induction 1 as [|a b c Hab _ IH]; [reflexivity|].
  etrans; [|exact IH]. now apply host_step_cache_order.
Qed.

Lemma compiled_once_initial (mem : gmap nat (list float)) :
  compiled_once (initial_state mem).
Proof. intros t1 t2 _. now left. Qed.

(** C7: once [getCPLState] has returned a pipeline for a triple, every later
    call for that triple, after any calls into this file, returns the same
    object and leaves the state as it is (so it runs no compiler and creates
    no object); and in every state a process can reach, a type pair whose
    source compiles has been through the compiler at most once. *)
Theorem getCPLState_cached_forever
    (t1 t2 fname : string) (st st1 st2 : HostState) (cpl : MTLComputePipelineState)
    (mem : gmap nat (list float)) :
  rtc (host_step scalarToMetalTypeString) (initial_state mem) st ->
  getCPLState t1 t2 fname st = Returned cpl st1 ->
  rtc (host_step scalarToMetalTypeString) st1 st2 ->
  getCPLState t1 t2 fname st2 = Returned cpl st2 /\
  (forall u1 u2, compile_error u1 u2 = None -> (runs_of u1 u2 st2 <= 1)%nat).
Proof.
  intros Hreach Hcall Hlater.
  pose proof (getCPLState_spec t1 t2 fname st) as Hspec. rewrite Hcall in Hspec.
  destruct Hspec as (Hbound & Hord1).
  pose proof (host_steps_cache_order _ _ Hlater) as (_ & Hsub & Hinv2).
  split.
  - apply getCPLState_hit. eapply lookup_weaken; eauto.
  - intros u1 u2 Hu.
    pose proof (host_steps_cache_order _ _ Hreach) as (_ & _ & Hinv0).
    destruct Hord1 as (_ & _ & Hinv1).
    destruct (Hinv2 (Hinv1 (Hinv0 (compiled_once_initial mem))) u1 u2 Hu) as [->|[-> _]]; lia.
Qed.

End Caches.

Lemma getCPLState_cached_forever_witness :
  exists cpl st1,
    @getCPLState accepting_device "float" "float" "lgamma" (initial_state ∅)
      = Returned cpl st1 /\
    @getCPLState accepting_device "float" "float" "lgamma" st1 = Returned cpl st1 /\
    (runs_of "float" "float" st1 <= 1)%nat.
Proof.
  destruct (@getCPLState accepting_device "float" "float" "lgamma" (initial_state ∅))
    as [cpl st1|msg st1|] eqn:Hcall; [|discriminate Hcall..].
  exists cpl, st1. split; [reflexivity|].
  destruct (@getCPLState_cached_forever no_math accepting_device metal_type_names
              "float" "float" "lgamma" (initial_state ∅) st1 st1 cpl ∅
              (rtc_refl _ _) Hcall (rtc_refl _ _)) as (Hhit & Honce).
  split; [exact Hhit|]. now apply Honce.
Defined.

(** ** The operators on an empty output *)

Section EmptyOutput.
Context {M : MetalMath} {D : MTLDevice}.
Variable scalarToMetalTypeString : ScalarType -> string + string.

(** X8: when the input is not Double (and, for [polygamma_out_mps], the
    order is not negative) and the number of elements of the output is 0 as
    a [uint32_t], that is a multiple of [2^32], each operator returns at
    once and leaves the state as it is: nothing is compiled, cached or
    dispatched. *)
Theorem operators_skip_empty_output
    (fuel : nat) (order : Z) (self output_ : Tensor) (st : HostState) :
  scalar_type self <> Double ->
  Z.of_nat (numel output_) mod 2 ^ 32 = 0 ->
  lgamma_out_mps scalarToMetalTypeString fuel self output_ st = Returned tt st /\
  digamma_out_mps scalarToMetalTypeString fuel self output_ st = Returned tt st /\
  (0 <= order ->
   polygamma_out_mps scalarToMetalTypeString fuel order self output_ st = Returned tt st).
Proof.
  intros Hty Hlen.
  assert (Hn : (numel32 output_ =? 0)%nat = true).
  { unfold numel32. rewrite Hlen. reflexivity. }
  assert (Hc : negb (ScalarType_eqb (scalar_type self) Double) = true).
  { destruct (scalar_type self); cbn [ScalarType_eqb negb]; congruence. }
  unfold lgamma_out_mps, digamma_out_mps, polygamma_out_mps.
  unfold mbind, host_bind, bind, TORCH_CHECK. rewrite Hc, Hn.
  split; [reflexivity|]. split; [reflexivity|].
  intros Hord. apply Z.leb_le in Hord. rewrite Hord. reflexivity.
Qed.

End EmptyOutput.

Lemma operators_skip_empty_output_witness :
  @lgamma_out_mps no_math accepting_device metal_type_names 16 float_input empty_output
      (initial_state two_buffers)
    = Returned tt (initial_state two_buffers) /\
  @polygamma_out_mps no_math accepting_device metal_type_names 16 2 float_input empty_output
      (initial_state two_buffers)
    = Returned tt (initial_state two_buffers).
Proof.
  destruct (@operators_skip_empty_output no_math accepting_device metal_type_names
              16 2 float_input empty_output (initial_state two_buffers))
    as (H1 & _ & H3); [discriminate|reflexivity|].
  split; [exact H1|]. apply H3. lia.
Defined.

(** ** Failures of [getCPLState] *)

Section CacheFailures.
Context {D : MTLDevice}.

(** X9: when the device compiler rejects the source for a pair that is in
    neither cache, [getCPLState] throws "Failed to compile library: " followed
    by the description of the error, having run the compiler once and
    changed nothing else; the failure is not cached, so the same call made
    again runs the compiler again and throws again. *)
Theorem compile_failure_not_cached
    (t1 t2 fname d : string) (st : HostState) :
  cplMap st !! String.append (String.append t1 t2) fname = None ->
  libMap st !! String.append t1 t2 = None ->
  compile_error t1 t2 = Some d ->
  exists st',
    getCPLState t1 t2 fname st = Raised (String.append "Failed to compile library: " d) st' /\
    libMap st' = libMap st /\ cplMap st' = cplMap st /\
    memory st' = memory st /\ dispatched st' = dispatched st /\
    next_handle st' = next_handle st /\
    runs_of t1 t2 st' = S (runs_of t1 t2 st) /\
    exists st'',
      getCPLState t1 t2 fname st' = Raised (String.append "Failed to compile library: " d) st'' /\
      runs_of t1 t2 st'' = S (S (runs_of t1 t2 st)).
Proof.
  intros Hcpl Hlib Herr.
  assert (Hstep : forall s, cplMap s !! String.append (String.append t1 t2) fname = None ->
            libMap s !! String.append t1 t2 = None ->
            getCPLState t1 t2 fname s
            = Raised (String.append "Failed to compile library: " d)
                {| libMap := libMap s; cplMap := cplMap s; memory := memory s;
                   next_handle := next_handle s;
                   compiler_runs := (t1, t2) :: compiler_runs s;
                   dispatched := dispatched s |}).
  { intros s Hc Hl.
    unfold getCPLState, compileGammaOpsLibrary, newLibraryWithSource,
      mbind, host_bind, bind, get_state. rewrite Hc. cbn [libMap]. rewrite Hl, Herr.
    reflexivity. }
  assert (Hrun : forall s,
            runs_of t1 t2
              {| libMap := libMap s; cplMap := cplMap s; memory := memory s;
                 next_handle := next_handle s;
                 compiler_runs := (t1, t2) :: compiler_runs s;
                 dispatched := dispatched s |} = S (runs_of t1 t2 s)).
  { intros s. rewrite (runs_of_cons (t1, t2) t1 t2 s) by reflexivity.
    now rewrite bool_decide_eq_true_2. }
  eexists. split; [apply Hstep; assumption|].
  cbn [libMap cplMap memory dispatched next_handle].
  repeat (split; [reflexivity|]).
  split; [apply Hrun|].
  eexists. split; [apply Hstep; assumption|]. now rewrite !Hrun.
Qed.

(** X10: for a function name that is not a kernel of the template and a
    key that is not in [cplMap], on a device that compiles the source,
    [getCPLState] throws "Can't get function " followed by the name; [cplMap]
    is as before, and the library of the pair is in [libMap] afterwards. *)
Theorem unknown_function_rejected (t1 t2 fname : string) (st : HostState) :
  fname ∉ GAMMA_OPS_TEMPLATE_kernels ->
  cplMap st !! String.append (String.append t1 t2) fname = None ->
  compile_error t1 t2 = None ->
  exists st',
    getCPLState t1 t2 fname st = Raised (String.append "Can't get function " fname) st' /\
    cplMap st' = cplMap st /\
    is_Some (libMap st' !! String.append t1 t2) /\
    memory st' = memory st /\ dispatched st' = dispatched st.
Proof.
  intros Hname Hcpl Herr.
  unfold getCPLState, compileGammaOpsLibrary, newLibraryWithSource, newFunctionWithName,
    mbind, host_bind, bind, get_state, fresh_handle, put_state, ret, raise.
  rewrite Hcpl. rewrite (bool_decide_eq_false_2 _ Hname).
  destruct (libMap st !! String.append t1 t2) as [lib|] eqn:Hlib.
  - exists st. rewrite Hlib. eauto 10.
  - rewrite Herr. cbn [libMap cplMap memory dispatched next_handle compiler_runs].
    eexists. split; [reflexivity|]. cbn [libMap cplMap memory dispatched].
    rewrite lookup_insert_eq. eauto 10.
Qed.

(** [getCPLState] acts on the caches, the handle counter and the record of
    compiler runs only. *)
Lemma getCPLState_same_work (t1 t2 fname : string) (st : HostState) :
  match getCPLState t1 t2 fname st with
  | Returned _ st' | Raised _ st' => memory st' = memory st /\ dispatched st' = dispatched st
  | Stuck => True
  end.
Proof.
  unfold getCPLState, compileGammaOpsLibrary, newLibraryWithSource, newFunctionWithName,
    newComputePipelineStateWithFunction,
    mbind, host_bind, bind, get_state, fresh_handle, put_state, ret, raise.
  destruct (cplMap st !! _); [now split|].
  destruct (libMap st !! _).
  - destruct (bool_decide _); [|now split]. cbn.
    destruct (pipeline_error _); now split.
  - destruct (compile_error t1 t2); [now split|]. cbn.
    destruct (bool_decide _); [|now split]. cbn.
    destruct (pipeline_error _); now split.
Qed.

End CacheFailures.

Lemma compile_failure_not_cached_witness :
  exists st',
    @getCPLState rejecting_device "float" "float" "lgamma" (initial_state ∅)
      = Raised "Failed to compile library: program_source:1:1: error" st' /\
    @runs_of "float" "float" st' = 1%nat.
Proof.
  destruct (@compile_failure_not_cached rejecting_device "float" "float" "lgamma"
              "program_source:1:1: error" (initial_state ∅))
    as (st' & Hcall & _ & _ & _ & _ & _ & Hruns & _); [reflexivity..|].
  exists st'. split; [exact Hcall|exact Hruns].
Defined.

Lemma unknown_function_rejected_witness :
  exists st',
    @getCPLState accepting_device "float" "float" "gamma" (initial_state ∅)
      = Raised "Can't get function gamma" st' /\
    is_Some (libMap st' !! "floatfloat").
Proof.
  destruct (@unknown_function_rejected accepting_device "float" "float" "gamma"
              (initial_state ∅))
    as (st' & Hcall & _ & Hlib & _); [|reflexivity..|].
  - cbv [GAMMA_OPS_TEMPLATE_kernels]. rewrite !elem_of_cons, elem_of_nil.
    intros [H|[H|[H|[H|[]]]]]; discriminate H.
  - exists st'. split; [exact Hcall|exact Hlib].
Defined.

(** ** The keys of the caches *)

Lemma list_ascii_of_string_app (s1 s2 : string) :
  String.list_ascii_of_string (String.append s1 s2)
  = String.list_ascii_of_string s1 ++ String.list_ascii_of_string s2.
Proof.
  induction s1 as [|c s1 IH]; [reflexivity|].
  change (String c s1 +:+ s2) with (String c (s1 +:+ s2)).
  cbn [String.list_ascii_of_string]. rewrite IH. reflexivity.
Qed.

Lemma list_ascii_of_string_inj (s s' : string) :
  String.list_ascii_of_string s = String.list_ascii_of_string s' -> s = s'.
Proof.
  intros H. apply (f_equal String.string_of_list_ascii) in H.
  now rewrite !String.string_of_list_ascii_of_string in H.
Qed.

Lemma append_inv_tail (s s' f : string) :
  String.append s f = String.append s' f -> s = s'.
Proof.
  intros H. apply (f_equal String.list_ascii_of_string) in H.
  rewrite !list_ascii_of_string_app in H. apply app_inv_tail in H.
  now apply list_ascii_of_string_inj.
Qed.

(** No kernel name of the template ends another one, so a key ends in at
    most one of them. *)
Lemma kernel_names_suffix_free (s s' f g : string) :
  f ∈ GAMMA_OPS_TEMPLATE_kernels -> g ∈ GAMMA_OPS_TEMPLATE_kernels ->
  String.append s f = String.append s' g -> f = g.
Proof.
  unfold GAMMA_OPS_TEMPLATE_kernels. rewrite !elem_of_cons, !elem_of_nil.
  intros Hf Hg H. apply (f_equal String.list_ascii_of_string) in H.
  rewrite !list_ascii_of_string_app in H. apply (f_equal (@List.rev _)) in H.
  rewrite !rev_app_distr in H.
  destruct Hf as [->|[->|[->|[->|[]]]]], Hg as [->|[->|[->|[->|[]]]]];
    try reflexivity; cbn in H; discriminate H.
Qed.


Lemma kernel_name_digamma : "digamma"%string ∈ GAMMA_OPS_TEMPLATE_kernels.
Proof. unfold GAMMA_OPS_TEMPLATE_kernels. rewrite !elem_of_cons. auto. Qed.

Section CacheKeys.
Context {M : MetalMath} {D : MTLDevice}.
Variable scalarToMetalTypeString : ScalarType -> string + string.

Lemma preserves_ret {A} (P : HostState -> Prop) (a : A) : preserves P (ret a).
Proof. intros st H. exact H. Qed.

Lemma preserves_raise {A} (P : HostState -> Prop) (msg : string) : preserves P (@raise A msg).
Proof. intros st H. exact H. Qed.

Lemma preserves_bind {A B} (P : HostState -> Prop) (c : host A) (k : A -> host B) :
  preserves P c -> (forall a, preserves P (k a)) -> preserves P (c ≫= k).
Proof.
  intros Hc Hk st HP. unfold mbind, host_bind, bind.
  specialize (Hc st HP). destruct (c st) as [a st1|msg st1|]; [|exact Hc|exact I].
  exact (Hk a st1 Hc).
Qed.

(** A step that leaves both caches as they are. *)
Lemma consistent_same_maps (st st' : HostState) :
  libMap st' = libMap st -> cplMap st' = cplMap st ->
  caches_consistent st -> caches_consistent st'.
Proof. unfold caches_consistent. now intros -> ->. Qed.

Lemma consistent_TORCH_CHECK (cond : bool) (msg : string) :
  preserves caches_consistent (TORCH_CHECK cond msg).
Proof. destruct cond; [apply preserves_ret|apply preserves_raise]. Qed.

Lemma consistent_metal_type (t : ScalarType) :
  preserves caches_consistent (metal_type scalarToMetalTypeString t).
Proof.
  unfold metal_type. destruct (scalarToMetalTypeString t);
    [apply preserves_raise|apply preserves_ret].
Qed.

Lemma consistent_contiguous (t : Tensor) : preserves caches_consistent (contiguous t).
Proof.
  unfold contiguous. destruct (is_contiguous t); [apply preserves_ret|].
  intros st H. now apply (consistent_same_maps st).
Qed.

Lemma consistent_copy_ (dst src : Tensor) : preserves caches_consistent (copy_ dst src).
Proof. intros st H. now apply (consistent_same_maps st). Qed.

Lemma consistent_dispatch1DJob fuel cpl self output order length :
  preserves caches_consistent (dispatch1DJob fuel cpl self output order length).
Proof.
  intros st H. unfold dispatch1DJob.
  destruct (kernel_of fuel cpl order); [|now apply (consistent_same_maps st)].
  destruct (run_threads _ _ _ _ _ _); [|exact I].
  now apply (consistent_same_maps st).
Qed.

(** [compileGammaOpsLibrary] returns what [libMap] holds under the key of
    the pair afterwards. *)
Lemma consistent_compileGammaOpsLibrary (t1 t2 : string) (st : HostState) :
  caches_consistent st ->
  match compileGammaOpsLibrary t1 t2 st with
  | Returned lib st' =>
      caches_consistent st' /\ libMap st' !! String.append t1 t2 = Some lib /\
      cplMap st' = cplMap st
  | Raised _ st' => caches_consistent st'
  | Stuck => True
  end.
Proof.
  intros [Hlib Hcpl].
  unfold compileGammaOpsLibrary, newLibraryWithSource,
    mbind, host_bind, bind, get_state, fresh_handle, put_state, ret, raise.
  destruct (libMap st !! String.append t1 t2) as [lib|] eqn:Hmiss;
    [cbn; split; [now split|now split]|].
  destruct (compile_error t1 t2); [now split|]. cbn.
  split; [|split; [now rewrite lookup_insert_eq|reflexivity]].
  split; cbn [libMap cplMap].
  - intros k lib. destruct (decide (k = String.append t1 t2)) as [->|Hne].
    + rewrite lookup_insert_eq. now intros [= <-].
    + rewrite lookup_insert_ne by congruence. apply Hlib.
  - intros k cpl Hk. destruct (Hcpl k cpl Hk) as (H1 & H2 & H3).
    split; [exact H1|]. split; [exact H2|].
    rewrite lookup_insert_ne; [exact H3|]. intros E. rewrite <- E in H3. congruence.
Qed.

Lemma consistent_getCPLState (t1 t2 fname : string) (st : HostState) :
  caches_consistent st ->
  match getCPLState t1 t2 fname st with
  | Returned cpl st' =>
      caches_consistent st' /\
      cplMap st' !! String.append (String.append t1 t2) fname = Some cpl
  | Raised _ st' => caches_consistent st'
  | Stuck => True
  end.
Proof.
  intros Hst. unfold getCPLState. unfold mbind at 1, host_bind at 1, bind at 1, get_state at 1.
  destruct (cplMap st !! _) as [cpl|] eqn:Hmiss; [now split|].
  unfold mbind at 1, host_bind at 1, bind at 1.
  pose proof (consistent_compileGammaOpsLibrary t1 t2 st Hst) as H1.
  destruct (compileGammaOpsLibrary t1 t2 st) as [lib st1|msg st1|]; [|exact H1|exact I].
  destruct H1 as ([Hlib Hcpl] & Hbound & Hsame).
  unfold newFunctionWithName, newComputePipelineStateWithFunction,
    mbind, host_bind, bind, get_state, fresh_handle, put_state, ret, raise.
  destruct (bool_decide _) eqn:Hname; [|now split]. apply bool_decide_eq_true_1 in Hname.
  cbn. destruct (pipeline_error _); [now split|]. cbn.
  split; [|now rewrite lookup_insert_eq].
  split; cbn [libMap cplMap].
  - exact Hlib.
  - intros k cpl. destruct (decide (k = String.append (String.append t1 t2) fname)) as [->|Hne].
    + rewrite lookup_insert_eq. intros [= <-]. cbn.
      rewrite <- (Hlib _ _ Hbound). auto.
    + rewrite lookup_insert_ne by congruence. apply Hcpl.
Qed.

Lemma preserves_getCPLState (t1 t2 fname : string) :
  preserves caches_consistent (getCPLState t1 t2 fname).
Proof.
  intros st H. pose proof (consistent_getCPLState t1 t2 fname st H) as Hs.
  destruct (getCPLState t1 t2 fname st); [apply Hs|exact Hs|exact I].
Qed.

Lemma consistent_lgamma_out_mps fuel self output_ :
  preserves caches_consistent (lgamma_out_mps scalarToMetalTypeString fuel self output_).
Proof.
  unfold lgamma_out_mps.
  apply preserves_bind; [apply consistent_TORCH_CHECK|]. intros _.
  destruct (numel32 output_ =? 0)%nat; [apply preserves_ret|].
  apply preserves_bind.
  { destruct (negb _); [|apply preserves_ret].
    apply preserves_bind; [apply consistent_contiguous|]. intros o. apply preserves_ret. }
  intros [output needs]. apply preserves_bind; [apply consistent_metal_type|]. intros it.
  apply preserves_bind; [apply consistent_metal_type|]. intros ot.
  apply preserves_bind; [apply preserves_getCPLState|]. intros cpl.
  apply preserves_bind; [apply consistent_dispatch1DJob|]. intros _.
  destruct needs; [apply consistent_copy_|apply preserves_ret].
Qed.

Lemma consistent_digamma_out_mps fuel self output_ :
  preserves caches_consistent (digamma_out_mps scalarToMetalTypeString fuel self output_).
Proof.
  unfold digamma_out_mps.
  apply preserves_bind; [apply consistent_TORCH_CHECK|]. intros _.
  destruct (numel32 output_ =? 0)%nat; [apply preserves_ret|].
  apply preserves_bind.
  { destruct (negb _); [|apply preserves_ret].
    apply preserves_bind; [apply consistent_contiguous|]. intros o. apply preserves_ret. }
  intros [output needs]. apply preserves_bind; [apply consistent_metal_type|]. intros it.
  apply preserves_bind; [apply consistent_metal_type|]. intros ot.
  apply preserves_bind; [apply preserves_getCPLState|]. intros cpl.
  apply preserves_bind; [apply consistent_dispatch1DJob|]. intros _.
  destruct needs; [apply consistent_copy_|apply preserves_ret].
Qed.

Lemma consistent_polygamma_out_mps fuel order self output_ :
  preserves caches_consistent
    (polygamma_out_mps scalarToMetalTypeString fuel order self output_).
Proof.
  unfold polygamma_out_mps.
  apply preserves_bind; [apply consistent_TORCH_CHECK|]. intros _.
  apply preserves_bind; [apply consistent_TORCH_CHECK|]. intros _.
  destruct (numel32 output_ =? 0)%nat; [apply preserves_ret|].
  apply preserves_bind.
  { destruct (negb _); [|apply preserves_ret].
    apply preserves_bind; [apply consistent_contiguous|]. intros o. apply preserves_ret. }
  intros [output needs]. apply preserves_bind; [apply consistent_metal_type|]. intros it.
  apply preserves_bind; [apply consistent_metal_type|]. intros ot.
  apply preserves_bind; [apply preserves_getCPLState|]. intros cpl.
  apply preserves_bind; [apply consistent_dispatch1DJob|]. intros _.
  destruct needs; [apply consistent_copy_|apply preserves_ret].
Qed.

Lemma after_preserves {A} (P : HostState -> Prop) (c : host A) (st st' : HostState) :
  preserves P c -> P st -> after (c st) = Some st' -> P st'.
Proof.
  intros Hc HP Ha. specialize (Hc st HP).
  destruct (c st); cbn in Ha; congruence.
Qed.

Lemma host_step_consistent (st st' : HostState) :
  host_step scalarToMetalTypeString st st' -> caches_consistent st -> caches_consistent st'.
Proof.
  intros (fuel & [t1 t2 fname|self o|self o|order self o] & Hrun) HP; cbn in Hrun;
    revert HP Hrun; apply after_preserves.
  - apply preserves_getCPLState.
  - apply consistent_lgamma_out_mps.
  - apply consistent_digamma_out_mps.
  - apply consistent_polygamma_out_mps.
Qed.

Lemma host_steps_consistent (st st' : HostState) :
  rtc (host_step scalarToMetalTypeString) st st' ->
  caches_consistent st -> caches_consistent st'.
Proof.
  induction 1 as [|a b c Hab _ IH]; [auto|].
  intros Ha. apply IH. now apply (host_step_consistent a).
Qed.

Lemma consistent_initial (mem : gmap nat (list float)) :
  caches_consistent (initial_state mem).
Proof. split; intros k x; cbn; now rewrite lookup_empty. Qed.

(** What a pipeline found under the key of a kernel is. *)
Lemma consistent_lookup (t1 t2 fname : string) (st : HostState)
    (cpl : MTLComputePipelineState) :
  caches_consistent st -> fname ∈ GAMMA_OPS_TEMPLATE_kernels ->
  cplMap st !! String.append (String.append t1 t2) fname = Some cpl ->
  fn_name (cpl_function cpl) = fname /\
  libMap st !! String.append t1 t2 = Some (fn_library (cpl_function cpl)).
Proof.
  intros [_ Hcpl] Hname Hk. destruct (Hcpl _ _ Hk) as (Ekey & Hin & Hlib).
  cbv zeta in *.
  pose proof (kernel_names_suffix_free _ _ _ _ Hname Hin Ekey) as En.
  rewrite <- En in Ekey. apply append_inv_tail in Ekey. rewrite Ekey. auto.
Qed.

(** X12: in every state a process can reach, the caches are consistent:
    a library is cached under the concatenation of the type names it was
    compiled for, and a pipeline under that concatenation followed by the
    name of its function, a kernel of the template, taken from the library
    cached for those names.  So what [cplMap] holds under the key of a kernel
    name is a pipeline of that kernel, built from the library of the key. *)
Theorem caches_stay_consistent
    (mem : gmap nat (list float)) (st : HostState) (t1 t2 fname : string)
    (cpl : MTLComputePipelineState) :
  rtc (host_step scalarToMetalTypeString) (initial_state mem) st ->
  caches_consistent st /\
  (fname ∈ GAMMA_OPS_TEMPLATE_kernels ->
   cplMap st !! String.append (String.append t1 t2) fname = Some cpl ->
   fn_name (cpl_function cpl) = fname /\
   libMap st !! String.append t1 t2 = Some (fn_library (cpl_function cpl))).
Proof.
  intros Hreach.
  pose proof (host_steps_consistent _ _ Hreach (consistent_initial mem)) as Hst.
  split; [exact Hst|]. intros Hname Hk. now apply consistent_lookup.
Qed.


End CacheKeys.

Lemma caches_stay_consistent_witness :
  exists cpl st1,
    @getCPLState accepting_device "float" "half" "digamma" (initial_state ∅)
      = Returned cpl st1 /\
    caches_consistent st1 /\
    fn_name (cpl_function cpl) = "digamma"%string.
Proof.
  assert (H : exists cpl st1,
    @getCPLState accepting_device "float" "half" "digamma" (initial_state ∅)
      = Returned cpl st1 /\
    cplMap st1 !! "floathalfdigamma"%string = Some cpl).
  { do 2 eexists. split; vm_compute; reflexivity. }
  destruct H as (cpl & st1 & Hcall & Hk). exists cpl, st1. split; [exact Hcall|].
  destruct (@caches_stay_consistent no_math accepting_device metal_type_names ∅ st1
              "float" "half" "digamma" cpl) as [Hst Hlook].
  - eapply rtc_l; [|apply rtc_refl].
    exists 0%nat, (CallGetCPLState "float" "half" "digamma"). cbn [run_call].
    now rewrite Hcall.
  - split; [exact Hst|]. now apply Hlook; [apply kernel_name_digamma|].
Defined.


(** ** What an operator dispatches *)

Section Dispatch.
Context {M : MetalMath} {D : MTLDevice}.
Variable scalarToMetalTypeString : ScalarType -> string + string.

Lemma bind_returned {A B} (c : host A) (k : A -> host B) (st st' : HostState) (b : B) :
  (c ≫= k) st = Returned b st' ->
  exists a st1, c st = Returned a st1 /\ k a st1 = Returned b st'.
Proof.
  unfold mbind, host_bind, bind. destruct (c st) as [a st1|msg st1|]; [eauto|discriminate..].
Qed.

Lemma TORCH_CHECK_returned (cond : bool) (msg : string) (st st' : HostState) (u : unit) :
  TORCH_CHECK cond msg st = Returned u st' -> st' = st /\ cond = true.
Proof.
  unfold TORCH_CHECK, ret, raise. destruct cond; intros H; [now injection H|discriminate H].
Qed.

Lemma metal_type_returned (t : ScalarType) (st st' : HostState) (name : string) :
  metal_type scalarToMetalTypeString t st = Returned name st' -> st' = st.
Proof.
  unfold metal_type, ret, raise.
  destruct (scalarToMetalTypeString t); intros H; [discriminate H|now injection H].
Qed.

(** The step [if (!self.is_contiguous()) { output = output.contiguous(); ... }]. *)
Lemma contiguous_step_returned (self output_ output : Tensor) (needs : bool)
    (st st' : HostState) :
  (if negb (is_contiguous self)
   then output ← contiguous output_; ret (output, true)
   else ret (output_, false)) st = Returned (output, needs) st' ->
  libMap st' = libMap st /\ cplMap st' = cplMap st /\ dispatched st' = dispatched st /\
  (is_contiguous self = true -> output = output_).
Proof.
  destruct (is_contiguous self); cbn [negb].
  - intros [= <- <- <-]. auto.
  - unfold contiguous. destruct (is_contiguous output_).
    + intros [= <- <- <-]. repeat split; discriminate.
    + intros [= <- <- <-]. repeat split; discriminate.
Qed.

Lemma dispatch1DJob_returned fuel cpl (self output : Tensor) order length
    (st st' : HostState) (u : unit) :
  dispatch1DJob fuel cpl self output order length st = Returned u st' ->
  dispatched st' =
    {| job_pipeline := cpl;
       job_input := (storage self, storage_offset self);
       job_output := (storage output, storage_offset output);
       job_order := order; job_length := length |} :: dispatched st.
Proof.
  destruct u. unfold dispatch1DJob, set_memory.
  destruct (kernel_of fuel cpl order); [|now intros [= <-]].
  destruct (run_threads _ _ _ _ _ _); [|discriminate]. now intros [= <-].
Qed.

Lemma copy_step_returned (needs : bool) (output_ output : Tensor) (st st' : HostState)
    (u : unit) :
  (if needs then copy_ output_ output else ret tt) st = Returned u st' ->
  dispatched st' = dispatched st.
Proof. destruct u, needs; now intros [= <-]. Qed.

(** What the three operators share from the contiguity step on, for the
    kernel [fname] and the value [order] to bind. *)
Lemma operator_tail_dispatch (fuel : nat) (fname : string) (order : option Z)
    (self output_ : Tensor) (st st' : HostState) :
  caches_consistent st -> fname ∈ GAMMA_OPS_TEMPLATE_kernels ->
  ('(output, needs_output_copy) ←
     (if negb (is_contiguous self)
      then output ← contiguous output_; ret (output, true)
      else ret (output_, false));
   input_type ← metal_type scalarToMetalTypeString (scalar_type self);
   output_type ← metal_type scalarToMetalTypeString (scalar_type output);
   cplState ← getCPLState input_type output_type fname;
   dispatch1DJob fuel cplState self output order (numel32 output_);;
   if needs_output_copy : bool then copy_ output_ output else ret tt) st
  = Returned tt st' ->
  dispatched_job st st' fname order self output_.
Proof.
  intros Hst Hname Hret.
  apply bind_returned in Hret as ([output needs] & sA & HA & Hret).
  apply contiguous_step_returned in HA as (HlA & HcA & HdA & Hout).
  apply bind_returned in Hret as (it & sB & HB & Hret).
  apply metal_type_returned in HB as ->.
  apply bind_returned in Hret as (ot & sC & HC & Hret).
  apply metal_type_returned in HC as ->.
  apply bind_returned in Hret as (cpl & sD & HD & Hret).
  apply bind_returned in Hret as (u & sE & HE & Hret).
  apply dispatch1DJob_returned in HE. apply copy_step_returned in Hret.
  pose proof (consistent_same_maps st sA HlA HcA Hst) as CA.
  pose proof (consistent_getCPLState it ot fname sA CA) as HS.
  pose proof (getCPLState_same_work it ot fname sA) as HF.
  rewrite HD in HS, HF. destruct HS as [CD KD]. destruct HF as [_ HdD].
  destruct (consistent_lookup it ot fname sD cpl CD Hname KD) as [Hfn _].
  eexists. split; [rewrite Hret, HE, HdD, HdA; reflexivity|].
  cbn. repeat split; try assumption; try reflexivity.
  intros Hc. now rewrite (Hout Hc).
Qed.

(** X14: an operator that returns on a non-empty output has dispatched
    exactly one job: [lgamma_out_mps] the kernel "lgamma", [digamma_out_mps]
    the kernel "digamma", [polygamma_out_mps] the kernel "digamma" for order
    0, "trigamma" for order 1 and "polygamma" otherwise, with the order bound
    at buffer 2 in the last case only (so the [polygamma] kernel runs with
    orders from 2 on).  The job has [numel(output)] threads (as a
    [uint32_t]) and reads the storage of [self] at its offset, whether [self]
    is contiguous or not; it writes the storage of the output given when
    [self] is contiguous. *)
Theorem operators_dispatch_once
    (fuel : nat) (order : Z) (self output_ : Tensor) (st st' : HostState)
    (mem : gmap nat (list float)) :
  rtc (host_step scalarToMetalTypeString) (initial_state mem) st ->
  numel32 output_ <> 0%nat ->
  (lgamma_out_mps scalarToMetalTypeString fuel self output_ st = Returned tt st' ->
   dispatched_job st st' "lgamma" None self output_) /\
  (digamma_out_mps scalarToMetalTypeString fuel self output_ st = Returned tt st' ->
   dispatched_job st st' "digamma" None self output_) /\
  (polygamma_out_mps scalarToMetalTypeString fuel order self output_ st = Returned tt st' ->
   0 <= order /\
   dispatched_job st st'
     (if (order =? 0)%Z then "digamma" else if (order =? 1)%Z then "trigamma" else "polygamma")
     (if (order =? 0)%Z || (order =? 1)%Z then None else Some order)
     self output_).
Proof.
  intros Hreach Hlen.
  pose proof (host_steps_consistent scalarToMetalTypeString _ _ Hreach (consistent_initial mem)) as Hst.
  apply Nat.eqb_neq in Hlen.
  assert (Hk : forall f, f ∈ ["lgamma"; "digamma"; "trigamma"; "polygamma"]%string ->
                         f ∈ GAMMA_OPS_TEMPLATE_kernels).
  { intros f. unfold GAMMA_OPS_TEMPLATE_kernels. rewrite !elem_of_cons. tauto. }
  split; [|split].
  - unfold lgamma_out_mps. intros Hret.
    apply bind_returned in Hret as (u & s0 & H0 & Hret).
    apply TORCH_CHECK_returned in H0 as [-> _]. rewrite Hlen in Hret.
    revert Hret. apply operator_tail_dispatch; [exact Hst|].
    apply Hk. rewrite !elem_of_cons. auto.
  - unfold digamma_out_mps. intros Hret.
    apply bind_returned in Hret as (u & s0 & H0 & Hret).
    apply TORCH_CHECK_returned in H0 as [-> _]. rewrite Hlen in Hret.
    revert Hret. apply operator_tail_dispatch; [exact Hst|].
    apply Hk. rewrite !elem_of_cons. auto.
  - unfold polygamma_out_mps. intros Hret.
    apply bind_returned in Hret as (u & s0 & H0 & Hret).
    apply TORCH_CHECK_returned in H0 as [-> _].
    apply bind_returned in Hret as (u' & s1 & H1 & Hret).
    apply TORCH_CHECK_returned in H1 as [-> Hord%Z.leb_le]. rewrite Hlen in Hret.
    split; [exact Hord|].
    destruct (order =? 0)%Z; [|destruct (order =? 1)%Z]; cbn [orb];
      revert Hret; apply operator_tail_dispatch; try exact Hst;
      apply Hk; rewrite !elem_of_cons; auto.
Qed.

End Dispatch.

Lemma operators_dispatch_once_witness :
  numel32 float_output <> 0%nat /\
  exists st',
    @polygamma_out_mps no_math accepting_device metal_type_names 16 3 float_input float_output
       (initial_state two_buffers) = Returned tt st' /\
    dispatched_job (initial_state two_buffers) st' "polygamma" (Some 3)
      float_input float_output.
Proof.
  assert (Hlen : numel32 float_output <> 0%nat) by discriminate.
  split; [exact Hlen|].
  assert (H : exists st',
    @polygamma_out_mps no_math accepting_device metal_type_names 16 3 float_input float_output
       (initial_state two_buffers) = Returned tt st') by (eexists; vm_compute; reflexivity).
  destruct H as (st' & Hcall). exists st'. split; [exact Hcall|].
  destruct (@operators_dispatch_once no_math accepting_device metal_type_names
              16 3 float_input float_output (initial_state two_buffers) st' two_buffers
              (rtc_refl _ _) Hlen) as (_ & _ & Hpoly).
  exact (proj2 (Hpoly Hcall)).
Defined.

(** ** An operator that throws *)

Section Failures.
Context {M : MetalMath} {D : MTLDevice}.
Variable scalarToMetalTypeString : ScalarType -> string + string.

Lemma bind_raised {A B} (c : host A) (k : A -> host B) (st st' : HostState) (msg : string) :
  (c ≫= k) st = Raised msg st' ->
  c st = Raised msg st' \/ exists a st1, c st = Returned a st1 /\ k a st1 = Raised msg st'.
Proof.
  unfold mbind, host_bind, bind. destruct (c st) as [a st1|msg1 st1|]; intros H;
    [right; exists a, st1; split; [reflexivity|exact H]|left; now injection H as -> ->|discriminate H].
Qed.

Lemma TORCH_CHECK_raised (cond : bool) (msg msg' : string) (st st' : HostState) :
  TORCH_CHECK cond msg st = Raised msg' st' -> st' = st.
Proof.
  unfold TORCH_CHECK, ret, raise. destruct cond; intros H; [discriminate H|now injection H].
Qed.

Lemma metal_type_raised (t : ScalarType) (st st' : HostState) (msg : string) :
  metal_type scalarToMetalTypeString t st = Raised msg st' -> st' = st.
Proof.
  unfold metal_type, ret, raise.
  destruct (scalarToMetalTypeString t); intros H; [now injection H|discriminate H].
Qed.

(** [output.contiguous()] may only add a storage. *)
Lemma contiguous_step_memory (self output_ : Tensor) (st : HostState) :
  exists output needs st',
    (if negb (is_contiguous self)
     then output ← contiguous output_; ret (output, true)
     else ret (output_, false)) st = Returned (output, needs) st' /\
    nothing_executed st st' /\
    (is_contiguous self = true -> memory st' = memory st).
Proof.
  unfold nothing_executed.
  destruct (is_contiguous self); cbn [negb].
  - exists output_, false, st. auto.
  - unfold contiguous. destruct (is_contiguous output_).
    + exists output_, true, st. repeat split; auto; discriminate.
    + eexists _, true, _. split; [reflexivity|]. cbn.
      split; [|discriminate]. split; [reflexivity|].
      apply insert_subseteq, not_elem_of_dom, is_fresh.
Qed.

Lemma dispatch1DJob_not_raised fuel cpl (self output : Tensor) order length
    (st st' : HostState) (msg : string) :
  dispatch1DJob fuel cpl self output order length st = Raised msg st' -> False.
Proof.
  unfold dispatch1DJob, set_memory. destruct (kernel_of fuel cpl order); [|discriminate].
  destruct (run_threads _ _ _ _ _ _); discriminate.
Qed.

Lemma copy_step_not_raised (needs : bool) (output_ output : Tensor) (st st' : HostState)
    (msg : string) :
  (if needs then copy_ output_ output else ret tt) st = Raised msg st' -> False.
Proof. destruct needs; discriminate. Qed.

Lemma operator_tail_raised (fuel : nat) (fname : string) (order : option Z)
    (self output_ : Tensor) (st st' : HostState) (msg : string) :
  ('(output, needs_output_copy) ←
     (if negb (is_contiguous self)
      then output ← contiguous output_; ret (output, true)
      else ret (output_, false));
   input_type ← metal_type scalarToMetalTypeString (scalar_type self);
   output_type ← metal_type scalarToMetalTypeString (scalar_type output);
   cplState ← getCPLState input_type output_type fname;
   dispatch1DJob fuel cplState self output order (numel32 output_);;
   if needs_output_copy : bool then copy_ output_ output else ret tt) st
  = Raised msg st' ->
  nothing_executed st st' /\ (is_contiguous self = true -> memory st' = memory st).
Proof.
  intros Hr.
  destruct (contiguous_step_memory self output_ st) as (output & needs & sA & HA & HnA & HmA).
  apply bind_raised in Hr as [Hr|([o n] & s1 & H1 & Hr)]; [congruence|].
  rewrite HA in H1. injection H1 as <- <- <-.
  apply bind_raised in Hr as [Hr|(it & s2 & H2 & Hr)].
  { apply metal_type_raised in Hr as ->. auto. }
  apply metal_type_returned in H2 as ->.
  apply bind_raised in Hr as [Hr|(ot & s3 & H3 & Hr)].
  { apply metal_type_raised in Hr as ->. auto. }
  apply metal_type_returned in H3 as ->.
  apply bind_raised in Hr as [Hr|(cpl & s4 & H4 & Hr)].
  { pose proof (getCPLState_same_work it ot fname sA) as HF. rewrite Hr in HF.
    destruct HF as [Hm Hd]. destruct HnA as [HdA HsA]. unfold nothing_executed.
    rewrite Hm, Hd. auto. }
  apply bind_raised in Hr as [Hr|(u & s5 & H5 & Hr)].
  { now apply dispatch1DJob_not_raised in Hr. }
  now apply copy_step_not_raised in Hr.
Qed.

(** X15: whatever makes an operator throw (a precondition, the name of a
    Metal type, the compiler, the function lookup or the pipeline
    construction), it has dispatched no job and every storage that existed
    holds what it held; when [self] is contiguous the device memory is
    exactly as before. *)
Theorem operators_throw_without_dispatch
    (fuel : nat) (order : Z) (self output_ : Tensor) (st st' : HostState) (msg : string) :
  lgamma_out_mps scalarToMetalTypeString fuel self output_ st = Raised msg st' \/
  digamma_out_mps scalarToMetalTypeString fuel self output_ st = Raised msg st' \/
  polygamma_out_mps scalarToMetalTypeString fuel order self output_ st = Raised msg st' ->
  nothing_executed st st' /\ (is_contiguous self = true -> memory st' = memory st).
Proof.
  assert (Hsame : nothing_executed st st /\ (is_contiguous self = true -> memory st = memory st))
    by (unfold nothing_executed; auto).
  unfold lgamma_out_mps, digamma_out_mps, polygamma_out_mps.
  intros [Hr|[Hr|Hr]].
  - apply bind_raised in Hr as [Hr|(u & s0 & H0 & Hr)].
    { now apply TORCH_CHECK_raised in Hr as ->. }
    apply TORCH_CHECK_returned in H0 as [-> _].
    destruct (numel32 output_ =? 0)%nat; [discriminate Hr|].
    now apply operator_tail_raised in Hr.
  - apply bind_raised in Hr as [Hr|(u & s0 & H0 & Hr)].
    { now apply TORCH_CHECK_raised in Hr as ->. }
    apply TORCH_CHECK_returned in H0 as [-> _].
    destruct (numel32 output_ =? 0)%nat; [discriminate Hr|].
    now apply operator_tail_raised in Hr.
  - apply bind_raised in Hr as [Hr|(u & s0 & H0 & Hr)].
    { now apply TORCH_CHECK_raised in Hr as ->. }
    apply TORCH_CHECK_returned in H0 as [-> _].
    apply bind_raised in Hr as [Hr|(u' & s1 & H1 & Hr)].
    { now apply TORCH_CHECK_raised in Hr as ->. }
    apply TORCH_CHECK_returned in H1 as [-> _].
    destruct (numel32 output_ =? 0)%nat; [discriminate Hr|].
    now apply operator_tail_raised in Hr.
Qed.

End Failures.

Lemma operators_throw_without_dispatch_witness :
  exists st',
    @lgamma_out_mps no_math rejecting_device metal_type_names 16 float_input float_output
       (initial_state two_buffers)
      = Raised "Failed to compile library: program_source:1:1: error" st' /\
    dispatched st' = [] /\ memory st' = two_buffers.
Proof.
  assert (H : exists st',
    @lgamma_out_mps no_math rejecting_device metal_type_names 16 float_input float_output
       (initial_state two_buffers)
      = Raised "Failed to compile library: program_source:1:1: error" st')
    by (eexists; vm_compute; reflexivity).
  destruct H as (st' & Hcall). exists st'. split; [exact Hcall|].
  destruct (@operators_throw_without_dispatch no_math rejecting_device metal_type_names
              16 0 float_input float_output (initial_state two_buffers) st' _
              (or_introl Hcall)) as ((Hd & _) & Hm).
  split; [exact Hd|]. apply Hm. reflexivity.
Defined.

(** ** A second call of an operator *)

Section Reuse.
Context {M : MetalMath} {D : MTLDevice}.
Variable scalarToMetalTypeString : ScalarType -> string + string.

Lemma metal_type_returned_name (t : ScalarType) (st st' : HostState) (name : string) :
  metal_type scalarToMetalTypeString t st = Returned name st' ->
  scalarToMetalTypeString t = inr name.
Proof.
  unfold metal_type, ret, raise.
  destruct (scalarToMetalTypeString t); intros H; [discriminate H|now injection H as -> _].
Qed.

Lemma contiguous_step_creates (self output_ : Tensor) (st : HostState) :
  exists output needs st',
    (if negb (is_contiguous self)
     then output ← contiguous output_; ret (output, true)
     else ret (output_, false)) st = Returned (output, needs) st' /\
    scalar_type output = scalar_type output_ /\ creates_nothing st st'.
Proof.
  unfold creates_nothing.
  destruct (is_contiguous self); cbn [negb].
  - exists output_, false, st. auto 10.
  - unfold contiguous. destruct (is_contiguous output_).
    + exists output_, true, st. auto 10.
    + eexists _, true, _. split; [reflexivity|]. cbn. auto 10.
Qed.

Lemma dispatch1DJob_creates fuel cpl (self output : Tensor) order length (st : HostState) :
  match dispatch1DJob fuel cpl self output order length st with
  | Returned _ st' => creates_nothing st st'
  | Raised _ _ => False
  | Stuck => True
  end.
Proof.
  unfold dispatch1DJob, set_memory, creates_nothing.
  destruct (kernel_of fuel cpl order); [|cbn; auto 10].
  destruct (run_threads _ _ _ _ _ _); cbn; auto 10.
Qed.

Lemma copy_step_creates (needs : bool) (output_ output : Tensor) (st : HostState) :
  match (if needs then copy_ output_ output else ret tt) st with
  | Returned _ st' => creates_nothing st st'
  | Raised _ _ => False
  | Stuck => True
  end.
Proof.
  unfold creates_nothing, copy_, set_memory, mbind, host_bind, bind, get_state, ret.
  destruct needs; cbn; auto 10.
Qed.

(** What a returned call leaves in [cplMap]. *)
Lemma operator_tail_returned (fuel : nat) (fname : string) (order : option Z)
    (self output_ : Tensor) (st st' : HostState) :
  ('(output, needs_output_copy) ←
     (if negb (is_contiguous self)
      then output ← contiguous output_; ret (output, true)
      else ret (output_, false));
   input_type ← metal_type scalarToMetalTypeString (scalar_type self);
   output_type ← metal_type scalarToMetalTypeString (scalar_type output);
   cplState ← getCPLState input_type output_type fname;
   dispatch1DJob fuel cplState self output order (numel32 output_);;
   if needs_output_copy : bool then copy_ output_ output else ret tt) st
  = Returned tt st' ->
  exists it ot cpl,
    scalarToMetalTypeString (scalar_type self) = inr it /\
    scalarToMetalTypeString (scalar_type output_) = inr ot /\
    cplMap st' !! String.append (String.append it ot) fname = Some cpl.
Proof.
  intros Hret.
  destruct (contiguous_step_creates self output_ st) as (output & needs & sA & HA & Hty & _).
  apply bind_returned in Hret as ([o n] & s1 & H1 & Hret).
  rewrite HA in H1. injection H1 as <- <- <-.
  apply bind_returned in Hret as (it & sB & HB & Hret).
  pose proof (metal_type_returned_name _ _ _ _ HB) as Hit.
  apply metal_type_returned in HB as ->.
  apply bind_returned in Hret as (ot & sC & HC & Hret).
  pose proof (metal_type_returned_name _ _ _ _ HC) as Hot.
  apply metal_type_returned in HC as ->.
  apply bind_returned in Hret as (cpl & sD & HD & Hret).
  apply bind_returned in Hret as (u & sE & HE & Hret).
  exists it, ot, cpl. split; [exact Hit|]. split; [now rewrite <- Hty|].
  pose proof (getCPLState_spec it ot fname sA) as HS. rewrite HD in HS.
  destruct HS as [Hk _].
  pose proof (keeps_dispatch1DJob fuel cpl self output order (numel32 output_) sD) as K1.
  rewrite HE in K1. destruct K1 as (_ & Hsub1 & _).
  assert (Hsub2 : cplMap sE ⊆ cplMap st').
  { destruct needs.
    - pose proof (keeps_copy_ output_ output sE) as K2. rewrite Hret in K2. apply K2.
    - injection Hret as <-. reflexivity. }
  eapply lookup_weaken; [|exact Hsub2]. eapply lookup_weaken; [|exact Hsub1]. exact Hk.
Qed.

(** With the pipeline in [cplMap], the call throws nothing and creates
    nothing. *)
Lemma operator_tail_reuses (fuel : nat) (fname it ot : string) (order : option Z)
    (self output_ : Tensor) (st : HostState) (cpl : MTLComputePipelineState) :
  scalarToMetalTypeString (scalar_type self) = inr it ->
  scalarToMetalTypeString (scalar_type output_) = inr ot ->
  cplMap st !! String.append (String.append it ot) fname = Some cpl ->
  reuses_caches
    ('(output, needs_output_copy) ←
       (if negb (is_contiguous self)
        then output ← contiguous output_; ret (output, true)
        else ret (output_, false));
     input_type ← metal_type scalarToMetalTypeString (scalar_type self);
     output_type ← metal_type scalarToMetalTypeString (scalar_type output);
     cplState ← getCPLState input_type output_type fname;
     dispatch1DJob fuel cplState self output order (numel32 output_);;
     if needs_output_copy : bool then copy_ output_ output else ret tt) st.
Proof.
  intros Hit Hot Hk. unfold reuses_caches.
  destruct (contiguous_step_creates self output_ st)
    as (output & needs & sA & HA & Hty & CA).
  unfold mbind at 1, host_bind at 1, bind at 1. rewrite HA.
  unfold mbind at 1, host_bind at 1, bind at 1, metal_type at 1. rewrite Hit.
  unfold ret at 1. cbv beta iota.
  unfold mbind at 1, host_bind at 1, bind at 1, metal_type at 1. rewrite Hty, Hot.
  unfold ret at 1. cbv beta iota.
  unfold mbind at 1, host_bind at 1, bind at 1.
  rewrite (getCPLState_hit it ot fname sA cpl)
    by (destruct CA as (_ & -> & _); exact Hk).
  unfold mbind at 1, host_bind at 1, bind at 1.
  pose proof (dispatch1DJob_creates fuel cpl self output order (numel32 output_) sA) as HD.
  destruct (dispatch1DJob fuel cpl self output order (numel32 output_) sA)
    as [u sE|msg sE|]; [|exact HD|exact I].
  pose proof (copy_step_creates needs output_ output sE) as HC.
  destruct ((if needs then copy_ output_ output else ret tt) sE) as [u' sF|msg sF|];
    [|exact HC|exact I].
  unfold creates_nothing in *.
  destruct CA as (A1 & A2 & A3 & A4), HD as (D1 & D2 & D3 & D4), HC as (C1 & C2 & C3 & C4).
  repeat split; congruence.
Qed.

(** X16: once an operator has returned on a non-empty output, every later
    call of that operator (for [polygamma_out_mps]: with the same order) on
    tensors of the same element types, after any calls into this file, does
    not throw and creates nothing: no compiler run, no new library, function
    or pipeline, no new cache entry. *)
Theorem operators_reuse_pipeline
    (fuel fuel' : nat) (order : Z) (self output_ self' output_' : Tensor)
    (st st1 st2 : HostState) :
  numel32 output_ <> 0%nat ->
  rtc (host_step scalarToMetalTypeString) st1 st2 ->
  scalar_type self' = scalar_type self ->
  scalar_type output_' = scalar_type output_ ->
  (lgamma_out_mps scalarToMetalTypeString fuel self output_ st = Returned tt st1 ->
   reuses_caches (lgamma_out_mps scalarToMetalTypeString fuel' self' output_') st2) /\
  (digamma_out_mps scalarToMetalTypeString fuel self output_ st = Returned tt st1 ->
   reuses_caches (digamma_out_mps scalarToMetalTypeString fuel' self' output_') st2) /\
  (polygamma_out_mps scalarToMetalTypeString fuel order self output_ st = Returned tt st1 ->
   reuses_caches
     (polygamma_out_mps scalarToMetalTypeString fuel' order self' output_') st2).
Proof.
  intros Hlen Hlater Hs Ho.
  apply Nat.eqb_neq in Hlen.
  pose proof (host_steps_cache_order scalarToMetalTypeString _ _ Hlater) as (_ & Hsub & _).
  assert (Hempty : forall s : HostState, creates_nothing s s)
    by (intros s; unfold creates_nothing; auto).
  split; [|split].
  - unfold lgamma_out_mps. intros Hret.
    apply bind_returned in Hret as (u & s0 & H0 & Hret).
    apply TORCH_CHECK_returned in H0 as [-> Hc]. rewrite Hlen in Hret.
    apply operator_tail_returned in Hret as (it & ot & cpl & Hit & Hot & Hk).
    rewrite <- Hs in Hc, Hit. rewrite <- Ho in Hot.
    unfold reuses_caches, mbind at 1, host_bind at 1, bind at 1.
    rewrite Hc. unfold TORCH_CHECK, ret at 1.
    destruct (numel32 output_' =? 0)%nat; [apply Hempty|].
    apply (operator_tail_reuses fuel' "lgamma" it ot None self' output_' st2 cpl);
      [exact Hit|exact Hot|]. eapply lookup_weaken; eauto.
  - unfold digamma_out_mps. intros Hret.
    apply bind_returned in Hret as (u & s0 & H0 & Hret).
    apply TORCH_CHECK_returned in H0 as [-> Hc]. rewrite Hlen in Hret.
    apply operator_tail_returned in Hret as (it & ot & cpl & Hit & Hot & Hk).
    rewrite <- Hs in Hc, Hit. rewrite <- Ho in Hot.
    unfold reuses_caches, mbind at 1, host_bind at 1, bind at 1.
    rewrite Hc. unfold TORCH_CHECK, ret at 1.
    destruct (numel32 output_' =? 0)%nat; [apply Hempty|].
    apply (operator_tail_reuses fuel' "digamma" it ot None self' output_' st2 cpl);
      [exact Hit|exact Hot|]. eapply lookup_weaken; eauto.
  - unfold polygamma_out_mps. intros Hret.
    apply bind_returned in Hret as (u & s0 & H0 & Hret).
    apply TORCH_CHECK_returned in H0 as [-> Hc].
    apply bind_returned in Hret as (u' & s1 & H1 & Hret).
    apply TORCH_CHECK_returned in H1 as [-> Hord]. rewrite Hlen in Hret.
    apply operator_tail_returned in Hret as (it & ot & cpl & Hit & Hot & Hk).
    rewrite <- Hs in Hc, Hit. rewrite <- Ho in Hot.
    unfold reuses_caches, mbind at 1, host_bind at 1, bind at 1.
    rewrite Hc. unfold TORCH_CHECK at 1, ret at 1.
    unfold mbind at 1, host_bind at 1, bind at 1. rewrite Hord.
    unfold TORCH_CHECK at 1, ret at 1.
    destruct (numel32 output_' =? 0)%nat; [apply Hempty|].
    eapply (operator_tail_reuses fuel' _ it ot _ self' output_' st2 cpl);
      [exact Hit|exact Hot|]. eapply lookup_weaken; eauto.
Qed.

End Reuse.

Lemma operators_reuse_pipeline_witness :
  numel32 float_output <> 0%nat /\
  exists st1,
    @lgamma_out_mps no_math accepting_device metal_type_names 16 float_input float_output
       (initial_state two_buffers) = Returned tt st1 /\
    reuses_caches
      (@lgamma_out_mps no_math accepting_device metal_type_names 16 float_input float_output)
      st1.
Proof.
  assert (Hlen : numel32 float_output <> 0%nat) by discriminate.
  split; [exact Hlen|].
  assert (H : exists st1,
    @lgamma_out_mps no_math accepting_device metal_type_names 16 float_input float_output
       (initial_state two_buffers) = Returned tt st1) by (eexists; vm_compute; reflexivity).
  destruct H as (st1 & Hcall). exists st1. split; [exact Hcall|].
  destruct (@operators_reuse_pipeline no_math accepting_device metal_type_names
              16 16 0 float_input float_output float_input float_output
              (initial_state two_buffers) st1 st1 Hlen (rtc_refl _ _) eq_refl eq_refl)
    as (Hl & _).
  exact (Hl Hcall).
Defined.

